(** * A shallow embedding of the quiz solver's extraction pipeline (src/app.py)

    The development models the decision logic of [app.py]: the page
    renderer's exception discipline ([render_dynamic_page]), resource
    discovery ([sniff_related_urls]), the numeric aggregator ([csv_sum]) and
    the two steps of [handle_quiz] that pick the cutoff and the numeric
    result.

    Conventions.
    - A Python [str] is a list of characters.  Characters are the code points
      U+0000..U+00FF (the [ascii] type read as Latin-1), and the character
      tables below are the restriction of Python's Unicode tables to that
      range.
    - A Python [float] is an IEEE 754 binary64 value, modelled by the
      Standard Library's [spec_float] with precision 53 and [emax] 1024.
    - Exceptions are explicit: a computation yields [Ok v] or [Raise e].
      An exception is known by the name of its class; [except Exception]
      handles every class but the builtin ones outside [Exception]
      ([KeyboardInterrupt], [SystemExit], ...), a bare [except:] handles
      all.
    - The outside world (HTTP, the browser, [urllib]) is an interface
      ([Env]); every theorem holds for all of its implementations. *)

From Stdlib Require Import List Bool Arith ZArith NArith Lia.
From Stdlib Require Import Ascii String.
From Stdlib Require Import Floats.SpecFloat.
From Stdlib Require QArith.
Import ListNotations.

(** ** Python strings *)

Module PyStr.

Definition str := list ascii.

(** String literals of the source. *)
Definition lit (s : string) : str := list_ascii_of_string s.

Definition code (c : ascii) : N := N_of_ascii c.

Definition between (lo hi : N) (c : ascii) : bool :=
  (N.leb lo (code c) && N.leb (code c) hi)%bool.

Definition newline : ascii := ascii_of_N 10.
Definition comma : ascii := ascii_of_N 44.

(** [ch.isspace()]: U+0009..U+000D, U+001C..U+0020, U+0085, U+00A0. *)
Definition is_space (c : ascii) : bool :=
  between 9 13 c || between 28 32 c || N.eqb (code c) 133 || N.eqb (code c) 160.

(** C's [isspace] as CPython's [Py_ISSPACE] has it: U+0009..U+000D, U+0020. *)
Definition is_c_space (c : ascii) : bool :=
  between 9 13 c || N.eqb (code c) 32.

(** [ch.isdecimal()], also the regex class [\d]: the digits 0 to 9. *)
Definition is_decimal (c : ascii) : bool := between 48 57 c.

(** [ch.isdigit()]: the decimal digits and the superscripts U+00B2, U+00B3,
    U+00B9. *)
Definition isdigit (c : ascii) : bool :=
  is_decimal c || N.eqb (code c) 178 || N.eqb (code c) 179 || N.eqb (code c) 185.

(** The regex class [\w] on [str] patterns: [ch.isalnum()] or an underscore. *)
Definition is_word (c : ascii) : bool :=
  is_decimal c || between 65 90 c || between 97 122 c || N.eqb (code c) 95
  || N.eqb (code c) 170 || N.eqb (code c) 181 || N.eqb (code c) 186
  || between 178 179 c || N.eqb (code c) 185 || between 188 190 c
  || between 192 214 c || between 216 246 c || between 248 255 c.

(** [ch.lower()]: A..Z, U+00C0..U+00D6 and U+00D8..U+00DE move up by 32. *)
Definition lower_char (c : ascii) : ascii :=
  if between 65 90 c || between 192 214 c || between 216 222 c
  then ascii_of_N (code c + 32) else c.

(** [s.lower()] *)
Definition lower (s : str) : str := map lower_char s.

Fixpoint str_eqb (a b : str) : bool :=
  match a, b with
  | [], [] => true
  | x :: a', y :: b' => Ascii.eqb x y && str_eqb a' b'
  | _, _ => false
  end.

(** [s.startswith(p)] *)
Fixpoint startswith (p s : str) : bool :=
  match p, s with
  | [], _ => true
  | x :: p', y :: s' => Ascii.eqb x y && startswith p' s'
  | _ :: _, [] => false
  end.

(** [p in s] for strings: [p] occurs as a contiguous substring of [s]. *)
Fixpoint contains (p s : str) : bool :=
  startswith p s ||
  match s with
  | [] => false
  | _ :: s' => contains p s'
  end.

(** [x in l] for a collection of strings. *)
Definition mem (x : str) (l : list str) : bool := existsb (str_eqb x) l.

(** [s.lstrip()], [s.rstrip()], [s.strip()] *)
Fixpoint lstrip (s : str) : str :=
  match s with
  | [] => []
  | c :: s' => if is_space c then lstrip s' else s
  end.

Fixpoint rstrip (s : str) : str :=
  match s with
  | [] => []
  | c :: s' =>
      match rstrip s' with
      | [] => if is_space c then [] else [c]
      | r => c :: r
      end
  end.

Definition strip (s : str) : str := rstrip (lstrip s).

(** [s.split(sep)] for a one-character separator: every occurrence cuts, and
    empty pieces are kept ([''.split(',')] is [['']]). *)
Fixpoint split (sep : ascii) (s : str) : list str :=
  match s with
  | [] => [[]]
  | c :: s' =>
      if Ascii.eqb c sep then [] :: split sep s'
      else match split sep s' with
           | [] => [[c]]
           | w :: ws => (c :: w) :: ws
           end
  end.

(** [s[:n]] *)
Definition prefix (n : nat) (s : str) : str := firstn n s.

End PyStr.
Export PyStr.

(** ** Exceptions *)

(** A raised Python exception, by the name of its class. *)
Inductive exn : Type := PyExc (name : string).

Inductive result (A : Type) : Type :=
| Ok (a : A)
| Raise (e : exn).
Arguments Ok {A} a.
Arguments Raise {A} e.

Definition ValueError : exn := PyExc "ValueError".
Definition AttributeError : exn := PyExc "AttributeError".
Definition TypeError : exn := PyExc "TypeError".

(** The builtin classes that derive from [BaseException] and not from
    [Exception].  A clause [except Exception] lets them pass; a bare
    [except:] catches them as it catches everything.  Every other class is
    taken to derive from [Exception], as the classes of [requests], of
    Selenium and of [urllib] do. *)
Definition outside_exception : list string :=
  ["BaseException"; "BaseExceptionGroup"; "GeneratorExit"; "KeyboardInterrupt";
   "SystemExit"]%string.

(** [isinstance(e, Exception)] *)
Definition is_exception (e : exn) : bool :=
  match e with
  | PyExc name => negb (existsb (String.eqb name) outside_exception)
  end.

(** ** Python numbers: [int], [float], and the builtins [float()], [int()],
       [sum()] *)

Module PyNum.

Local Open Scope Z_scope.

Definition prec : Z := 53.
Definition emax : Z := 1024.

(** binary64 *)
Definition float : Type := spec_float.

Inductive pynum : Type :=
| PyInt (z : Z)
| PyFloat (f : float).

Definition fadd (x y : float) : float := SFadd prec emax x y.

(** [float(z)] for an integer that is in range; used to write constants. *)
Definition float_of_Z (z : Z) : float := binary_normalize prec emax z 0 false.

(** [x > z] for a float [x] and an int [z]: Python compares the two exact
    values, without converting the int. *)
Definition float_gt_int (x : float) (z : Z) : bool :=
  match x with
  | S754_nan => false
  | S754_infinity s => negb s
  | S754_zero _ => Z.ltb z 0
  | S754_finite s m e =>
      let v := if s then Zneg m else Zpos m in
      if Z.leb 0 e then Z.ltb z (v * 2 ^ e) else Z.ltb (z * 2 ^ (- e)) v
  end.

(** [x == z] for a float [x] and an int [z], again on exact values. *)
Definition float_eq_int (x : float) (z : Z) : bool :=
  match x with
  | S754_nan | S754_infinity _ => false
  | S754_zero _ => Z.eqb z 0
  | S754_finite s m e =>
      let v := if s then Zneg m else Zpos m in
      if Z.leb 0 e then Z.eqb z (v * 2 ^ e) else Z.eqb (z * 2 ^ (- e)) v
  end.

(** [n == z] for a number [n] and an int [z]. *)
Definition pynum_eq_int (n : pynum) (z : Z) : bool :=
  match n with
  | PyInt k => Z.eqb k z
  | PyFloat x => float_eq_int x z
  end.

(** [sum(nums)] for a list of floats: the start value is the int [0], and the
    items are added from left to right, so the empty list gives the int [0]
    and any other list a float.  (From Python 3.12 on, [sum] also carries a
    compensation term for the rounding errors of floats; the two agree
    whenever the partial sums are exact, as in the sums evaluated below.) *)
Definition py_sum (nums : list float) : pynum :=
  match nums with
  | [] => PyInt 0
  | _ :: _ => PyFloat (fold_left fadd nums (S754_zero false))
  end.

(** *** Reading numerals *)

(** The longest prefix of [s] whose characters satisfy [p], and the rest. *)
Fixpoint span (p : ascii -> bool) (s : str) : str * str :=
  match s with
  | [] => ([], [])
  | c :: s' =>
      if p c then let (a, b) := span p s' in (c :: a, b) else ([], s)
  end.

Definition digit_value (c : ascii) : Z := Z.of_N (code c) - 48.

Definition digits_value (ds : str) : Z :=
  fold_left (fun acc c => 10 * acc + digit_value c) ds 0.

(** What [float()] and [int()] do first to a [str] argument: characters below
    U+007F stay, other whitespace becomes a space, other decimal digits
    become ASCII digits (there is none in Latin-1), and at the first
    character that is neither the text is cut and a question mark is put. *)
Fixpoint to_ascii_numeral (s : str) : str :=
  match s with
  | [] => []
  | c :: s' =>
      if N.ltb (code c) 127 then c :: to_ascii_numeral s'
      else if is_space c then " "%char :: to_ascii_numeral s'
      else ["?"%char]
  end.

(** Underscores are dropped; each must sit between two digits. *)
Fixpoint drop_underscores (prev : ascii) (s : str) : option str :=
  match s with
  | [] => if Ascii.eqb prev "_" then None else Some []
  | c :: s' =>
      if Ascii.eqb c "_" then
        if is_decimal prev then drop_underscores c s' else None
      else if Ascii.eqb prev "_" && negb (is_decimal c) then None
      else option_map (cons c) (drop_underscores c s')
  end.

(** Leading and trailing C whitespace is skipped. *)
Fixpoint c_lstrip (s : str) : str :=
  match s with
  | [] => []
  | c :: s' => if is_c_space c then c_lstrip s' else s
  end.

Definition c_strip (s : str) : str := rev (c_lstrip (rev (c_lstrip s))).

Definition parse_sign (s : str) : bool * str :=
  match s with
  | c :: s' =>
      if Ascii.eqb c "-" then (true, s')
      else if Ascii.eqb c "+" then (false, s')
      else (false, s)
  | [] => (false, s)
  end.

(** The value [m * 10 ^ e] ([0 <= m]) rounded to the nearest binary64, ties
    to even; out of range it becomes an infinity or a zero. *)
Definition decimal_to_float (neg : bool) (m e : Z) : float :=
  match m with
  | Z0 => S754_zero neg
  | Zpos _ =>
      if Z.leb 0 e then binary_normalize prec emax (if neg then - (m * 10 ^ e) else m * 10 ^ e) 0 neg
      else
        let '(q, e', l) := SFdiv_core_binary prec emax m 0 (10 ^ (- e)) 0 in
        binary_round_aux prec emax neg q e' l
  | Zneg _ => S754_nan
  end.

(** An exponent part [e[+-]digits]; when the digits are missing, nothing is
    consumed. *)
Definition parse_exponent (s : str) : Z * str :=
  match s with
  | c :: s' =>
      if Ascii.eqb c "e" || Ascii.eqb c "E" then
        let (eneg, s1) := parse_sign s' in
        let (ds, s2) := span is_decimal s1 in
        match ds with
        | [] => (0, s)
        | _ :: _ => ((if eneg then - digits_value ds else digits_value ds), s2)
        end
      else (0, s)
  | [] => (0, s)
  end.

(** [[sign] digits [. digits] [exponent]] with at least one digit in the
    mantissa, up to the end of the text. *)
Definition parse_decimal (s : str) : option float :=
  let (neg, s0) := parse_sign s in
  let (ip, s1) := span is_decimal s0 in
  let (fp, s2) :=
    match s1 with
    | c :: s1' => if Ascii.eqb c "." then span is_decimal s1' else ([], s1)
    | [] => ([], s1)
    end in
  match ip ++ fp with
  | [] => None
  | ds =>
      let (ex, s3) := parse_exponent s2 in
      match s3 with
      | [] => Some (decimal_to_float neg (digits_value ds) (ex - Z.of_nat (List.length fp)))
      | _ :: _ => None
      end
  end.

(** [[sign] inf], [[sign] infinity], [[sign] nan], in any letter case. *)
Definition parse_inf_nan (s : str) : option float :=
  let (neg, s0) := parse_sign s in
  let w := lower s0 in
  if str_eqb w (lit "inf") || str_eqb w (lit "infinity") then Some (S754_infinity neg)
  else if str_eqb w (lit "nan") then Some S754_nan
  else None.

(** [float(s)] for a string [s]; [ValueError] when [s] is not a numeral.
    (CPython also refuses numerals of more than 10^9 digits, which the model
    leaves out.) *)
Definition float_of_str (s : str) : result float :=
  match drop_underscores zero (to_ascii_numeral s) with
  | None => Raise ValueError
  | Some t =>
      let t := c_strip t in
      match parse_decimal t with
      | Some x => Ok x
      | None =>
          match parse_inf_nan t with
          | Some x => Ok x
          | None => Raise ValueError
          end
      end
  end.

(** CPython's default limit on the digits of a decimal numeral for [int()]. *)
Definition int_max_str_digits : nat := 4300%nat.

(** [int(s)] for a string [s], base ten. *)
Definition int_of_str (s : str) : result Z :=
  match drop_underscores zero (to_ascii_numeral s) with
  | None => Raise ValueError
  | Some t =>
      let (neg, ds) := parse_sign (c_strip t) in
      match ds with
      | [] => Raise ValueError
      | _ :: _ =>
          if negb (forallb is_decimal ds) then Raise ValueError
          else if Nat.ltb int_max_str_digits (List.length ds) then Raise ValueError
          else Ok (if neg then - digits_value ds else digits_value ds)
      end
  end.

End PyNum.
Export PyNum.

(** ** The numeric aggregator: [csv_sum] (app.py, lines 124-142) *)

Module Aggregator.

(** The inner [try]: [nums.append(float(cell.strip()))], and [pass] when
    [float] raises. *)
Definition try_cell (nums : list float) (cell : str) : list float :=
  match float_of_str (strip cell) with
  | Ok x => nums ++ [x]
  | Raise _ => nums
  end.

(** The two nested loops over [data.strip().split("\n")] and
    [row.split(",")]. *)
Definition csv_nums (data : str) : list float :=
  fold_left
    (fun nums row => fold_left try_cell (split comma row) nums)
    (split newline (strip data)) [].

(** A value passed for [data] or for [threshold]: [None], a [bool], an
    [int], a [float] or a [str]. *)
Inductive pyval : Type :=
| VNone
| VBool (b : bool)
| VInt (z : Z)
| VFloat (x : float)
| VStr (s : str).

(** [n > threshold] for a float [n]: the exact values are compared when the
    threshold is a number ([True] is 1, [False] is 0); a float is not ordered
    against [None] or a [str], and the comparison raises [TypeError]. *)
Definition float_gt (n : float) (threshold : pyval) : result bool :=
  match threshold with
  | VInt z => Ok (float_gt_int n z)
  | VBool b => Ok (float_gt_int n (if b then 1 else 0)%Z)
  | VFloat y => Ok (SFltb y n)
  | VNone | VStr _ => Raise TypeError
  end.

(** [[n for n in nums if n > threshold]]: the comparisons are made from left
    to right, and the first that raises ends the comprehension. *)
Fixpoint keep_above (threshold : pyval) (nums : list float) : result (list float) :=
  match nums with
  | [] => Ok []
  | n :: rest =>
      match float_gt n threshold with
      | Ok b =>
          match keep_above threshold rest with
          | Ok kept => Ok (if b then n :: kept else kept)
          | Raise e => Raise e
          end
      | Raise e => Raise e
      end
  end.

(** The body of the outer [try].  Of the values above only a [str] has a
    method [strip]: on the others [data.strip()] raises [AttributeError]. *)
Definition csv_sum_body (data threshold : pyval) : result pynum :=
  match data with
  | VStr s =>
      let nums := csv_nums s in
      match threshold with
      | VNone => Ok (py_sum nums)
      | _ =>
          match keep_above threshold nums with
          | Ok kept => Ok (py_sum kept)
          | Raise e => Raise e
          end
      end
  | _ => Raise AttributeError
  end.

(** The outer [try ... except Exception]: [return] the value of the body,
    [return None] when the body raised an [Exception]. *)
Definition except_none {A : Type} (body : result A) : result (option A) :=
  match body with
  | Ok v => Ok (Some v)
  | Raise e => if is_exception e then Ok None else Raise e
  end.

(** [csv_sum(data, threshold)], for arguments of the types above. *)
Definition csv_sum_dyn (data threshold : pyval) : result (option pynum) :=
  except_none (csv_sum_body data threshold).

(** [csv_sum(body, cutoff_val)] at the types of its call in [handle_quiz]
    (line 172): the body of a resource, and a cutoff that is [None] or an
    [int]. *)
Definition csv_sum (data : str) (threshold : option Z) : result (option pynum) :=
  csv_sum_dyn (VStr data)
    match threshold with
    | Some t => VInt t
    | None => VNone
    end.

End Aggregator.
Export Aggregator.

(** ** The aggregator as the specification words it

    The reference that [csv_sum] is compared with: the cells of the text,
    the numbers they spell, those above the threshold, their sum.  It is
    written from the grammar of numerals, not from the parser of the
    program, and shares with the program only the models of Python's
    builtins (the character tables, [lower], [split]) and the arithmetic of
    binary64 (rounding and addition). *)

Module Reference.

(** The digits that may follow a digit: each with at most one underscore
    before it.  [more_digits u ds]: the text [u] spells the digits [ds]. *)
Inductive more_digits : str -> str -> Prop :=
| md_end : more_digits [] []
| md_digit (d : ascii) (u ds : str) :
    is_decimal d = true -> more_digits u ds -> more_digits (d :: u) (d :: ds)
| md_under (d : ascii) (u ds : str) :
    is_decimal d = true -> more_digits u ds ->
    more_digits ("_"%char :: d :: u) (d :: ds).

(** A run of digits, single underscores allowed between two digits. *)
Inductive digitpart : str -> str -> Prop :=
| dp_intro (d : ascii) (u ds : str) :
    is_decimal d = true -> more_digits u ds -> digitpart (d :: u) (d :: ds).

Inductive optional_digitpart : str -> str -> Prop :=
| odp_none : optional_digitpart [] []
| odp_some (u ds : str) : digitpart u ds -> optional_digitpart u ds.

(** An optional sign; [true] for a minus. *)
Inductive sign : str -> bool -> Prop :=
| sign_none : sign [] false
| sign_plus : sign ["+"%char] false
| sign_minus : sign ["-"%char] true.

(** An optional fraction: a point and the digits after it, if any. *)
Inductive fraction : str -> str -> Prop :=
| frac_none : fraction [] []
| frac_point (v fp : str) : optional_digitpart v fp -> fraction ("."%char :: v) fp.

(** The integer that a string of digits spells. *)
Fixpoint decimal_value (ds : str) : Z :=
  match ds with
  | [] => 0
  | d :: ds' => (digit_value d * 10 ^ Z.of_nat (List.length ds') + decimal_value ds')%Z
  end.

(** An optional exponent: [e] or [E], an optional sign, digits. *)
Inductive exponent : str -> Z -> Prop :=
| exp_none : exponent [] 0%Z
| exp_some (c : ascii) (sg : str) (neg : bool) (u ds : str) :
    c = "e"%char \/ c = "E"%char -> sign sg neg -> digitpart u ds ->
    exponent (c :: sg ++ u) (if neg then - decimal_value ds else decimal_value ds)%Z.

(** A decimal numeral: sign, digits with an optional fraction (one digit at
    least in all), exponent.  [decimal body neg m e]: the text [body] spells
    the number [m * 10 ^ e], negated when [neg]. *)
Inductive decimal : str -> bool -> Z -> Z -> Prop :=
| decimal_intro (sg : str) (neg : bool) (u ip f fp e : str) (ex : Z) :
    sign sg neg -> optional_digitpart u ip -> fraction f fp -> ip ++ fp <> [] ->
    exponent e ex ->
    decimal (sg ++ u ++ f ++ e) neg (decimal_value (ip ++ fp))
            (ex - Z.of_nat (List.length fp))%Z.

(** The number that a text spells, as a binary64: a decimal numeral stands
    for the float nearest to its value; the words "inf", "infinity" and
    "nan", in any letter case and with an optional sign, stand for the
    infinities and for the NaN. *)
Inductive numeral : str -> float -> Prop :=
| num_decimal (body : str) (neg : bool) (m e : Z) :
    decimal body neg m e -> numeral body (decimal_to_float neg m e)
| num_infinity (sg : str) (neg : bool) (w : str) :
    sign sg neg -> lower w = lit "inf" \/ lower w = lit "infinity" ->
    numeral (sg ++ w) (S754_infinity neg)
| num_nan (sg : str) (neg : bool) (w : str) :
    sign sg neg -> lower w = lit "nan" -> numeral (sg ++ w) S754_nan.

(** "Parse each cell as a number": a cell spells a number when it is a
    numeral with whitespace around it. *)
Definition reads (cell : str) (x : float) : Prop :=
  exists before body after,
    cell = before ++ body ++ after /\
    forallb is_space before = true /\ forallb is_space after = true /\
    numeral body x.

(** "Non-numeric cells are discarded": the numbers of a list of cells. *)
Inductive numbers_of : list str -> list float -> Prop :=
| numbers_nil : numbers_of [] []
| numbers_number (cell : str) (x : float) (cells : list str) (xs : list float) :
    reads cell x -> numbers_of cells xs -> numbers_of (cell :: cells) (x :: xs)
| numbers_other (cell : str) (cells : list str) (xs : list float) :
    (forall x, ~ reads cell x) -> numbers_of cells xs -> numbers_of (cell :: cells) xs.

(** The rational number [2 ^ e]. *)
Definition pow2 (e : Z) : QArith_base.Q :=
  if Z.leb 0 e then QArith_base.inject_Z (2 ^ e)
  else QArith_base.Qmake 1 (Z.to_pos (2 ^ (- e))).

(** The real number that a finite float is. *)
Definition exact_value (x : float) : option QArith_base.Q :=
  match x with
  | S754_zero _ => Some (QArith_base.inject_Z 0)
  | S754_finite s m e =>
      Some (QArith_base.Qmult (QArith_base.inject_Z (if s then Zneg m else Zpos m)) (pow2 e))
  | S754_infinity _ | S754_nan => None
  end.

(** "Strictly greater than the threshold": on exact values; the positive
    infinity is above every threshold, the NaN above none. *)
Definition above (t : Z) (x : float) : bool :=
  match exact_value x with
  | Some q => negb (QArith_base.Qle_bool q (QArith_base.inject_Z t))
  | None =>
      match x with
      | S754_infinity false => true
      | _ => false
      end
  end.

(** The sum of the first [n] numbers, added one after the other from the
    left in binary64. *)
Fixpoint partial_sum (xs : list float) (n : nat) : float :=
  match n with
  | O => S754_zero false
  | S k => fadd (partial_sum xs k) (nth k xs (S754_zero false))
  end.

(** "Return the sum", the sum of no number being the integer 0. *)
Definition sum_of (xs : list float) : pynum :=
  match xs with
  | [] => PyInt 0
  | _ :: _ => PyFloat (partial_sum xs (List.length xs))
  end.

(** Rows on newline, cells on comma, the numbers of the cells, those above
    the threshold, their sum. *)
Definition csv_sum_reference (data : str) (threshold : option Z) (result : pynum) : Prop :=
  exists xs,
    numbers_of (flat_map (split comma) (split newline data)) xs /\
    result = sum_of match threshold with
                    | Some t => filter (above t) xs
                    | None => xs
                    end.

(** The real number that a result of [csv_sum] is, if it is one. *)
Definition real_value (n : pynum) : option QArith_base.Q :=
  match n with
  | PyInt z => Some (QArith_base.inject_Z z)
  | PyFloat x => exact_value x
  end.

End Reference.
Export Reference.

(** ** Regular expressions

    The fragment of Python's [re] that the program's five patterns use:
    literals, character classes, greedy [+], the word boundary, and one
    capturing group.  Matching is by backtracking, longest repetition first,
    as [re] does. *)

Module Regex.

Inductive node : Type :=
| Chr (p : ascii -> bool)    (** one character: a literal or a class *)
| Plus (p : ascii -> bool)   (** [class+], greedy *)
| Bnd                        (** the word boundary *)
| Grp (p : ascii -> bool).   (** [(class+)], greedy, capturing *)

Definition pattern : Type := list node.

(** A literal character, and a literal character under [re.IGNORECASE]. *)
Definition chr (c : ascii) : node := Chr (Ascii.eqb c).
Definition chr_i (c : ascii) : node :=
  Chr (fun x => Ascii.eqb (lower_char x) (lower_char c)).

Definition word (s : string) : pattern := map chr (lit s).
Definition word_i (s : string) : pattern := map chr_i (lit s).

Definition is_word_at (c : option ascii) : bool :=
  match c with
  | Some c => is_word c
  | None => false
  end.

Definition advance (r : option (option str * nat)) : option (option str * nat) :=
  match r with
  | Some (g, n) => Some (g, S n)
  | None => None
  end.

(** [class+] at the start of [s]: as many characters of the class as can be,
    then what follows ([k], given the last character matched and the rest);
    when that fails, one character less. *)
Fixpoint plus_loop (p : ascii -> bool)
    (k : ascii -> str -> option (option str * nat)) (s : str)
    : option (option str * nat) :=
  match s with
  | c :: s' =>
      if p c then
        advance match plus_loop p k s' with
                | Some r => Some r
                | None => k c s'
                end
      else None
  | [] => None
  end.

(** [(class+)]: the same, and the characters matched are the group. *)
Fixpoint group_loop (p : ascii -> bool)
    (k : str -> ascii -> str -> option (option str * nat)) (acc s : str)
    : option (option str * nat) :=
  match s with
  | c :: s' =>
      if p c then
        advance match group_loop p k (acc ++ [c]) s' with
                | Some r => Some r
                | None => k (acc ++ [c]) c s'
                end
      else None
  | [] => None
  end.

(** [match_here ns prev s grp]: match the nodes [ns] at the start of [s],
    [prev] being the character before [s] (none at the start of the text) and
    [grp] the text of the group so far.  The result is the text of the group
    and the number of characters matched. *)
Fixpoint match_here (ns : pattern) (prev : option ascii) (s : str)
    (grp : option str) : option (option str * nat) :=
  match ns with
  | [] => Some (grp, 0)
  | Chr p :: ns' =>
      match s with
      | c :: s' => if p c then advance (match_here ns' (Some c) s' grp) else None
      | [] => None
      end
  | Bnd :: ns' =>
      if xorb (is_word_at prev) (is_word_at (hd_error s))
      then match_here ns' prev s grp else None
  | Plus p :: ns' =>
      plus_loop p (fun c s' => match_here ns' (Some c) s' grp) s
  | Grp p :: ns' =>
      group_loop p (fun g c s' => match_here ns' (Some c) s' (Some g)) [] s
  end.

(** [re.search(p, s)]: the group of the leftmost match. *)
Fixpoint search_from (ns : pattern) (prev : option ascii) (s : str) : option str :=
  match match_here ns prev s None with
  | Some (g, _) => Some (match g with Some t => t | None => [] end)
  | None =>
      match s with
      | [] => None
      | c :: s' => search_from ns (Some c) s'
      end
  end.

Definition search (ns : pattern) (s : str) : option str := search_from ns None s.

(** [re.findall(p, s)] for a pattern with one group: the groups of the
    successive matches, left to right, the search resuming where the last
    match ended.  [skip] counts the characters of the last match still to be
    passed over.  (The patterns of the program match no empty text.) *)
Fixpoint findall_from (ns : pattern) (skip : nat) (prev : option ascii)
    (s : str) {struct s} : list str :=
  match skip with
  | S k =>
      match s with
      | [] => []
      | c :: s' => findall_from ns k (Some c) s'
      end
  | O =>
      match match_here ns prev s None with
      | Some (g, n) =>
          (match g with Some t => t | None => [] end) ::
          match s with
          | [] => []
          | c :: s' => findall_from ns (pred n) (Some c) s'
          end
      | None =>
          match s with
          | [] => []
          | c :: s' => findall_from ns 0 (Some c) s'
          end
      end
  end.

Definition findall (ns : pattern) (s : str) : list str := findall_from ns 0 None s.

(** Character classes of the patterns. *)
Definition dquote : ascii := ascii_of_N 34.
Definition is_quote (c : ascii) : bool := Ascii.eqb c dquote || Ascii.eqb c "'".
Definition not_quote (c : ascii) : bool := negb (is_quote c).
Definition not_blank (c : ascii) : bool := negb (Ascii.eqb c " ").
Definition is_token (c : ascii) : bool :=
  negb (is_space c || is_quote c || Ascii.eqb c "<" || Ascii.eqb c ">").
Definition is_C (c : ascii) : bool := Ascii.eqb c "C" || Ascii.eqb c "c".
Definition is_colon_or_blank (c : ascii) : bool := Ascii.eqb c ":" || Ascii.eqb c " ".

End Regex.
Export Regex.

(** ** The outside world *)

(** What the program calls and does not define: [requests], the Selenium
    driver, [urllib.parse].  Each call may raise; the calls on the network and
    on the browser read and change the state of the world. *)
Class Env : Type := {
  World : Type;
  Driver : Type;
  (** [requests.get(url, timeout=15).text] *)
  requests_get : str -> World -> result str * World;
  (** [build_driver()] *)
  build_driver : World -> result Driver * World;
  (** [driver.get(url)] *)
  driver_get : Driver -> str -> World -> result unit * World;
  (** [driver.find_element(By.TAG_NAME, "body").text] *)
  driver_body_text : Driver -> World -> result str * World;
  (** [driver.quit()] *)
  driver_quit : Driver -> World -> result unit * World;
  (** [urlparse(url)], its [scheme] and [netloc] *)
  urlparse : str -> result (str * str);
  (** [urljoin(base, link)] *)
  urljoin : str -> str -> result str
}.

(** The calls the program makes on the network and on the renderer, in
    order: a fetch is logged where the program prints "[Fetch] Pulling" and
    calls [requests.get], a render where [render_dynamic_page] is entered. *)
Inductive event : Type :=
| EvFetch (url : str)
| EvRender (url : str).

(** An ordered Python [dict] from strings to strings. *)
Definition dict : Type := list (str * str).

(** [d[k] = v]: the value of an existing key is replaced where it stands, a
    new key goes to the end. *)
Fixpoint dict_set (k v : str) (d : dict) : dict :=
  match d with
  | [] => [(k, v)]
  | (k', v') :: d' =>
      if str_eqb k' k then (k', v) :: d' else (k', v') :: dict_set k v d'
  end.

(** [d.get(k)] *)
Fixpoint dict_get (k : str) (d : dict) : option str :=
  match d with
  | [] => None
  | (k', v') :: d' => if str_eqb k' k then Some v' else dict_get k d'
  end.

Definition keys (d : dict) : list str := map fst d.
Definition values (d : dict) : list str := map snd d.

Section Program.

Context {E : Env}.

Record State : Type := { world : World; trace : list event }.

(** Computations that change the state and may raise.  The state reached
    when an exception is raised is kept: a handler continues from it. *)
Definition M (A : Type) : Type := State -> result A * State.

Definition ret {A : Type} (a : A) : M A := fun st => (Ok a, st).

Definition bind {A B : Type} (c : M A) (k : A -> M B) : M B :=
  fun st =>
    match c st with
    | (Ok a, st') => k a st'
    | (Raise e, st') => (Raise e, st')
    end.

(** [try: c  except Exception as e: h e].  An exception that is no
    [Exception] is not handled: it goes on to the caller. *)
Definition try_except {A : Type} (c : M A) (h : exn -> M A) : M A :=
  fun st =>
    match c st with
    | (Ok a, st') => (Ok a, st')
    | (Raise e, st') => if is_exception e then h e st' else (Raise e, st')
    end.

(** [try: c  except: h], the bare clause: every exception is handled. *)
Definition try_except_all {A : Type} (c : M A) (h : M A) : M A :=
  fun st =>
    match c st with
    | (Ok a, st') => (Ok a, st')
    | (Raise _, st') => h st'
    end.

Definition emit (e : event) : M unit :=
  fun st => (Ok tt, {| world := world st; trace := trace st ++ [e] |}).

Definition call {A : Type} (f : World -> result A * World) : M A :=
  fun st => let (r, w) := f (world st) in (r, {| world := w; trace := trace st |}).

Definition pure_call {A : Type} (r : result A) : M A := fun st => (r, st).

Local Notation "x <- c ;; k" := (bind c (fun x => k))
  (at level 61, c at next level, right associativity).
Local Notation "c ;; k" := (bind c (fun _ => k))
  (at level 61, right associativity).

(** for x in xs: a = f a x *)
Fixpoint for_each {A B : Type} (f : A -> B -> M A) (xs : list B) (a : A) : M A :=
  match xs with
  | [] => ret a
  | x :: xs' => a' <- f a x ;; for_each f xs' a'
  end.

(** *** The page renderer: [render_dynamic_page] (app.py, lines 43-60) *)

Definition render_dynamic_page (url : str) : M str :=
  emit (EvRender url) ;;
  driver <- call build_driver ;;
  try_except
    (call (driver_get driver url) ;;
     text <- call (driver_body_text driver) ;;
     call (driver_quit driver) ;;
     ret text)
    (fun _ =>
       try_except_all (call (driver_quit driver)) (ret tt) ;;
       ret []).

(** *** Resource discovery: [sniff_related_urls] (app.py, lines 67-117) *)

Definition href_tail : pattern := word_i "href=" ++ [Chr is_quote; Grp not_quote].

Definition extraction_patterns : list pattern :=
  [ href_tail;
    Bnd :: word_i "CSV" ++ Plus not_quote :: href_tail;
    Bnd :: word_i "download" ++ [Plus not_blank; Plus is_space; Grp is_token];
    Bnd :: word_i "Scrape" ++ [Plus not_blank; Plus is_space; Grp is_token] ].

Definition raw_urls_of (combined : str) : list str :=
  flat_map (fun p => findall p combined) extraction_patterns.

(** Lines 85-88: the links that are passed over. *)
Definition skipped (link : str) : bool :=
  startswith (lit "#") link || startswith (lit "javascript") link.

(** Lines 91-97: the resolved URL of a raw link. *)
Definition resolve (base link : str) : result str :=
  if startswith (lit "/") link then
    match urlparse base with
    | Ok (scheme, netloc) => Ok (scheme ++ lit "://" ++ netloc ++ link)
    | Raise e => Raise e
    end
  else if startswith (lit "http") link then Ok link
  else urljoin base link.

(** Line 99 *)
Definition is_submit (final : str) : bool := contains (lit "submit") (lower final).

(** Line 111: the bound of the slice [body[:12000]]. *)
Definition max_body : nat := N.to_nat 12000.

(** Line 107 *)
Definition is_js_stub (body : str) : bool :=
  contains (lit "<script") body && Nat.ltb (List.length body) 600.

(** Lines 102-115: the guarded fetch of one resolved URL. *)
Definition fetch_resource (final : str) (discovered : dict) : M dict :=
  try_except
    (emit (EvFetch final) ;;
     body <- call (requests_get final) ;;
     body <- (if is_js_stub body then render_dynamic_page final else ret body) ;;
     ret (dict_set final (prefix max_body body) discovered))
    (fun _ => ret discovered).

(** Lines 84-115: one turn of the loop, on the mapping and the set of raw
    links seen. *)
Definition visit_link (base : str) (acc : dict * list str) (link : str)
    : M (dict * list str) :=
  let (discovered, unique) := acc in
  if skipped link then ret acc
  else if mem link unique then ret acc
  else
    let unique := link :: unique in
    final <- pure_call (resolve base link) ;;
    if is_submit final then ret (discovered, unique)
    else
      discovered <- fetch_resource final discovered ;;
      ret (discovered, unique).

Definition sniff_links (base : str) (raw_urls : list str) : M (dict * list str) :=
  for_each (visit_link base) raw_urls ([], []).

Definition sniff_related_urls (base html_text visible_text : str) : M dict :=
  let combined := html_text ++ visible_text in
  acc <- sniff_links base (raw_urls_of combined) ;;
  ret (fst acc).

End Program.

(** ** The orchestrator: two steps of [handle_quiz] *)

(** Lines 164-167: the cutoff.  The pattern is [[Cc]utoff[: ]+(\d+)], without
    flags. *)
Definition cutoff_pattern : pattern :=
  Chr is_C :: word "utoff" ++ [Plus is_colon_or_blank; Grp is_decimal].

Definition handle_quiz_cutoff (page_text : str) : result (option Z) :=
  match search cutoff_pattern page_text with
  | Some g =>
      match int_of_str g with
      | Ok n => Ok (Some n)
      | Raise e => Raise e
      end
  | None => Ok None
  end.

(** Line 171: the test on a resource. *)
Definition qualifies (link body : str) : bool :=
  contains (lit ".csv") link || existsb isdigit (prefix 80 body).

(** Lines 169-172: the walk over [assets.items()]. *)
Fixpoint numeric_walk (items : dict) (cutoff_val : option Z)
    (precomputed : option pynum) : result (option pynum) :=
  match items with
  | [] => Ok precomputed
  | (link, body) :: rest =>
      if qualifies link body then
        match csv_sum body cutoff_val with
        | Ok total => numeric_walk rest cutoff_val total
        | Raise e => Raise e
        end
      else numeric_walk rest cutoff_val precomputed
  end.

Definition handle_quiz_precomputed (assets : dict) (cutoff_val : option Z)
    : result (option pynum) :=
  numeric_walk assets cutoff_val None.

(** ** Notions used to state the properties *)

Definition event_url (ev : event) : str :=
  match ev with
  | EvFetch u => u
  | EvRender u => u
  end.

(** The URLs passed to [requests.get], in order. *)
Definition fetched_urls (evs : list event) : list str :=
  flat_map (fun ev => match ev with EvFetch u => [u] | EvRender _ => [] end) evs.

(** A computation started in world [w] with an empty log: its outcome and the
    calls it made. *)
Definition outcome {E : Env} {A : Type} (c : M A) (w : World) : result A :=
  fst (c {| world := w; trace := [] |}).

Definition calls {E : Env} {A : Type} (c : M A) (w : World) : list event :=
  trace (snd (c {| world := w; trace := [] |})).

(** The shape of the log of a discovery: each fetch stands alone or is
    followed at once by one render of the URL just fetched. *)
Inductive log_blocks : list event -> Prop :=
| blocks_nil : log_blocks []
| blocks_fetch (u : str) (evs : list event) :
    log_blocks evs -> log_blocks (EvFetch u :: evs)
| blocks_render (u : str) (evs : list event) :
    log_blocks evs -> log_blocks (EvFetch u :: EvRender u :: evs).

(** The fetches logged in [evs] come from distinct raw links of [pool]: there
    is a list of raw links without repetition, all from [pool], whose
    resolved URLs are the fetched URLs, one for one and in order. *)
Definition fetches_from {E : Env} (base : str) (pool : list str) (evs : list event) : Prop :=
  exists rs,
    NoDup rs /\ incl rs pool /\
    Forall2 (fun r u => resolve base r = Ok u) rs (fetched_urls evs).

(** The raw links that a walk over [raw_urls] takes up, [seen] being the
    links taken up before: those that are not passed over, each at its first
    occurrence. *)
Fixpoint new_links (seen raw_urls : list str) : list str :=
  match raw_urls with
  | [] => []
  | link :: rest =>
      if skipped link || mem link seen then new_links seen rest
      else link :: new_links (link :: seen) rest
  end.

(** The distinct raw links of a discovery, in the order they first appear. *)
Definition distinct_links (raw_urls : list str) : list str := new_links [] raw_urls.

(** What holds of the mapping, of the set of raw links seen and of the log
    at each turn of the loop of [sniff_related_urls] over [raw_urls]. *)
Definition loop_inv {E : Env} (base : str) (raw_urls : list str)
    (acc : dict * list str) (st : State) : Prop :=
  Forall (fun ev => is_submit (event_url ev) = false) (trace st) /\
  Forall (fun k => is_submit k = false) (keys (fst acc)) /\
  Forall (fun v => List.length v <= max_body) (values (fst acc)) /\
  NoDup (keys (fst acc)) /\
  incl (snd acc) raw_urls /\
  fetches_from base (snd acc) (trace st) /\
  log_blocks (trace st).

(** What is left of it when the loop is ended by an exception. *)
Definition abort_inv {E : Env} (base : str) (raw_urls : list str) (st : State) : Prop :=
  Forall (fun ev => is_submit (event_url ev) = false) (trace st) /\
  fetches_from base raw_urls (trace st) /\
  log_blocks (trace st).

(** The cells of a text: its rows cut on commas. *)
Definition cells (data : str) : list str :=
  flat_map (split comma) (split newline data).

(** What the inner [try] of [csv_sum] makes of a cell: the float that
    [float(cell.strip())] returns, or nothing when it raises. *)
Definition cell_float (cell : str) : option float :=
  match float_of_str (strip cell) with
  | Ok x => Some x
  | Raise _ => None
  end.

(** The floats that the loops of [csv_sum] collect from a list of cells. *)
Definition cell_values (cs : list str) : list float :=
  flat_map (fun cell => match cell_float cell with Some x => [x] | None => [] end) cs.

(** The floats of the cells of a text that are above the threshold, when
    there is one. *)
Definition kept_values (data : str) (threshold : option Z) : list float :=
  match threshold with
  | Some t => filter (fun n => float_gt_int n t) (cell_values (cells data))
  | None => cell_values (cells data)
  end.

(** What [parse_exponent] accepts, when nothing is left after it: nothing, or
    [e] or [E], an optional sign and digits. *)
Inductive plain_exponent : str -> Z -> Prop :=
| pe_none : plain_exponent [] 0%Z
| pe_some (c : ascii) (sg : str) (neg : bool) (ds : str) :
    c = "e"%char \/ c = "E"%char -> sign sg neg ->
    ds <> [] -> forallb is_decimal ds = true ->
    plain_exponent (c :: sg ++ ds) (if neg then - digits_value ds else digits_value ds)%Z.

(** The text [rest] does not begin with a sign. *)
Definition no_sign_ahead (rest : str) : Prop :=
  match rest with
  | [] => True
  | x :: _ => Ascii.eqb x "-" = false /\ Ascii.eqb x "+" = false
  end.

(** A letter of the ASCII alphabet, in either case. *)
Definition letterish (a : ascii) : bool := between 97 122 (lower_char a).

(** One of the words that [float] takes for a number. *)
Definition special (w : str) : Prop :=
  lower w = lit "inf" \/ lower w = lit "infinity" \/ lower w = lit "nan".

(** The characters that a numeral can have: below U+007F, no whitespace, no
    question mark. *)
Definition numeral_char (a : ascii) : bool :=
  N.ltb (code a) 127 && negb (is_space a) && negb (Ascii.eqb a "?").

Definition last_opt {A : Type} (l : list A) : option A :=
  match rev l with
  | x :: _ => Some x
  | [] => None
  end.

(** The last resource, in insertion order, that passes the test of line 171. *)
Definition last_qualifying (assets : dict) : option (str * str) :=
  last_opt (filter (fun item => qualifies (fst item) (snd item)) assets).

(** [text] is [pre], then "Cutoff" or "cutoff", then colons and blanks, then
    the digits [ds], which end there. *)
Definition cutoff_phrase (text pre ds : str) : Prop :=
  exists c seps rest,
    text = pre ++ c :: lit "utoff" ++ seps ++ ds ++ rest /\
    is_C c = true /\
    seps <> [] /\ forallb is_colon_or_blank seps = true /\
    ds <> [] /\ forallb is_decimal ds = true /\
    match rest with
    | [] => True
    | x :: _ => is_decimal x = false
    end.

(** The match of [cutoff_pattern] at the start of [s], spelled out: the
    digits of the group and the length of the match. *)
Definition cutoff_here (s : str) : option (str * nat) :=
  match s with
  | c :: s1 =>
      if is_C c && startswith (lit "utoff") s1 then
        match span is_colon_or_blank (skipn 5 s1) with
        | ([], _) => None
        | (seps, rest) =>
            match span is_decimal rest with
            | ([], _) => None
            | (ds, _) => Some (ds, 6 + List.length seps + List.length ds)
            end
        end
      else None
  | [] => None
  end.

(** The character before the text that follows the literal [l]. *)
Definition prev_after (l : str) (prev : option ascii) : option ascii :=
  fold_left (fun _ x => Some x) l prev.

(** ** Sample worlds

    Small implementations of [Env], on which the statements are run. *)

Module Demo.

(** [urlparse] on URLs of the plain shape [scheme://host/path]. *)
Definition urlparse_plain (url : str) : result (str * str) :=
  let (scheme, r) := span (fun c => negb (Ascii.eqb c ":")) url in
  if startswith (lit "://") r then
    let (netloc, _) :=
      span (fun c => negb (Ascii.eqb c "/" || Ascii.eqb c "?" || Ascii.eqb c "#"))
           (skipn 3 r) in
    Ok (lower scheme, netloc)
  else Ok ([], []).

(** [urljoin] for a plain relative path: it replaces the last segment of the
    base. *)
Fixpoint dirname (s : str) : str :=
  match s with
  | [] => []
  | c :: s' =>
      if existsb (Ascii.eqb "/") s' then c :: dirname s'
      else if Ascii.eqb c "/" then [c] else []
  end.

Definition urljoin_plain (base link : str) : result str := Ok (dirname base ++ link).

(** A static site: every URL whose text has "app" serves a script stub, every
    other URL a small table; the browser works and shows "7,8". *)
Definition site : Env := {|
  World := unit;
  Driver := unit;
  requests_get := fun url w =>
    (Ok (if contains (lit "app") url then lit "<script src=x></script>"
         else lit "1,2,3"), w);
  build_driver := fun w => (Ok tt, w);
  driver_get := fun _ _ w => (Ok tt, w);
  driver_body_text := fun _ w => (Ok (lit "7,8"), w);
  driver_quit := fun _ w => (Ok tt, w);
  urlparse := urlparse_plain;
  urljoin := urljoin_plain
|}.


Definition base_url : str := lit "http://quiz.test/q/1".

Definition stub_url : str := lit "http://quiz.test/q/app.js".
Definition stub_body : str := lit "<script src=x></script>".

(** A page with the same resource under two spellings, a script stub, a
    submit link and a repeated link. *)
Definition page_html : str :=
  lit "<a href='/data.csv'>CSV</a> <a href='http://quiz.test/data.csv'>again</a> <a href='app.js'>a</a> <a href='/Submit'>s</a> <a href='/data.csv'>dup</a>".

End Demo.

(** ** Further parts of the program and notions for their properties *)




(** The URLs passed to [render_dynamic_page], in order. *)
Definition rendered_urls (evs : list event) : list str :=
  flat_map (fun ev => match ev with EvRender u => [u] | EvFetch _ => [] end) evs.

(** A world that also counts the calls of [driver.quit()]; every call behaves
    as in [E]. *)
Definition counting_quits (E : Env) : Env := {|
  World := (@World E * nat)%type;
  Driver := @Driver E;
  requests_get := fun url w =>
    let (r, w') := @requests_get E url (fst w) in (r, (w', snd w));
  build_driver := fun w =>
    let (r, w') := @build_driver E (fst w) in (r, (w', snd w));
  driver_get := fun d url w =>
    let (r, w') := @driver_get E d url (fst w) in (r, (w', snd w));
  driver_body_text := fun d w =>
    let (r, w') := @driver_body_text E d (fst w) in (r, (w', snd w));
  driver_quit := fun d w =>
    let (r, w') := @driver_quit E d (fst w) in (r, (w', S (snd w)));
  urlparse := @urlparse E;
  urljoin := @urljoin E
|}.

(** A pattern without a capturing group. *)
Definition no_group (ns : pattern) : bool :=
  forallb (fun nd => match nd with Grp _ => false | _ => true end) ns.

(** [r] occurs in [s] as a contiguous piece. *)
Definition substring (r s : str) : Prop := exists a b, s = a ++ r ++ b.

(** More sample worlds. *)
Module Sample.

(** The site of [Demo.site], with a browser that fails when it is closed. *)
Definition site_close_fails : Env := {|
  World := unit;
  Driver := unit;
  requests_get := @requests_get Demo.site;
  build_driver := fun w => (Ok tt, w);
  driver_get := fun _ _ w => (Ok tt, w);
  driver_body_text := fun _ w => (Ok (lit "7,8"), w);
  driver_quit := fun _ w => (Raise (PyExc "WebDriverException"), w);
  urlparse := Demo.urlparse_plain;
  urljoin := Demo.urljoin_plain
|}.

(** The site of [Demo.site], where the load of a page in the browser is
    interrupted from the keyboard. *)
Definition site_interrupted : Env := {|
  World := unit;
  Driver := unit;
  requests_get := @requests_get Demo.site;
  build_driver := fun w => (Ok tt, w);
  driver_get := fun _ _ w => (Raise (PyExc "KeyboardInterrupt"), w);
  driver_body_text := fun _ w => (Ok (lit "7,8"), w);
  driver_quit := fun _ w => (Ok tt, w);
  urlparse := Demo.urlparse_plain;
  urljoin := Demo.urljoin_plain
|}.

(** A site that cannot be reached: every request raises. *)
Definition site_offline : Env := {|
  World := unit;
  Driver := unit;
  requests_get := fun _ w => (Raise (PyExc "ConnectionError"), w);
  build_driver := fun w => (Ok tt, w);
  driver_get := fun _ _ w => (Ok tt, w);
  driver_body_text := fun _ w => (Ok (lit "7,8"), w);
  driver_quit := fun _ w => (Ok tt, w);
  urlparse := Demo.urlparse_plain;
  urljoin := Demo.urljoin_plain
|}.

(** A site whose links cannot be resolved: [urljoin] raises. *)
Definition site_bad_links : Env := {|
  World := unit;
  Driver := unit;
  requests_get := @requests_get Demo.site;
  build_driver := fun w => (Ok tt, w);
  driver_get := fun _ _ w => (Ok tt, w);
  driver_body_text := fun _ w => (Ok (lit "7,8"), w);
  driver_quit := fun _ w => (Ok tt, w);
  urlparse := Demo.urlparse_plain;
  urljoin := fun _ _ => Raise ValueError
|}.

End Sample.

Module SamplePages.

(** A page whose links are all passed over. *)
Definition page_inert : str :=
  lit "<a href='#top'>up</a> <a href='javascript:void(0)'>menu</a>".

(** A page with one relative link. *)
Definition page_relative : str := lit "<a href='app.js'>a</a>".

(** A page text whose cutoff has 4301 digits. *)
Definition text_long_cutoff : str := lit "Cutoff: " ++ repeat "7"%char 4301.

End SamplePages.

(** * Properties *)

(** ** Strings *)

Lemma split_not_nil (sep : ascii) (s : str) : split sep s <> [].
Proof.
  destruct s as [|c s]; simpl; [discriminate|].
  destruct (Ascii.eqb c sep); [discriminate|].
  destruct (split sep s); discriminate.
Qed.

Lemma is_space_not_comma (c : ascii) : is_space c = true -> Ascii.eqb c comma = false.
Proof.
  intros H. destruct (Ascii.eqb c comma) eqn:Hc; [|reflexivity].
  apply Ascii.eqb_eq in Hc. subst c. discriminate H.
Qed.

Lemma cells_not_nil (s : str) : cells s <> [].
Proof.
  unfold cells. destruct (split newline s) as [|row rows] eqn:Hs.
  - exfalso. exact (split_not_nil _ _ Hs).
  - simpl. destruct (split comma row) eqn:Hr.
    + exfalso. exact (split_not_nil _ _ Hr).
    + discriminate.
Qed.

Lemma cells_cons_newline (s : str) : cells (newline :: s) = [] :: cells s.
Proof. reflexivity. Qed.

Lemma cells_cons_comma (s : str) : cells (comma :: s) = [] :: cells s.
Proof.
  unfold cells.
  change (split newline (comma :: s))
    with (match split newline s with [] => [[comma]] | w :: ws => (comma :: w) :: ws end).
  destruct (split newline s) as [|row rows] eqn:Hs.
  - exfalso. exact (split_not_nil _ _ Hs).
  - reflexivity.
Qed.

Lemma cells_cons_other (c : ascii) (s : str) :
  Ascii.eqb c newline = false -> Ascii.eqb c comma = false ->
  cells (c :: s) =
  match cells s with
  | [] => [[c]]
  | t :: ts => (c :: t) :: ts
  end.
Proof.
  intros Hn Hc. unfold cells.
  change (split newline (c :: s))
    with (if Ascii.eqb c newline then [] :: split newline s
          else match split newline s with [] => [[c]] | w :: ws => (c :: w) :: ws end).
  rewrite Hn.
  destruct (split newline s) as [|row rows] eqn:Hs.
  - exfalso. exact (split_not_nil _ _ Hs).
  - simpl. rewrite Hc. destruct (split comma row) as [|t ts] eqn:Hr.
    + exfalso. exact (split_not_nil _ _ Hr).
    + reflexivity.
Qed.

(** A character put at the end of a text: a separator opens an empty cell,
    another character joins the last cell. *)
Lemma cells_snoc (s : str) (c : ascii) :
  exists ts t,
    cells s = ts ++ [t] /\
    cells (s ++ [c]) =
    if Ascii.eqb c newline || Ascii.eqb c comma then ts ++ [t; []]
    else ts ++ [t ++ [c]].
Proof.
  induction s as [|x s IH].
  - exists [], []. split; [reflexivity|].
    destruct (Ascii.eqb c newline) eqn:Hn.
    + apply Ascii.eqb_eq in Hn. subst c. reflexivity.
    + destruct (Ascii.eqb c comma) eqn:Hc.
      * apply Ascii.eqb_eq in Hc. subst c. reflexivity.
      * simpl app. rewrite (cells_cons_other c [] Hn Hc). reflexivity.
  - destruct IH as (ts & t & Hs & Hsc). simpl app.
    destruct (Ascii.eqb x newline) eqn:Hxn.
    { apply Ascii.eqb_eq in Hxn. subst x. rewrite !cells_cons_newline, Hs, Hsc.
      exists ([] :: ts), t. split; [reflexivity|].
      destruct (Ascii.eqb c newline || Ascii.eqb c comma); reflexivity. }
    destruct (Ascii.eqb x comma) eqn:Hxc.
    { apply Ascii.eqb_eq in Hxc. subst x. rewrite !cells_cons_comma, Hs, Hsc.
      exists ([] :: ts), t. split; [reflexivity|].
      destruct (Ascii.eqb c newline || Ascii.eqb c comma); reflexivity. }
    rewrite (cells_cons_other x s Hxn Hxc), (cells_cons_other x (s ++ [c]) Hxn Hxc), Hs, Hsc.
    destruct ts as [|h ts].
    + exists [], (x :: t). split; [reflexivity|].
      destruct (Ascii.eqb c newline || Ascii.eqb c comma); reflexivity.
    + exists ((x :: h) :: ts), t. split; [reflexivity|].
      destruct (Ascii.eqb c newline || Ascii.eqb c comma); reflexivity.
Qed.

Lemma lstrip_cons_space (c : ascii) (s : str) :
  is_space c = true -> lstrip (c :: s) = lstrip s.
Proof. intros H. simpl. rewrite H. reflexivity. Qed.

Lemma rstrip_snoc_space (s : str) (c : ascii) :
  is_space c = true -> rstrip (s ++ [c]) = rstrip s.
Proof.
  intros H. induction s as [|x s IH]; simpl.
  - rewrite H. reflexivity.
  - rewrite IH. reflexivity.
Qed.

Lemma lstrip_snoc_space (s : str) (c : ascii) :
  is_space c = true ->
  lstrip (s ++ [c]) = match lstrip s with [] => [] | _ :: _ => lstrip s ++ [c] end.
Proof.
  intros H. induction s as [|x s IH]; simpl.
  - rewrite H. reflexivity.
  - destruct (is_space x); [exact IH | reflexivity].
Qed.

Lemma strip_cons_space (c : ascii) (s : str) :
  is_space c = true -> strip (c :: s) = strip s.
Proof. intros H. unfold strip. rewrite lstrip_cons_space by exact H. reflexivity. Qed.

Lemma strip_snoc_space (s : str) (c : ascii) :
  is_space c = true -> strip (s ++ [c]) = strip s.
Proof.
  intros H. unfold strip. rewrite lstrip_snoc_space by exact H.
  destruct (lstrip s) as [|x r] eqn:Hl; [reflexivity|].
  apply rstrip_snoc_space. exact H.
Qed.

(** A text is its [rstrip] followed by whitespace. *)
Lemma rstrip_tail (s : str) :
  exists ws, s = rstrip s ++ ws /\ forallb is_space ws = true.
Proof.
  induction s as [|x s (ws & Hs & Hws)]; simpl.
  - exists []. split; reflexivity.
  - destruct (rstrip s) as [|y r] eqn:Hr.
    + destruct (is_space x) eqn:Hx.
      * exists (x :: ws). split; [simpl in *; congruence|]. simpl. rewrite Hx. exact Hws.
      * exists ws. split; [simpl in *; congruence | exact Hws].
    + exists ws. split; [simpl in *; congruence | exact Hws].
Qed.

(** ** The aggregator *)

Lemma cell_float_nil : cell_float [] = None.
Proof. reflexivity. Qed.

Lemma cell_float_cons_space (c : ascii) (t : str) :
  is_space c = true -> cell_float (c :: t) = cell_float t.
Proof. intros H. unfold cell_float. rewrite strip_cons_space by exact H. reflexivity. Qed.

Lemma cell_float_snoc_space (t : str) (c : ascii) :
  is_space c = true -> cell_float (t ++ [c]) = cell_float t.
Proof. intros H. unfold cell_float. rewrite strip_snoc_space by exact H. reflexivity. Qed.

Lemma cell_values_app (a b : list str) :
  cell_values (a ++ b) = cell_values a ++ cell_values b.
Proof. unfold cell_values. apply flat_map_app. Qed.

(** Whitespace in front of a text adds no value. *)
Lemma cell_values_cons_space (c : ascii) (s : str) :
  is_space c = true -> cell_values (cells (c :: s)) = cell_values (cells s).
Proof.
  intros H. destruct (Ascii.eqb c newline) eqn:Hn.
  - apply Ascii.eqb_eq in Hn. subst c. rewrite cells_cons_newline. reflexivity.
  - rewrite (cells_cons_other c s Hn (is_space_not_comma c H)).
    destruct (cells s) as [|t ts] eqn:Hs.
    + exfalso. exact (cells_not_nil _ Hs).
    + unfold cell_values. simpl. rewrite cell_float_cons_space by exact H. reflexivity.
Qed.

(** Nor does whitespace at its end. *)
Lemma cell_values_snoc_space (s : str) (c : ascii) :
  is_space c = true -> cell_values (cells (s ++ [c])) = cell_values (cells s).
Proof.
  intros H. destruct (cells_snoc s c) as (ts & t & Hs & Hsc). rewrite Hs, Hsc.
  rewrite (is_space_not_comma c H), orb_false_r.
  destruct (Ascii.eqb c newline).
  - change (ts ++ [t; []]) with (ts ++ [t] ++ [[]]).
    rewrite app_assoc, cell_values_app. unfold cell_values at 2. simpl.
    rewrite app_nil_r. reflexivity.
  - rewrite !cell_values_app. f_equal. unfold cell_values. simpl.
    rewrite cell_float_snoc_space by exact H. reflexivity.
Qed.

Lemma cell_values_lstrip (s : str) :
  cell_values (cells (lstrip s)) = cell_values (cells s).
Proof.
  induction s as [|c s IH]; [reflexivity|]. simpl.
  destruct (is_space c) eqn:Hc; [|reflexivity].
  rewrite IH. symmetry. apply cell_values_cons_space. exact Hc.
Qed.

Lemma cell_values_app_spaces (s ws : str) :
  forallb is_space ws = true -> cell_values (cells (s ++ ws)) = cell_values (cells s).
Proof.
  induction ws as [|c ws IH] using rev_ind; intros H.
  - rewrite app_nil_r. reflexivity.
  - rewrite forallb_app in H. apply andb_prop in H. destruct H as [Hws Hc].
    simpl in Hc. rewrite andb_true_r in Hc.
    rewrite app_assoc, cell_values_snoc_space by exact Hc. apply IH. exact Hws.
Qed.

Lemma cell_values_strip (s : str) :
  cell_values (cells (strip s)) = cell_values (cells s).
Proof.
  unfold strip. destruct (rstrip_tail (lstrip s)) as (ws & Hs & Hws).
  rewrite <- (cell_values_lstrip s). rewrite Hs at 2.
  symmetry. apply cell_values_app_spaces. exact Hws.
Qed.

Lemma fold_try_cell (cs : list str) (nums : list float) :
  fold_left try_cell cs nums = nums ++ cell_values cs.
Proof.
  revert nums. induction cs as [|c cs IH]; intros nums; simpl.
  - rewrite app_nil_r. reflexivity.
  - rewrite IH. unfold try_cell, cell_values, cell_float. simpl.
    destruct (float_of_str (strip c)); simpl.
    + rewrite <- app_assoc. reflexivity.
    + reflexivity.
Qed.

Lemma fold_rows (rows : list str) (nums : list float) :
  fold_left (fun nums row => fold_left try_cell (split comma row) nums) rows nums
  = nums ++ cell_values (flat_map (split comma) rows).
Proof.
  revert nums. induction rows as [|r rows IH]; intros nums; simpl.
  - rewrite app_nil_r. reflexivity.
  - rewrite IH, fold_try_cell, cell_values_app, app_assoc. reflexivity.
Qed.

(** The numbers the loops collect are the values of the cells of the text,
    stripped or not. *)
Lemma csv_nums_cells (data : str) : csv_nums data = cell_values (cells data).
Proof.
  unfold csv_nums. rewrite fold_rows. simpl. apply cell_values_strip.
Qed.

Lemma keep_above_int (t : Z) (nums : list float) :
  keep_above (VInt t) nums = Ok (filter (fun n => float_gt_int n t) nums).
Proof.
  induction nums as [|n nums IH]; [reflexivity|].
  cbn [keep_above float_gt filter]. rewrite IH. reflexivity.
Qed.

(** At the types of its call, the body of [csv_sum] raises nothing: the
    result is the sum of the floats of the cells that are kept. *)
Lemma csv_sum_total (data : str) (threshold : option Z) :
  csv_sum data threshold = Ok (Some (py_sum (kept_values data threshold))).
Proof.
  unfold csv_sum, csv_sum_dyn, csv_sum_body, kept_values.
  rewrite csv_nums_cells. destruct threshold as [t|]; [|reflexivity].
  rewrite keep_above_int. reflexivity.
Qed.

(** The comparisons with the threshold raise [TypeError] and nothing else. *)
Lemma keep_above_raises (threshold : pyval) (nums : list float) (e : exn) :
  keep_above threshold nums = Raise e -> e = TypeError.
Proof.
  induction nums as [|n nums IH]; [discriminate|].
  cbn [keep_above]. destruct (float_gt n threshold) as [b|e0] eqn:Hgt.
  - destruct (keep_above threshold nums) as [kept|e1]; [discriminate|].
    intros H. injection H as <-. apply IH. reflexivity.
  - intros H. injection H as <-.
    destruct threshold; simpl in Hgt; congruence.
Qed.

(** A threshold that is a number is compared with every float. *)
Lemma keep_above_number (threshold : pyval) (nums : list float) :
  (forall t, threshold <> VStr t) -> threshold <> VNone ->
  exists kept, keep_above threshold nums = Ok kept.
Proof.
  intros Hs Hn. induction nums as [|n nums (kept & IH)]; [exists []; reflexivity|].
  cbn [keep_above]. rewrite IH.
  destruct threshold as [|b|z|y|t]; simpl;
    try (eexists; reflexivity); [congruence | exfalso; exact (Hs t eq_refl)].
Qed.

(** A threshold that is a text is compared with no float: the first
    comparison raises. *)
Lemma keep_above_str (t : str) (nums : list float) :
  nums <> [] -> keep_above (VStr t) nums = Raise TypeError.
Proof. destruct nums as [|n nums]; [congruence | reflexivity]. Qed.

(** What the body of [csv_sum] raises is an [Exception]. *)
Lemma csv_sum_body_raises (data threshold : pyval) (e : exn) :
  csv_sum_body data threshold = Raise e -> e = AttributeError \/ e = TypeError.
Proof.
  unfold csv_sum_body. destruct data as [|b|z|x|s];
    try (intros H; injection H as <-; left; reflexivity).
  destruct threshold as [|b|z|y|t]; try discriminate;
    match goal with
    | |- context [keep_above ?thr ?nums] =>
        destruct (keep_above thr nums) as [kept|e0] eqn:Hk; [discriminate|];
        intros H; injection H as <-; right; exact (keep_above_raises _ _ _ Hk)
    end.
Qed.

(** C8: [csv_sum] raises nothing to its caller, whatever it is given for
    [data] and [threshold] ([None], a [bool], an [int], a [float] or a
    [str]).  It returns [None] exactly when its body raised: so it does when
    [data] is no text, and when the threshold is a text and some cell of the
    data is a number.  On a text, with no threshold or a number for
    threshold, it returns a number whatever the cells are: a cell that
    [float] refuses leaves the collected numbers as they were. *)
Theorem csv_sum_never_raises :
  (forall data threshold, exists r, csv_sum_dyn data threshold = Ok r) /\
  (forall data threshold,
     csv_sum_dyn data threshold = Ok None <->
     exists e, csv_sum_body data threshold = Raise e) /\
  (forall data threshold,
     (forall s, data <> VStr s) -> csv_sum_dyn data threshold = Ok None) /\
  (forall s t, csv_nums s <> [] -> csv_sum_dyn (VStr s) (VStr t) = Ok None) /\
  (forall s threshold,
     (forall t, threshold <> VStr t) ->
     exists total, csv_sum_dyn (VStr s) threshold = Ok (Some total)) /\
  (forall nums cell e,
     float_of_str (strip cell) = Raise e -> try_cell nums cell = nums).
Proof.
  assert (Hnone : forall data threshold e,
            csv_sum_body data threshold = Raise e -> csv_sum_dyn data threshold = Ok None).
  { intros data threshold e H. unfold csv_sum_dyn. rewrite H.
    destruct (csv_sum_body_raises _ _ _ H) as [-> | ->]; reflexivity. }
  split; [|split; [|split; [|split; [|split]]]].
  - intros data threshold.
    destruct (csv_sum_body data threshold) as [v|e] eqn:H.
    + unfold csv_sum_dyn. rewrite H. eexists. reflexivity.
    + rewrite (Hnone _ _ _ H). eexists. reflexivity.
  - intros data threshold. split.
    + unfold csv_sum_dyn. destruct (csv_sum_body data threshold) as [v|e]; [discriminate|].
      intros _. exists e. reflexivity.
    + intros (e & H). exact (Hnone _ _ _ H).
  - intros data threshold Hd. apply (Hnone _ _ AttributeError).
    destruct data as [|b|z|x|s]; try reflexivity. exfalso. exact (Hd s eq_refl).
  - intros s t Hs. apply (Hnone _ _ TypeError).
    unfold csv_sum_body. rewrite (keep_above_str t _ Hs). reflexivity.
  - intros s threshold Ht. unfold csv_sum_dyn, csv_sum_body.
    destruct threshold as [|b|z|y|t];
      try (eexists; reflexivity);
      try (match goal with
           | |- context [keep_above ?thr ?nums] =>
               destruct (keep_above_number thr nums Ht) as (kept & ->); [discriminate|]
           end; eexists; reflexivity).
  - intros nums cell e H. unfold try_cell. rewrite H. reflexivity.
Qed.

Lemma csv_sum_never_raises_witness :
  csv_sum_dyn VNone VNone = Ok None /\
  csv_sum_dyn (VStr (lit "1,x")) (VStr (lit "5")) = Ok None /\
  (exists total, csv_sum_dyn (VStr (lit "1,x")) (VFloat (float_of_Z 0)) = Ok (Some total)) /\
  try_cell [float_of_Z 1] (lit " abc ") = [float_of_Z 1].
Proof.
  pose proof csv_sum_never_raises as (_ & _ & Hdata & Hthr & Hnum & Hcell).
  split; [|split; [|split]].
  - apply Hdata. discriminate.
  - apply Hthr. vm_compute. discriminate.
  - apply Hnum. discriminate.
  - apply (Hcell [float_of_Z 1] (lit " abc ") ValueError). vm_compute. reflexivity.
Defined.

(** ** The orchestrator's numeric result *)

Lemma last_opt_cons {A : Type} (x : A) (l : list A) :
  last_opt (x :: l) = match last_opt l with Some y => Some y | None => Some x end.
Proof.
  unfold last_opt. simpl. destruct (rev l); reflexivity.
Qed.

Lemma last_opt_app_single {A : Type} (l : list A) (x : A) :
  last_opt (l ++ [x]) = Some x.
Proof. unfold last_opt. rewrite rev_app_distr. reflexivity. Qed.

Lemma numeric_walk_last (items : dict) (cutoff_val : option Z) (precomputed : option pynum) :
  numeric_walk items cutoff_val precomputed =
  match last_qualifying items with
  | Some (_, body) => csv_sum body cutoff_val
  | None => Ok precomputed
  end.
Proof.
  revert precomputed. unfold last_qualifying.
  induction items as [|[link body] rest IH]; intros precomputed; [reflexivity|].
  cbn [numeric_walk filter fst snd]. destruct (qualifies link body).
  - rewrite last_opt_cons, csv_sum_total, IH.
    destruct (last_opt _) as [[l b]|]; [reflexivity|]. rewrite csv_sum_total. reflexivity.
  - apply IH.
Qed.

(** C1: the numeric result of the orchestrator is the aggregator applied,
    with the cutoff, to the body of the last resource in insertion order
    whose URL has ".csv" or whose first 80 characters have a digit; the walk
    goes to the end of the mapping, and with no such resource there is no
    result.  The second part pins down "the last qualifying resource". *)
Theorem numeric_result_last_qualifying :
  (forall assets cutoff_val,
     handle_quiz_precomputed assets cutoff_val =
     match last_qualifying assets with
     | Some (_, body) => csv_sum body cutoff_val
     | None => Ok None
     end) /\
  (forall before link body after,
     qualifies link body = true ->
     forallb (fun item => negb (qualifies (fst item) (snd item))) after = true ->
     last_qualifying (before ++ (link, body) :: after) = Some (link, body)) /\
  (forall assets,
     forallb (fun item => negb (qualifies (fst item) (snd item))) assets = true ->
     last_qualifying assets = None).
Proof.
  assert (Hnone : forall assets,
     forallb (fun item => negb (qualifies (fst item) (snd item))) assets = true ->
     filter (fun item => qualifies (fst item) (snd item)) assets = []).
  { induction assets as [|x l IH]; [reflexivity|]. simpl. intros H.
    apply andb_prop in H. destruct H as [Hx Hl].
    apply negb_true_iff in Hx. rewrite Hx. apply IH. exact Hl. }
  split; [|split].
  - intros assets cutoff_val. apply numeric_walk_last.
  - intros before link body after Hq Hafter. unfold last_qualifying.
    rewrite filter_app. cbn [filter fst snd]. rewrite Hq, (Hnone after Hafter).
    apply last_opt_app_single.
  - intros assets H. unfold last_qualifying. rewrite (Hnone assets H). reflexivity.
Qed.


Lemma numeric_result_last_qualifying_witness :
  last_qualifying
    ([(lit "http://quiz.test/a.csv", lit "x")] ++
     (lit "http://quiz.test/b", lit "1,2") :: [(lit "http://quiz.test/c", lit "none")])
  = Some (lit "http://quiz.test/b", lit "1,2") /\
  last_qualifying [(lit "http://quiz.test/c", lit "none")] = None.
Proof.
  pose proof numeric_result_last_qualifying as (_ & Hlast & Hnone).
  split.
  - apply Hlast; reflexivity.
  - apply Hnone. reflexivity.
Defined.

(** ** Dictionaries and sets of strings *)

Lemma str_eqb_eq (a b : str) : str_eqb a b = true <-> a = b.
Proof.
  revert b. induction a as [|x a IH]; intros [|y b]; simpl; split; intros H;
    try reflexivity; try discriminate.
  - apply andb_prop in H. destruct H as [Hxy Hab].
    apply Ascii.eqb_eq in Hxy. apply IH in Hab. congruence.
  - injection H as Hxy Hab. subst. rewrite Ascii.eqb_refl. simpl.
    apply IH. reflexivity.
Qed.

Lemma str_eqb_refl (a : str) : str_eqb a a = true.
Proof. apply str_eqb_eq. reflexivity. Qed.

Lemma mem_In (x : str) (l : list str) : mem x l = true <-> In x l.
Proof.
  unfold mem. rewrite existsb_exists. split.
  - intros (y & Hy & Hxy). apply str_eqb_eq in Hxy. subst. exact Hy.
  - intros H. exists x. split; [exact H | apply str_eqb_refl].
Qed.

Lemma keys_dict_set (k v : str) (d : dict) :
  keys (dict_set k v d) = if mem k (keys d) then keys d else keys d ++ [k].
Proof.
  induction d as [|[k' v'] d IH]; [reflexivity|].
  simpl. destruct (str_eqb k' k) eqn:Hk.
  - apply str_eqb_eq in Hk. subst k'. rewrite str_eqb_refl. reflexivity.
  - assert (Hk' : str_eqb k k' = false).
    { destruct (str_eqb k k') eqn:H; [|reflexivity].
      apply str_eqb_eq in H. subst. rewrite str_eqb_refl in Hk. discriminate. }
    rewrite Hk'. simpl. fold (keys (dict_set k v d)). rewrite IH.
    fold (keys d). unfold mem. destruct (existsb (str_eqb k) (keys d)); reflexivity.
Qed.

Lemma values_dict_set (P : str -> Prop) (k v : str) (d : dict) :
  P v -> Forall P (values d) -> Forall P (values (dict_set k v d)).
Proof.
  intros Hv. induction d as [|[k' v'] d IH]; simpl; intros H.
  - constructor; [exact Hv | constructor].
  - inversion H as [|? ? Hv' Hd]; subst.
    destruct (str_eqb k' k); simpl; constructor; auto.
Qed.

Lemma keys_dict_set_NoDup (k v : str) (d : dict) :
  NoDup (keys d) -> NoDup (keys (dict_set k v d)).
Proof.
  intros H. rewrite keys_dict_set. destruct (mem k (keys d)) eqn:Hm; [exact H|].
  apply NoDup_app; [exact H | repeat constructor; intros [] | ].
  intros x Hx [Hk|[]]. subst x. apply mem_In in Hx. congruence.
Qed.

Lemma keys_dict_set_Forall (P : str -> Prop) (k v : str) (d : dict) :
  P k -> Forall P (keys d) -> Forall P (keys (dict_set k v d)).
Proof.
  intros Hk H. rewrite keys_dict_set. destruct (mem k (keys d)); [exact H|].
  apply Forall_app. split; [exact H | repeat constructor; exact Hk].
Qed.

Lemma dict_get_set (k v : str) (d : dict) : dict_get k (dict_set k v d) = Some v.
Proof.
  induction d as [|[k' v'] d IH]; simpl.
  - rewrite str_eqb_refl. reflexivity.
  - destruct (str_eqb k' k) eqn:Hk; simpl; rewrite Hk; [reflexivity | exact IH].
Qed.

Lemma prefix_length (n : nat) (s : str) : List.length (prefix n s) <= n.
Proof. unfold prefix. apply firstn_le_length. Qed.

(** ** The page renderer *)

(** Unfolds the combinators of [M] down to the calls on the world. *)
Ltac run_m :=
  unfold bind, try_except, try_except_all, emit, call, pure_call, ret; simpl.

Section Renderer.

Context {E : Env}.

(** What a call of [render_dynamic_page] logs: its own entry, nothing else. *)
Lemma render_trace (url : str) (st : State) :
  trace (snd (render_dynamic_page url st)) = trace st ++ [EvRender url].
Proof.
  unfold render_dynamic_page. run_m.
  destruct (build_driver (world st)) as [[d|e] w1]; simpl; [|reflexivity].
  destruct (driver_get d url w1) as [[[]|e] w2]; simpl.
  - destruct (driver_body_text d w2) as [[text|e] w3]; simpl.
    + destruct (driver_quit d w3) as [[[]|e] w4]; simpl; [reflexivity|].
      destruct (is_exception e); simpl; [|reflexivity].
      destruct (driver_quit d w4) as [[[]|e'] w5]; reflexivity.
    + destruct (is_exception e); simpl; [|reflexivity].
      destruct (driver_quit d w3) as [[[]|e'] w4]; reflexivity.
  - destruct (is_exception e); simpl; [|reflexivity].
    destruct (driver_quit d w2) as [[[]|e'] w3]; reflexivity.
Qed.



End Renderer.



(** An interrupt while the page loads leaves the renderer. *)
Example render_interrupted :
  fst (render_dynamic_page (E := Sample.site_interrupted) Demo.base_url
         (@Build_State Sample.site_interrupted tt []))
  = Raise (PyExc "KeyboardInterrupt").
Proof. reflexivity. Qed.

(** ** Resource discovery *)

Lemma max_body_Z : Z.of_nat max_body = 12000%Z.
Proof. reflexivity. Qed.

#[local] Opaque max_body.

Section Discovery.

Context {E : Env}.

Lemma fetched_urls_app (a b : list event) :
  fetched_urls (a ++ b) = fetched_urls a ++ fetched_urls b.
Proof. unfold fetched_urls. apply flat_map_app. Qed.

(** The guarded fetch logs the fetch, then at most one render of the same
    URL.  When it returns, the mapping is left alone or has got a body of the
    URL cut to [max_body]; it raises only what is no [Exception]. *)
Lemma fetch_resource_cases (final : str) (d : dict) (st : State) :
  exists r st' evs,
    fetch_resource final d st = (r, st') /\
    trace st' = trace st ++ EvFetch final :: evs /\
    (evs = [] \/ evs = [EvRender final]) /\
    match r with
    | Ok d' => d' = d \/ exists body, d' = dict_set final (prefix max_body body) d
    | Raise e => is_exception e = false
    end.
Proof.
  unfold fetch_resource. run_m.
  destruct (requests_get final (world st)) as [[body|e] w1]; simpl.
  - destruct (is_js_stub body).
    + match goal with |- context [render_dynamic_page final ?s] =>
        pose proof (render_trace final s) as Ht;
        destruct (render_dynamic_page final s) as [[text|e] st2]
      end; simpl in Ht.
      * exists (Ok (dict_set final (prefix max_body text) d)), st2, [EvRender final].
        split; [reflexivity|]. split; [rewrite Ht, <- app_assoc; reflexivity|].
        split; [right; reflexivity | right; exists text; reflexivity].
      * destruct (is_exception e) eqn:He.
        -- exists (Ok d), st2, [EvRender final].
           split; [reflexivity|]. split; [rewrite Ht, <- app_assoc; reflexivity|].
           split; [right; reflexivity | left; reflexivity].
        -- exists (Raise e), st2, [EvRender final].
           split; [reflexivity|]. split; [rewrite Ht, <- app_assoc; reflexivity|].
           split; [right; reflexivity | exact He].
    + do 3 eexists. split; [reflexivity|]. simpl.
      split; [reflexivity|]. split; [left; reflexivity | right; exists body; reflexivity].
  - destruct (is_exception e) eqn:He.
    + exists (Ok d). do 2 eexists. split; [reflexivity|]. simpl.
      split; [reflexivity|]. split; left; reflexivity.
    + exists (Raise e). do 2 eexists. split; [reflexivity|]. simpl.
      split; [reflexivity|]. split; [left; reflexivity | exact He].
Qed.

(** One turn of the loop: the link is passed over; or its resolution raises;
    or its URL is a submit URL; or the URL is fetched. *)
Lemma visit_link_cases (base : str) (d : dict) (u : list str) (link : str) (st : State) :
  (skipped link || mem link u = true /\
   visit_link base (d, u) link st = (Ok (d, u), st)) \/
  (skipped link = false /\ mem link u = false /\
   ((exists e,
       resolve base link = Raise e /\
       visit_link base (d, u) link st = (Raise e, st)) \/
    (exists final,
       resolve base link = Ok final /\ is_submit final = true /\
       visit_link base (d, u) link st = (Ok (d, link :: u), st)) \/
    (exists final r st',
       resolve base link = Ok final /\ is_submit final = false /\
       fetch_resource final d st = (r, st') /\
       visit_link base (d, u) link st =
       (match r with
        | Ok d' => Ok (d', link :: u)
        | Raise e => Raise e
        end, st')))).
Proof.
  unfold visit_link.
  destruct (skipped link); [left; split; reflexivity|].
  destruct (mem link u) eqn:Hm; [left; split; reflexivity|].
  right. split; [reflexivity|]. split; [reflexivity|].
  unfold bind, pure_call, ret.
  destruct (resolve base link) as [final|e] eqn:Hr.
  - right. destruct (is_submit final) eqn:Hs.
    + left. exists final. auto.
    + right. destruct (fetch_resource final d st) as [r st'] eqn:Hf.
      exists final, r, st'. destruct r; auto.
  - left. exists e. auto.
Qed.

Lemma for_each_invariant {A B : Type} (f : A -> B -> M A) (xs : list B)
    (I : A -> State -> Prop) (J : State -> Prop) :
  (forall a x st, In x xs -> I a st ->
     match f a x st with
     | (Ok a', st') => I a' st'
     | (Raise _, st') => J st'
     end) ->
  forall a st, I a st ->
    match for_each f xs a st with
    | (Ok a', st') => I a' st'
    | (Raise _, st') => J st'
    end.
Proof.
  intros Hstep.
  assert (H : forall ys, incl ys xs -> forall a st, I a st ->
            match for_each f ys a st with
            | (Ok a', st') => I a' st'
            | (Raise _, st') => J st'
            end).
  { induction ys as [|y ys IH]; intros Hys a st Ha; simpl.
    - exact Ha.
    - unfold bind. pose proof (Hstep a y st (Hys y (or_introl eq_refl)) Ha) as Hy.
      destruct (f a y st) as [[a'|e] st']; [|exact Hy].
      apply IH; [|exact Hy]. intros z Hz. apply Hys. right. exact Hz. }
  apply H. apply incl_refl.
Qed.

Lemma fetches_from_weaken (base : str) (pool pool' : list str) (evs : list event) :
  incl pool pool' -> fetches_from base pool evs -> fetches_from base pool' evs.
Proof.
  intros Hp (rs & Hnd & Hin & Hf). exists rs. split; [exact Hnd|].
  split; [|exact Hf]. intros x Hx. apply Hp, Hin, Hx.
Qed.

(** A fetch for a raw link not seen before keeps the fetches attributable. *)
Lemma fetches_from_step (base : str) (u : list str) (link final : str)
    (evs more : list event) :
  mem link u = false -> resolve base link = Ok final ->
  (more = [] \/ more = [EvRender final]) ->
  fetches_from base u evs ->
  fetches_from base (link :: u) (evs ++ EvFetch final :: more).
Proof.
  intros Hm Hr Hmore (rs & Hnd & Hin & Hf). exists (rs ++ [link]).
  split; [|split].
  - apply NoDup_app; [exact Hnd | repeat constructor; intros [] |].
    intros x Hx [Hl|[]]. subst x. apply Hin, mem_In in Hx. congruence.
  - intros x Hx. apply in_app_or in Hx. destruct Hx as [Hx|[Hx|[]]].
    + right. apply Hin, Hx.
    + left. exact Hx.
  - rewrite fetched_urls_app. apply Forall2_app; [exact Hf|].
    destruct Hmore as [-> | ->]; simpl; repeat constructor; exact Hr.
Qed.

Lemma log_blocks_app (a b : list event) :
  log_blocks a -> log_blocks b -> log_blocks (a ++ b).
Proof.
  intros Ha Hb. induction Ha; simpl; [exact Hb | |]; constructor; assumption.
Qed.

(** The loop invariant holds after every turn. *)
Lemma visit_link_invariant (base : str) (raw_urls : list str)
    (acc : dict * list str) (link : str) (st : State) :
  In link raw_urls -> loop_inv base raw_urls acc st ->
  match visit_link base acc link st with
  | (Ok acc', st') => loop_inv base raw_urls acc' st'
  | (Raise _, st') => abort_inv base raw_urls st'
  end.
Proof.
  intros Hlink. destruct acc as [d u].
  intros (Hev & Hk & Hv & Hnd & Hu & Hf & Hb). simpl in Hk, Hv, Hnd, Hu, Hf.
  assert (Hu' : incl (link :: u) raw_urls).
  { intros x [Hx|Hx]; [subst x; exact Hlink | apply Hu, Hx]. }
  destruct (visit_link_cases base d u link st)
    as [[_ Hc] | (_ & Hm & [(e & Hr & Hc) | [(final & Hr & Hs & Hc)
       | (final & r & st' & Hr & Hs & Hfr & Hc)]])]; rewrite Hc.
  - repeat split; assumption.
  - split; [exact Hev|]. split; [|exact Hb].
    exact (fetches_from_weaken base u raw_urls _ Hu Hf).
  - repeat split; try assumption.
    apply (fetches_from_weaken base u (link :: u)); [|exact Hf].
    intros x Hx. right. exact Hx.
  - destruct (fetch_resource_cases final d st) as (r2 & st2 & evs & Hfr2 & Ht & Hevs & Hd).
    rewrite Hfr in Hfr2. injection Hfr2 as <- <-.
    assert (Hev' : Forall (fun ev => is_submit (event_url ev) = false) (trace st')).
    { rewrite Ht. apply Forall_app. split; [exact Hev|].
      constructor; [exact Hs|]. destruct Hevs as [-> | ->]; repeat constructor. exact Hs. }
    assert (Hf' : fetches_from base (link :: u) (trace st')).
    { rewrite Ht. apply fetches_from_step; assumption. }
    assert (Hb' : log_blocks (trace st')).
    { rewrite Ht. apply log_blocks_app; [exact Hb|].
      destruct Hevs as [-> | ->];
        [apply blocks_fetch | apply blocks_render]; apply blocks_nil. }
    destruct r as [d'|e].
    + unfold loop_inv. simpl fst. simpl snd. repeat split; try assumption.
      * destruct Hd as [-> | (body & ->)]; [exact Hk|].
        apply keys_dict_set_Forall; assumption.
      * destruct Hd as [-> | (body & ->)]; [exact Hv|].
        apply values_dict_set; [apply prefix_length | exact Hv].
      * destruct Hd as [-> | (body & ->)]; [exact Hnd|].
        apply keys_dict_set_NoDup. exact Hnd.
    + split; [exact Hev'|]. split; [|exact Hb'].
      exact (fetches_from_weaken base _ raw_urls _ Hu' Hf').
Qed.

(** The whole loop, from the empty mapping and an empty log. *)
Lemma sniff_links_invariant (base : str) (raw_urls : list str) (w : World) :
  match sniff_links base raw_urls {| world := w; trace := [] |} with
  | (Ok acc, st) => loop_inv base raw_urls acc st
  | (Raise _, st) => abort_inv base raw_urls st
  end.
Proof.
  unfold sniff_links. apply for_each_invariant.
  - intros a x st. apply visit_link_invariant.
  - unfold loop_inv. simpl. repeat split; try constructor.
    + intros x [].
    + exists []. repeat split; try constructor. intros x [].
Qed.

(** What [sniff_related_urls] returns and logs, in terms of the loop. *)
Lemma sniff_related_urls_run (base html_text visible_text : str) (w : World) :
  let run := sniff_links base (raw_urls_of (html_text ++ visible_text))
               {| world := w; trace := [] |} in
  calls (sniff_related_urls base html_text visible_text) w = trace (snd run) /\
  outcome (sniff_related_urls base html_text visible_text) w =
  match fst run with
  | Ok acc => Ok (fst acc)
  | Raise e => Raise e
  end.
Proof.
  unfold calls, outcome, sniff_related_urls, bind, ret. simpl.
  destruct (sniff_links _ _ _) as [[acc|e] st]; split; reflexivity.
Qed.

End Discovery.

(** C3: whatever the page and the world, no URL whose lower-case form has
    "submit" is fetched or rendered during discovery, and none is a key of
    the mapping returned. *)
Theorem submit_never_fetched_or_stored
    (E : Env) (base html_text visible_text : str) (w : World) :
  Forall (fun ev => contains (lit "submit") (lower (event_url ev)) = false)
         (calls (sniff_related_urls base html_text visible_text) w) /\
  match outcome (sniff_related_urls base html_text visible_text) w with
  | Ok discovered =>
      Forall (fun k => contains (lit "submit") (lower k) = false) (keys discovered)
  | Raise _ => True
  end.
Proof.
  destruct (sniff_related_urls_run base html_text visible_text w) as [-> ->].
  pose proof (sniff_links_invariant base (raw_urls_of (html_text ++ visible_text)) w) as H.
  destruct (sniff_links _ _ _) as [[acc|e] st]; simpl.
  - destruct H as (Hev & Hk & _). split; assumption.
  - destruct H as (Hev & _). split; [exact Hev | exact I].
Qed.

(** C7: every body in the mapping that discovery returns has at most 12000
    characters, whatever the sizes of the bodies served. *)
Theorem stored_bodies_bounded
    (E : Env) (base html_text visible_text : str) (w : World) :
  match outcome (sniff_related_urls base html_text visible_text) w with
  | Ok discovered =>
      Forall (fun body => (Z.of_nat (List.length body) <= 12000)%Z) (values discovered)
  | Raise _ => True
  end.
Proof.
  destruct (sniff_related_urls_run base html_text visible_text w) as [_ ->].
  pose proof (sniff_links_invariant base (raw_urls_of (html_text ++ visible_text)) w) as H.
  destruct (sniff_links _ _ _) as [[acc|e] st]; simpl; [|exact I].
  destruct H as (_ & _ & Hv & _).
  eapply Forall_impl; [|exact Hv]. intros body Hb. simpl in Hb.
  rewrite <- max_body_Z. apply Nat2Z.inj_le. exact Hb.
Qed.

Lemma new_links_In (raw_urls seen : list str) (link : str) :
  In link (new_links seen raw_urls) <->
  In link raw_urls /\ skipped link = false /\ ~ In link seen.
Proof.
  revert seen. induction raw_urls as [|x raw IH]; intros seen; cbn [new_links].
  - split; [intros [] | intros ([] & _)].
  - destruct (skipped x) eqn:Hsk; simpl orb.
    + rewrite IH. split.
      * intros (Hin & Hs & Hn). split; [right; exact Hin | auto].
      * intros ([<- | Hin] & Hs & Hn); [congruence | auto].
    + destruct (mem x seen) eqn:Hm.
      * rewrite IH. split.
        -- intros (Hin & Hs & Hn). split; [right; exact Hin | auto].
        -- intros ([<- | Hin] & Hs & Hn); [|auto].
           exfalso. apply Hn. apply mem_In. exact Hm.
      * split.
        -- intros [<- | Hin].
           ++ split; [left; reflexivity|]. split; [exact Hsk|].
              intros Hin. apply mem_In in Hin. congruence.
           ++ apply IH in Hin. destruct Hin as (Hin & Hs & Hn).
              split; [right; exact Hin|]. split; [exact Hs|].
              intros Hseen. apply Hn. right. exact Hseen.
        -- intros ([<- | Hin] & Hs & Hn); [left; reflexivity|].
           destruct (str_eqb x link) eqn:Hx.
           ++ apply str_eqb_eq in Hx. left. exact Hx.
           ++ right. apply IH. split; [exact Hin|]. split; [exact Hs|].
              intros [Heq | Hseen]; [|exact (Hn Hseen)].
              subst x. rewrite str_eqb_refl in Hx. discriminate.
Qed.

Lemma new_links_NoDup (raw_urls seen : list str) : NoDup (new_links seen raw_urls).
Proof.
  revert seen. induction raw_urls as [|x raw IH]; intros seen; cbn [new_links].
  - constructor.
  - destruct (skipped x || mem x seen); [apply IH|].
    constructor; [|apply IH].
    intros Hin. apply new_links_In in Hin. destruct Hin as (_ & _ & Hn).
    apply Hn. left. reflexivity.
Qed.

Section DiscoveryExact.

Context {E : Env}.

(** The fetches of the loop, exactly: the loop takes up the distinct raw
    links in order, resolves each, and fetches the resolved URLs that are no
    submit URLs; when an exception ends it, the links taken up are a leading
    part of the distinct raw links: the loop stopped at the link whose
    resolution raised, or in the fetch for the last link taken up, which
    raised what is no [Exception]. *)
Lemma sniff_links_fetches (base : str) (raw_urls : list str) (d : dict) (u : list str)
    (st : State) :
  exists taken rest finals,
    new_links u raw_urls = taken ++ rest /\
    Forall2 (fun r f => resolve base r = Ok f) taken finals /\
    fetched_urls (trace (snd (for_each (visit_link base) raw_urls (d, u) st)))
    = fetched_urls (trace st) ++ filter (fun f => negb (is_submit f)) finals /\
    match fst (for_each (visit_link base) raw_urls (d, u) st) with
    | Ok _ => rest = []
    | Raise e =>
        (exists link rest', rest = link :: rest' /\ resolve base link = Raise e) \/
        (is_exception e = false /\ taken <> [])
    end.
Proof.
  revert d u st. induction raw_urls as [|link raw IH]; intros d u st.
  - exists [], [], []. simpl. rewrite app_nil_r. repeat split. constructor.
  - cbn [for_each new_links]. unfold bind.
    destruct (visit_link_cases base d u link st)
      as [[Hskip Hc] | (Hsk & Hm & [(e & Hr & Hc) | [(final & Hr & Hs & Hc)
         | (final & r & st1 & Hr & Hs & Hf & Hc)]])]; rewrite Hc.
    + rewrite Hskip. apply IH.
    + rewrite Hsk, Hm. exists [], (link :: new_links (link :: u) raw), [].
      simpl. rewrite app_nil_r. repeat split; [constructor|].
      left. exists link, (new_links (link :: u) raw). auto.
    + rewrite Hsk, Hm. simpl orb. cbv iota.
      destruct (IH d (link :: u) st) as (taken & rest & finals & Hn & HF & Ht & Ho).
      exists (link :: taken), rest, (final :: finals).
      split; [rewrite Hn; reflexivity|]. split; [constructor; assumption|].
      split; [cbn [filter]; rewrite Hs; exact Ht|].
      destruct (fst (for_each (visit_link base) raw (d, link :: u) st)) as [acc|e];
        [exact Ho|].
      destruct Ho as [Ho | [He _]]; [left; exact Ho | right; split; [exact He | discriminate]].
    + rewrite Hsk, Hm. simpl orb. cbv iota.
      destruct (fetch_resource_cases final d st) as (r2 & st2 & evs & Hf2 & Htr & Hevs & Hd).
      rewrite Hf in Hf2. injection Hf2 as <- <-.
      assert (Hone : fetched_urls (trace st1) = fetched_urls (trace st) ++ [final]).
      { rewrite Htr, fetched_urls_app. destruct Hevs as [-> | ->]; reflexivity. }
      destruct r as [d1|e].
      * destruct (IH d1 (link :: u) st1) as (taken & rest & finals & Hn & HF & Ht & Ho).
        exists (link :: taken), rest, (final :: finals).
        split; [rewrite Hn; reflexivity|]. split; [constructor; assumption|].
        split.
        { cbn [filter]. rewrite Hs. cbn [negb].
          rewrite Ht, Hone, <- app_assoc. reflexivity. }
        destruct (fst (for_each (visit_link base) raw (d1, link :: u) st1)) as [acc|e];
          [exact Ho|].
        destruct Ho as [Ho | [He _]]; [left; exact Ho | right; split; [exact He | discriminate]].
      * exists [link], (new_links (link :: u) raw), [final].
        split; [reflexivity|]. split; [repeat constructor; exact Hr|].
        split; [cbn [filter snd]; rewrite Hs; exact Hone|].
        right. split; [exact Hd | discriminate].
Qed.

End DiscoveryExact.

(** C6, amended: raw links, not resolved URLs, are deduplicated before they
    are resolved and fetched.  The distinct raw links of a discovery are the
    candidates that are not passed over, each at its first place (first two
    parts).  Discovery takes them up in that order, all of them unless an
    exception ends it (at the next link, whose resolution raised, or in the
    fetch for the last link taken up, which raised what is no [Exception]),
    and the URLs it fetches are exactly the resolved URLs of the links taken
    up that are no submit URLs, one fetch for each such link: so a raw link
    seen twice is fetched at most once, and a URL that several distinct raw
    links resolve to is fetched once for each.  Each resolved URL is a key
    of the returned mapping at most once. *)
Theorem raw_links_fetched_once
    (E : Env) (base html_text visible_text : str) (w : World) :
  NoDup (distinct_links (raw_urls_of (html_text ++ visible_text))) /\
  (forall link,
     In link (distinct_links (raw_urls_of (html_text ++ visible_text))) <->
     In link (raw_urls_of (html_text ++ visible_text)) /\ skipped link = false) /\
  (exists taken rest finals,
     distinct_links (raw_urls_of (html_text ++ visible_text)) = taken ++ rest /\
     Forall2 (fun r u => resolve base r = Ok u) taken finals /\
     fetched_urls (calls (sniff_related_urls base html_text visible_text) w)
     = filter (fun u => negb (is_submit u)) finals /\
     match outcome (sniff_related_urls base html_text visible_text) w with
     | Ok _ => rest = []
     | Raise e =>
         (exists link rest', rest = link :: rest' /\ resolve base link = Raise e) \/
         (is_exception e = false /\ taken <> [])
     end) /\
  fetches_from base (raw_urls_of (html_text ++ visible_text))
    (calls (sniff_related_urls base html_text visible_text) w) /\
  match outcome (sniff_related_urls base html_text visible_text) w with
  | Ok discovered => NoDup (keys discovered)
  | Raise _ => True
  end.
Proof.
  split; [apply new_links_NoDup|]. split.
  { intros link. unfold distinct_links. rewrite new_links_In. split.
    - intros (Hin & Hs & _). auto.
    - intros (Hin & Hs). split; [exact Hin|]. split; [exact Hs | intros []]. }
  destruct (sniff_related_urls_run base html_text visible_text w) as [-> ->].
  split.
  { destruct (sniff_links_fetches base (raw_urls_of (html_text ++ visible_text)) [] []
                {| world := w; trace := [] |}) as (taken & rest & finals & Hn & HF & Ht & Ho).
    exists taken, rest, finals. split; [exact Hn|]. split; [exact HF|].
    unfold sniff_links. split; [exact Ht|].
    destruct (for_each _ _ _ _) as [[acc|e] st]; exact Ho. }
  pose proof (sniff_links_invariant base (raw_urls_of (html_text ++ visible_text)) w) as H.
  destruct (sniff_links _ _ _) as [[acc|e] st]; simpl.
  - destruct H as (_ & _ & _ & Hnd & Hu & Hf & _). split; [|exact Hnd].
    exact (fetches_from_weaken base _ _ _ Hu Hf).
  - destruct H as (_ & Hf & _). split; [exact Hf | exact I].
Qed.

(** C6 as stated fails: two raw links that resolve to one URL are both
    fetched. *)
Lemma resolved_url_fetched_twice :
  fetched_urls (calls (sniff_related_urls (E := Demo.site) Demo.base_url Demo.page_html []) tt)
  = [lit "http://quiz.test/data.csv"; lit "http://quiz.test/data.csv";
     lit "http://quiz.test/q/app.js"] /\
  ~ NoDup (fetched_urls
             (calls (sniff_related_urls (E := Demo.site) Demo.base_url Demo.page_html []) tt)).
Proof.
  assert (H : fetched_urls
                (calls (sniff_related_urls (E := Demo.site) Demo.base_url Demo.page_html []) tt)
              = [lit "http://quiz.test/data.csv"; lit "http://quiz.test/data.csv";
                 lit "http://quiz.test/q/app.js"]).
  { vm_compute. reflexivity. }
  split; [exact H|]. rewrite H. intros Hnd.
  inversion Hnd as [|x l Hx _]; subst. apply Hx. left. reflexivity.
Qed.

(** Discovery on the sample page: what is stored and what is called. *)
Example discovery_on_sample_page :
  outcome (sniff_related_urls (E := Demo.site) Demo.base_url Demo.page_html []) tt
  = Ok [(lit "http://quiz.test/data.csv", lit "1,2,3");
        (lit "http://quiz.test/q/app.js", lit "7,8")] /\
  calls (sniff_related_urls (E := Demo.site) Demo.base_url Demo.page_html []) tt
  = [EvFetch (lit "http://quiz.test/data.csv");
     EvFetch (lit "http://quiz.test/data.csv");
     EvFetch (lit "http://quiz.test/q/app.js");
     EvRender (lit "http://quiz.test/q/app.js")].
Proof. split; vm_compute; reflexivity. Qed.

(** The numeric result on the resources of the sample page, above a cutoff
    of 1: that of the last resource (7 + 8), not of the first (2 + 3). *)
Example numeric_result_on_sample_page :
  handle_quiz_precomputed
    [(lit "http://quiz.test/data.csv", lit "1,2,3");
     (lit "http://quiz.test/q/app.js", lit "7,8")] (Some 1%Z)
  = Ok (Some (PyFloat (float_of_Z 15))).
Proof. vm_compute. reflexivity. Qed.

(** C5: in discovery, when the body fetched for a URL has "<script" and is
    shorter than 600 characters, the page renderer is called once, on that
    same URL, and what it returns is stored for the URL in place of the
    fetched body (cut to 12000 characters); when the body fails either test
    it is stored as it is, without a render.  Over a whole discovery, every
    render follows at once the fetch of its URL, one render at most for a
    fetch. *)
Theorem js_stub_rendered_once (E : Env) :
  (forall base html_text visible_text w,
     log_blocks (calls (sniff_related_urls base html_text visible_text) w)) /\
  (forall final discovered st body w1,
     requests_get final (world st) = (Ok body, w1) ->
     let st1 := {| world := w1; trace := trace st ++ [EvFetch final] |} in
     (contains (lit "<script") body = true /\ List.length body < 600 ->
      trace (snd (fetch_resource final discovered st))
      = trace st ++ [EvFetch final; EvRender final] /\
      forall text st2,
        render_dynamic_page final st1 = (Ok text, st2) ->
        fetch_resource final discovered st
        = (Ok (dict_set final (prefix max_body text) discovered), st2) /\
        dict_get final (dict_set final (prefix max_body text) discovered)
        = Some (prefix max_body text)) /\
     (contains (lit "<script") body = false \/ 600 <= List.length body ->
      fetch_resource final discovered st
      = (Ok (dict_set final (prefix max_body body) discovered), st1) /\
      dict_get final (dict_set final (prefix max_body body) discovered)
      = Some (prefix max_body body))).
Proof.
  split.
  { intros base html_text visible_text w.
    destruct (sniff_related_urls_run base html_text visible_text w) as [-> _].
    pose proof (sniff_links_invariant base (raw_urls_of (html_text ++ visible_text)) w) as H.
    destruct (sniff_links _ _ _) as [[acc|e] st]; simpl.
    - destruct H as (_ & _ & _ & _ & _ & _ & Hb). exact Hb.
    - destruct H as (_ & _ & Hb). exact Hb. }
  intros final discovered st body w1 Hget st1. split.
  - intros [Hs Hl].
    assert (Hstub : is_js_stub body = true).
    { unfold is_js_stub. rewrite Hs. apply Nat.ltb_lt in Hl. rewrite Hl. reflexivity. }
    unfold fetch_resource. run_m.
    rewrite Hget. simpl. rewrite Hstub. fold st1.
    pose proof (render_trace final st1) as Ht.
    destruct (render_dynamic_page final st1) as [[text|e] st2]; simpl in *.
    + split; [rewrite Ht, <- app_assoc; reflexivity|].
      intros text' st2' Heq. injection Heq as <- <-.
      split; [reflexivity | apply dict_get_set].
    + destruct (is_exception e); simpl;
        (split; [rewrite Ht, <- app_assoc; reflexivity|]);
        intros text' st2' Heq; discriminate Heq.
  - intros Hno.
    assert (Hstub : is_js_stub body = false).
    { unfold is_js_stub. destruct Hno as [Hs|Hl].
      - rewrite Hs. reflexivity.
      - apply Nat.ltb_ge in Hl. rewrite Hl. apply andb_false_r. }
    unfold fetch_resource. run_m.
    rewrite Hget. simpl. rewrite Hstub.
    split; [reflexivity | apply dict_get_set].
Qed.

Lemma js_stub_rendered_once_witness :
  trace (snd (fetch_resource (E := Demo.site) Demo.stub_url [] (@Build_State Demo.site tt [])))
  = [] ++ [EvFetch Demo.stub_url; EvRender Demo.stub_url] /\
  fetch_resource (E := Demo.site) Demo.stub_url [] (@Build_State Demo.site tt [])
  = (Ok (dict_set Demo.stub_url (prefix max_body (lit "7,8")) []),
     @Build_State Demo.site tt [EvFetch Demo.stub_url; EvRender Demo.stub_url]).
Proof.
  destruct (proj2 (js_stub_rendered_once Demo.site) Demo.stub_url []
              (@Build_State Demo.site tt []) Demo.stub_body tt eq_refl) as [Hstub _].
  destruct Hstub as [Htrace Hstore].
  - split; [reflexivity | vm_compute; lia].
  - split; [exact Htrace|].
    apply (Hstore (lit "7,8")
             (@Build_State Demo.site tt [EvFetch Demo.stub_url; EvRender Demo.stub_url])).
    reflexivity.
Defined.

Lemma startswith_http (link : str) :
  startswith (lit "http") link = true ->
  skipped link = false /\ startswith (lit "/") link = false.
Proof.
  destruct link as [|c link]; [discriminate|].
  change (startswith (lit "http") (c :: link))
    with (Ascii.eqb "h" c && startswith (lit "ttp") link).
  intros H. apply andb_prop in H. destruct H as [Hc _].
  apply Ascii.eqb_eq in Hc. subst c. split; reflexivity.
Qed.

(** C10: a raw link that begins with "http" is the resolved URL as it
    stands, with or without a URL scheme ("httpdocs/page" too), and discovery
    fetches that very string (the turn of the loop then goes on with the link
    among those seen, unless the fetch is ended by an exception that is no
    [Exception]); a link that begins with "/" is put after the scheme and
    host of the base; [urljoin] resolves a link against the base only when
    the link begins with neither. *)
Theorem http_prefix_resolves_unchanged (E : Env) (base : str) :
  (forall link, startswith (lit "http") link = true -> resolve base link = Ok link) /\
  resolve base (lit "httpdocs/page") = Ok (lit "httpdocs/page") /\
  (forall link,
     startswith (lit "/") link = true ->
     resolve base link =
     match urlparse base with
     | Ok (scheme, netloc) => Ok (scheme ++ lit "://" ++ netloc ++ link)
     | Raise e => Raise e
     end) /\
  (forall link,
     startswith (lit "/") link = false -> startswith (lit "http") link = false ->
     resolve base link = urljoin base link) /\
  (forall link discovered unique st,
     startswith (lit "http") link = true ->
     mem link unique = false -> is_submit link = false ->
     exists r st' evs,
       visit_link base (discovered, unique) link st = (r, st') /\
       trace st' = trace st ++ EvFetch link :: evs /\
       match r with
       | Ok acc => snd acc = link :: unique
       | Raise e => is_exception e = false
       end).
Proof.
  assert (Hhttp : forall link,
            startswith (lit "http") link = true -> resolve base link = Ok link).
  { intros link H. destruct (startswith_http link H) as [_ Hs].
    unfold resolve. rewrite Hs, H. reflexivity. }
  split; [exact Hhttp|]. split; [reflexivity|]. split; [|split].
  - intros link H. unfold resolve. rewrite H. reflexivity.
  - intros link Hs Hh. unfold resolve. rewrite Hs, Hh. reflexivity.
  - intros link d u st Hh Hm Hsub.
    destruct (startswith_http link Hh) as [Hsk _].
    unfold visit_link. rewrite Hsk, Hm. unfold bind, pure_call, ret.
    rewrite (Hhttp link Hh), Hsub.
    destruct (fetch_resource_cases link d st) as (r & st' & evs & Hf & Ht & _ & Hd).
    rewrite Hf. destruct r as [d'|e].
    + exists (Ok (d', link :: u)), st', evs. split; [reflexivity|]. split; [exact Ht | reflexivity].
    + exists (Raise e), st', evs. split; [reflexivity|]. split; [exact Ht | exact Hd].
Qed.

Lemma http_prefix_resolves_unchanged_witness :
  resolve (E := Demo.site) Demo.base_url (lit "httpdocs/page") = Ok (lit "httpdocs/page") /\
  resolve (E := Demo.site) Demo.base_url (lit "/data.csv") = Ok (lit "http://quiz.test/data.csv") /\
  resolve (E := Demo.site) Demo.base_url (lit "app.js") = Ok (lit "http://quiz.test/q/app.js").
Proof.
  pose proof (http_prefix_resolves_unchanged Demo.site Demo.base_url)
    as (Hhttp & _ & Hslash & Hrel & _).
  split; [|split].
  - apply Hhttp. reflexivity.
  - rewrite Hslash; reflexivity.
  - rewrite Hrel; reflexivity.
Defined.

(** ** Regular expressions *)

Lemma span_app (p : ascii -> bool) (s : str) :
  s = fst (span p s) ++ snd (span p s).
Proof.
  induction s as [|c s IH]; [reflexivity|]. simpl.
  destruct (p c); [|reflexivity]. destruct (span p s) as [a b]. simpl in *. congruence.
Qed.

Lemma span_forallb (p : ascii -> bool) (s : str) : forallb p (fst (span p s)) = true.
Proof.
  induction s as [|c s IH]; [reflexivity|]. simpl.
  destruct (p c) eqn:Hc; [|reflexivity]. destruct (span p s) as [a b]. simpl in *.
  rewrite Hc. exact IH.
Qed.

Lemma span_rest (p : ascii -> bool) (s : str) :
  match snd (span p s) with
  | [] => True
  | x :: _ => p x = false
  end.
Proof.
  induction s as [|c s IH]; [exact I|]. simpl.
  destruct (p c) eqn:Hc; [|exact Hc]. destruct (span p s) as [a b]. exact IH.
Qed.

(** [span] cuts a run followed by a character outside the class where the run
    ends. *)
Lemma span_run (p : ascii -> bool) (run rest : str) :
  forallb p run = true ->
  match rest with [] => True | x :: _ => p x = false end ->
  span p (run ++ rest) = (run, rest).
Proof.
  intros Hrun Hrest. induction run as [|c run IH]; simpl.
  - destruct rest as [|x rest]; [reflexivity|]. simpl. rewrite Hrest. reflexivity.
  - simpl in Hrun. apply andb_prop in Hrun. destruct Hrun as [Hc Hrun].
    rewrite Hc, (IH Hrun). reflexivity.
Qed.

Lemma startswith_app (l s : str) : startswith l (l ++ s) = true.
Proof.
  induction l as [|x l IH]; [reflexivity|]. simpl. rewrite Ascii.eqb_refl. exact IH.
Qed.

Lemma startswith_skipn (l s : str) :
  startswith l s = true -> s = l ++ skipn (List.length l) s.
Proof.
  revert s. induction l as [|x l IH]; intros s H; [reflexivity|].
  destruct s as [|c s]; [discriminate|]. simpl in H.
  apply andb_prop in H. destruct H as [Hx Hl].
  apply Ascii.eqb_eq in Hx. subst c. simpl. f_equal. apply IH. exact Hl.
Qed.

(** A group that ends the pattern takes the longest run of its class. *)
Lemma group_loop_final (p : ascii -> bool) (acc s : str) :
  group_loop p (fun g _ _ => Some (Some g, 0)) acc s =
  match fst (span p s) with
  | [] => None
  | run => Some (Some (acc ++ run), List.length run)
  end.
Proof.
  revert acc. induction s as [|c s IH]; intros acc; [reflexivity|]. simpl.
  destruct (p c); [|reflexivity]. rewrite IH.
  destruct (span p s) as [run rest]. simpl.
  destruct run as [|x run]; simpl.
  - reflexivity.
  - rewrite <- app_assoc. reflexivity.
Qed.

(** [class+] before such a group, when no character is in both classes: the
    longest run of the first class, then the longest run of the second. *)
Lemma plus_group_loops (p q : ascii -> bool) (s : str) :
  (forall c, p c = true -> q c = false) ->
  plus_loop p (fun _ s' => group_loop q (fun g _ _ => Some (Some g, 0)) [] s') s =
  match fst (span p s) with
  | [] => None
  | seps =>
      match fst (span q (snd (span p s))) with
      | [] => None
      | ds => Some (Some ds, List.length seps + List.length ds)
      end
  end.
Proof.
  intros Hpq. induction s as [|c s IH]; [reflexivity|]. simpl.
  destruct (p c) eqn:Hc; [|reflexivity]. rewrite IH.
  destruct (span p s) as [seps rest] eqn:Hs. simpl.
  destruct seps as [|x seps].
  - assert (Hrest : rest = s).
    { pose proof (span_app p s) as H. rewrite Hs in H. simpl in H. congruence. }
    subst rest. rewrite group_loop_final.
    destruct (fst (span q s)); reflexivity.
  - destruct (fst (span q rest)) as [|d ds]; [|reflexivity].
    assert (Hx : p x = true).
    { pose proof (span_forallb p s) as H. rewrite Hs in H. simpl in H.
      apply andb_prop in H. tauto. }
    assert (Hsx : exists s', s = x :: s').
    { pose proof (span_app p s) as H. rewrite Hs in H. simpl in H. eauto. }
    destruct Hsx as (s' & ->). simpl. rewrite (Hpq x Hx). reflexivity.
Qed.

Lemma match_here_word (l : str) (ns : pattern) (prev : option ascii) (s : str)
    (grp : option str) :
  match_here (map chr l ++ ns) prev s grp =
  if startswith l s
  then Nat.iter (List.length l) advance
         (match_here ns (prev_after l prev) (skipn (List.length l) s) grp)
  else None.
Proof.
  revert prev s. induction l as [|x l IH]; intros prev s; [reflexivity|].
  destruct s as [|c s]; [reflexivity|].
  cbn [map app match_here chr startswith]. destruct (Ascii.eqb x c) eqn:Hx; [|reflexivity].
  rewrite IH. apply Ascii.eqb_eq in Hx. subst c.
  cbn [andb List.length skipn prev_after fold_left].
  destruct (startswith l s); [|reflexivity].
  rewrite Nat.iter_succ. reflexivity.
Qed.

Lemma colon_blank_not_decimal (c : ascii) :
  is_colon_or_blank c = true -> is_decimal c = false.
Proof.
  unfold is_colon_or_blank. intros H. apply orb_prop in H.
  destruct H as [H|H]; apply Ascii.eqb_eq in H; subst c; reflexivity.
Qed.

(** The pattern of the cutoff, matched at the start of a text. *)
Lemma match_here_cutoff (prev : option ascii) (s : str) :
  match_here cutoff_pattern prev s None =
  match cutoff_here s with
  | Some (ds, n) => Some (Some ds, n)
  | None => None
  end.
Proof.
  destruct s as [|c s1]; [reflexivity|].
  unfold cutoff_pattern, cutoff_here. cbn [match_here].
  destruct (is_C c); [|reflexivity]. unfold word. rewrite match_here_word.
  cbn [andb]. destruct (startswith (lit "utoff") s1); [|reflexivity].
  change (List.length (lit "utoff")) with 5.
  cbn [match_here]. rewrite (plus_group_loops _ _ _ colon_blank_not_decimal).
  destruct (span is_colon_or_blank (skipn 5 s1)) as [seps rest]. cbn [fst snd].
  destruct seps as [|x seps]; [reflexivity|].
  destruct (span is_decimal rest) as [ds rest']. cbn [fst].
  destruct ds as [|d ds]; reflexivity.
Qed.

(** ** The cutoff *)

Lemma decimal_char (c : ascii) :
  is_decimal c = true ->
  N.ltb (code c) 127 = true /\ Ascii.eqb c "_" = false /\ is_c_space c = false /\
  Ascii.eqb c "-" = false /\ Ascii.eqb c "+" = false /\ is_colon_or_blank c = false.
Proof.
  destruct c as [[] [] [] [] [] [] [] []]; intros H;
    solve [discriminate H | repeat split; reflexivity].
Qed.

Lemma to_ascii_numeral_digits (ds : str) :
  forallb is_decimal ds = true -> to_ascii_numeral ds = ds.
Proof.
  induction ds as [|c ds IH]; [reflexivity|]. simpl. intros H.
  apply andb_prop in H. destruct H as [Hc Hds].
  destruct (decimal_char c Hc) as (-> & _). rewrite (IH Hds). reflexivity.
Qed.

Lemma drop_underscores_digits (prev : ascii) (ds : str) :
  Ascii.eqb prev "_" = false -> forallb is_decimal ds = true ->
  drop_underscores prev ds = Some ds.
Proof.
  revert prev. induction ds as [|c ds IH]; intros prev Hp H; simpl.
  - rewrite Hp. reflexivity.
  - simpl in H. apply andb_prop in H. destruct H as [Hc Hds].
    destruct (decimal_char c Hc) as (_ & Hu & _).
    rewrite Hu, Hp. simpl. rewrite (IH c Hu Hds). reflexivity.
Qed.

Lemma c_lstrip_digits (ds : str) :
  forallb is_decimal ds = true -> c_lstrip ds = ds.
Proof.
  destruct ds as [|c ds]; [reflexivity|]. simpl. intros H.
  apply andb_prop in H. destruct H as [Hc _].
  destruct (decimal_char c Hc) as (_ & _ & -> & _). reflexivity.
Qed.

Lemma forallb_rev (p : ascii -> bool) (s : str) :
  forallb p s = true -> forallb p (rev s) = true.
Proof.
  rewrite !forallb_forall. intros H x Hx. apply H. apply in_rev. exact Hx.
Qed.

(** [int] on a numeral made of digits alone, within the limit on digits. *)
Lemma int_of_str_digits (ds : str) :
  ds <> [] -> forallb is_decimal ds = true ->
  List.length ds <= int_max_str_digits ->
  int_of_str ds = Ok (digits_value ds).
Proof.
  intros Hne Hds Hlen. unfold int_of_str.
  rewrite (to_ascii_numeral_digits ds Hds).
  rewrite (drop_underscores_digits zero ds eq_refl Hds).
  unfold c_strip. rewrite (c_lstrip_digits ds Hds).
  rewrite (c_lstrip_digits (rev ds) (forallb_rev _ _ Hds)), rev_involutive.
  destruct ds as [|c ds]; [contradiction|].
  assert (Hc : is_decimal c = true) by (simpl in Hds; apply andb_prop in Hds; tauto).
  destruct (decimal_char c Hc) as (_ & _ & _ & Hm & Hp & _).
  unfold parse_sign. rewrite Hm, Hp, Hds. cbn [negb].
  apply Nat.ltb_ge in Hlen. rewrite Hlen. reflexivity.
Qed.

Lemma cutoff_here_phrase (s ds : str) (n : nat) :
  cutoff_here s = Some (ds, n) -> cutoff_phrase s [] ds.
Proof.
  unfold cutoff_here. destruct s as [|c s1]; [discriminate|].
  destruct (is_C c) eqn:Hc; [|discriminate]. cbn [andb].
  destruct (startswith (lit "utoff") s1) eqn:Hw; [|discriminate].
  apply startswith_skipn in Hw. change (List.length (lit "utoff")) with 5 in Hw.
  pose proof (span_app is_colon_or_blank (skipn 5 s1)) as Hs1.
  pose proof (span_forallb is_colon_or_blank (skipn 5 s1)) as Hs2.
  destruct (span is_colon_or_blank (skipn 5 s1)) as [seps rest]. cbn [fst snd] in *.
  destruct seps as [|x seps]; [discriminate|].
  pose proof (span_app is_decimal rest) as Hd1.
  pose proof (span_forallb is_decimal rest) as Hd2.
  pose proof (span_rest is_decimal rest) as Hd3.
  destruct (span is_decimal rest) as [ds' rest']. cbn [fst snd] in *.
  destruct ds' as [|d ds']; [discriminate|].
  intros H. injection H as <- _.
  exists c, (x :: seps), rest'. repeat split; try assumption; try discriminate.
  rewrite Hw at 1. rewrite Hs1, Hd1. reflexivity.
Qed.

Lemma phrase_cutoff_here (s ds : str) :
  cutoff_phrase s [] ds -> exists n, cutoff_here s = Some (ds, n).
Proof.
  intros (c & seps & rest & -> & Hc & Hseps & Hsall & Hds & Hdall & Hrest).
  cbn [app cutoff_here]. rewrite Hc, startswith_app. cbn [andb].
  change (skipn 5 (lit "utoff" ++ seps ++ ds ++ rest)) with (seps ++ ds ++ rest).
  destruct ds as [|d ds]; [contradiction|].
  assert (Hd : is_decimal d = true) by (simpl in Hdall; apply andb_prop in Hdall; tauto).
  rewrite (span_run is_colon_or_blank seps ((d :: ds) ++ rest) Hsall).
  2:{ simpl. destruct (decimal_char d Hd) as (_ & _ & _ & _ & _ & H). exact H. }
  destruct seps as [|x seps]; [contradiction|].
  rewrite (span_run is_decimal (d :: ds) rest Hdall Hrest).
  eexists. reflexivity.
Qed.

Lemma cutoff_phrase_cons (x : ascii) (text pre ds : str) :
  cutoff_phrase text pre ds <-> cutoff_phrase (x :: text) (x :: pre) ds.
Proof.
  split; intros (c & seps & rest & Ht & H); exists c, seps, rest; (split; [|exact H]).
  - rewrite Ht. reflexivity.
  - cbn [app] in Ht. injection Ht as Ht. exact Ht.
Qed.

(** The search stops at the leftmost phrase. *)
Lemma search_cutoff_leftmost (pre : str) :
  forall prev text ds,
    cutoff_phrase text pre ds ->
    (forall pre' ds', cutoff_phrase text pre' ds' -> List.length pre <= List.length pre') ->
    search_from cutoff_pattern prev text = Some ds.
Proof.
  induction pre as [|x pre IH]; intros prev text ds Hph Hmin.
  - destruct (phrase_cutoff_here text ds Hph) as (n & Hn).
    destruct text; cbn [search_from]; rewrite match_here_cutoff, Hn; reflexivity.
  - assert (Htext : exists text', text = x :: text').
    { destruct Hph as (c & seps & rest & -> & _). eexists. reflexivity. }
    destruct Htext as (text' & ->). cbn [search_from].
    rewrite match_here_cutoff.
    destruct (cutoff_here (x :: text')) as [[ds0 n0]|] eqn:Hh.
    + apply cutoff_here_phrase in Hh. apply Hmin in Hh. simpl in Hh. lia.
    + apply IH.
      * apply (cutoff_phrase_cons x). exact Hph.
      * intros pre' ds' H'. apply (cutoff_phrase_cons x) in H'.
        apply Hmin in H'. simpl in H'. lia.
Qed.

(** Without a phrase the search finds nothing. *)
Lemma search_cutoff_none (text : str) :
  forall prev,
    (forall pre ds, ~ cutoff_phrase text pre ds) ->
    search_from cutoff_pattern prev text = None.
Proof.
  induction text as [|x text IH]; intros prev Hno.
  - reflexivity.
  - cbn [search_from]. rewrite match_here_cutoff.
    destruct (cutoff_here (x :: text)) as [[ds0 n0]|] eqn:Hh.
    + apply cutoff_here_phrase in Hh. exfalso. exact (Hno [] ds0 Hh).
    + apply IH. intros pre ds H. apply (Hno (x :: pre) ds).
      apply cutoff_phrase_cons. exact H.
Qed.

(** C4, amended: the cutoff is found by one search for "Cutoff" or "cutoff"
    (the first letter in either case, the others in lower case), then colons
    or blanks, then digits.  The leftmost such phrase of the page text gives
    the cutoff, the integer its digits spell (a numeral within the limit of
    [int] on digits): "Cutoff: 42" and "cutoff: 42" give 42.  A text without
    such a phrase leaves the cutoff unset. *)
Theorem cutoff_from_leftmost_phrase :
  (forall text pre ds,
     cutoff_phrase text pre ds ->
     (forall pre' ds', cutoff_phrase text pre' ds' -> List.length pre <= List.length pre') ->
     List.length ds <= int_max_str_digits ->
     handle_quiz_cutoff text = Ok (Some (digits_value ds))) /\
  (forall text,
     (forall pre ds, ~ cutoff_phrase text pre ds) ->
     handle_quiz_cutoff text = Ok None) /\
  handle_quiz_cutoff (lit "Cutoff: 42") = Ok (Some 42%Z) /\
  handle_quiz_cutoff (lit "cutoff: 42") = Ok (Some 42%Z) /\
  handle_quiz_cutoff (lit "Sum the values. Cutoff: 42 applies, not Cutoff: 7") = Ok (Some 42%Z).
Proof.
  split; [|split; [|repeat split; vm_compute; reflexivity]].
  - intros text pre ds Hph Hmin Hlen. unfold handle_quiz_cutoff, search.
    rewrite (search_cutoff_leftmost pre None text ds Hph Hmin).
    destruct Hph as (c & seps & rest & _ & _ & _ & _ & Hds & Hdall & _).
    rewrite (int_of_str_digits ds Hds Hdall Hlen). reflexivity.
  - intros text Hno. unfold handle_quiz_cutoff, search.
    rewrite (search_cutoff_none text None Hno). reflexivity.
Qed.

(** C4 as stated fails: the search is not blind to letter case. *)
Lemma cutoff_upper_case_unset :
  handle_quiz_cutoff (lit "CUTOFF: 42") = Ok None /\
  handle_quiz_cutoff (lit "CutOff: 42") = Ok None.
Proof. split; vm_compute; reflexivity. Qed.

Lemma cutoff_from_leftmost_phrase_witness :
  handle_quiz_cutoff (lit "Cutoff: 42") = Ok (Some (digits_value (lit "42"))) /\
  handle_quiz_cutoff (lit "n/a") = Ok None.
Proof.
  pose proof cutoff_from_leftmost_phrase as (Hsome & Hnone & _).
  split.
  - apply (Hsome (lit "Cutoff: 42") [] (lit "42")).
    + exists "C"%char, (lit ": "), []. repeat split; try reflexivity; discriminate.
    + intros pre' ds' _. simpl. lia.
    + vm_compute. lia.
  - apply Hnone. intros pre ds (c & seps & rest & Ht & _).
    apply (f_equal (@List.length ascii)) in Ht.
    rewrite length_app in Ht. simpl in Ht. lia.
Defined.

(** ** The aggregator and its reference *)

(** *** Characters *)

Lemma digit_facts (c : ascii) :
  is_decimal c = true ->
  N.ltb (code c) 127 = true /\ Ascii.eqb c "_" = false /\
  is_c_space c = false /\ is_space c = false /\
  Ascii.eqb c "-" = false /\ Ascii.eqb c "+" = false /\ Ascii.eqb c "." = false /\
  Ascii.eqb c "e" = false /\ Ascii.eqb c "E" = false /\ Ascii.eqb c "?" = false.
Proof.
  destruct c as [[] [] [] [] [] [] [] []]; intros H; try discriminate H;
    repeat split; reflexivity.
Qed.

Lemma letter_facts (c : ascii) :
  between 97 122 (lower_char c) = true ->
  N.ltb (code c) 127 = true /\ Ascii.eqb c "_" = false /\
  is_c_space c = false /\ is_space c = false /\
  Ascii.eqb c "-" = false /\ Ascii.eqb c "+" = false /\ Ascii.eqb c "." = false /\
  is_decimal c = false /\ Ascii.eqb c "?" = false.
Proof.
  destruct c as [[] [] [] [] [] [] [] []]; intros H; try discriminate H;
    repeat split; reflexivity.
Qed.

(** *** Underscores *)

Lemma option_map_app_nil (o : option str) : option_map (app []) o = o.
Proof. destruct o; reflexivity. Qed.

Lemma option_map_cons_app (x : ascii) (l : str) (o : option str) :
  option_map (cons x) (option_map (app l) o) = option_map (app (x :: l)) o.
Proof. destruct o; reflexivity. Qed.

Lemma option_map_app_app (a b : str) (o : option str) :
  option_map (app a) (option_map (app b) o) = option_map (app (a ++ b)) o.
Proof. destruct o; simpl; [rewrite app_assoc|]; reflexivity. Qed.

Lemma underscore_not_digit (y : ascii) : Ascii.eqb y "_" = true -> is_decimal y = false.
Proof. intros H. apply Ascii.eqb_eq in H. subst y. reflexivity. Qed.

Lemma digit_not_underscore (d : ascii) : is_decimal d = true -> Ascii.eqb d "_" = false.
Proof. intros H. apply (digit_facts d H). Qed.

Lemma drop_nil_inv (prev : ascii) (c : str) :
  drop_underscores prev c = Some [] -> c = [].
Proof.
  revert prev. induction c as [|x c IH]; intros prev; [reflexivity|].
  cbn [drop_underscores]. destruct (Ascii.eqb x "_") eqn:Hx.
  - destruct (is_decimal prev); [|discriminate]. intros H.
    pose proof (IH _ H) as Hc. subst c. cbn [drop_underscores] in H.
    rewrite Hx in H. discriminate.
  - destruct (Ascii.eqb prev "_" && negb (is_decimal x)); [discriminate|].
    destruct (drop_underscores x c); discriminate.
Qed.

Lemma drop_cons_inv (prev x : ascii) (c t : str) :
  drop_underscores prev c = Some (x :: t) ->
  (exists c', c = x :: c' /\ Ascii.eqb x "_" = false /\ drop_underscores x c' = Some t) \/
  (exists c', c = "_"%char :: x :: c' /\ is_decimal prev = true /\ is_decimal x = true /\
              drop_underscores x c' = Some t).
Proof.
  destruct c as [|y c]; cbn [drop_underscores].
  - destruct (Ascii.eqb prev "_"); discriminate.
  - destruct (Ascii.eqb y "_") eqn:Hy.
    + destruct (is_decimal prev) eqn:Hp; [|discriminate].
      destruct c as [|z c]; cbn [drop_underscores]; rewrite Hy; [discriminate|].
      rewrite (underscore_not_digit y Hy).
      destruct (Ascii.eqb z "_") eqn:Hz; [discriminate|].
      cbn [andb]. destruct (is_decimal z) eqn:Hd; cbn [negb]; [|discriminate].
      destruct (drop_underscores z c) as [t'|] eqn:Ht; [|discriminate].
      cbn [option_map]. intros H. injection H as <- <-. right. exists c.
      apply Ascii.eqb_eq in Hy. subst y. auto.
    + destruct (Ascii.eqb prev "_" && negb (is_decimal y)); [discriminate|].
      destruct (drop_underscores y c) as [t'|] eqn:Ht; [|discriminate].
      cbn [option_map]. intros H. injection H as <- <-. left. exists c. auto.
Qed.

(** A character that is no digit stands in the text as it stands in what is
    left of it. *)
Lemma drop_other_inv (prev x : ascii) (c t : str) :
  is_decimal x = false ->
  drop_underscores prev c = Some (x :: t) ->
  exists c', c = x :: c' /\ drop_underscores x c' = Some t.
Proof.
  intros Hx H. destruct (drop_cons_inv _ _ _ _ H) as [(c' & -> & _ & H1) | (c' & _ & _ & Hd & _)].
  - exists c'. auto.
  - congruence.
Qed.

Lemma drop_digits_inv (ds : str) : forall (c : str) (prev : ascii) (t : str),
  forallb is_decimal ds = true -> is_decimal prev = true ->
  drop_underscores prev c = Some (ds ++ t) ->
  exists u c' p,
    c = u ++ c' /\ more_digits u ds /\ drop_underscores p c' = Some t.
Proof.
  induction ds as [|d ds IH]; intros c prev t Hds Hp H.
  - exists [], c, prev. simpl. repeat split; [constructor | assumption].
  - simpl in Hds. apply andb_prop in Hds. destruct Hds as [Hd Hds].
    simpl app in H.
    destruct (drop_cons_inv _ _ _ _ H) as [(c1 & -> & _ & H1) | (c1 & -> & _ & _ & H1)];
      destruct (IH c1 d t Hds Hd H1) as (u & c' & p & -> & Hu & Hc');
      [exists (d :: u), c', p | exists ("_"%char :: d :: u), c', p];
      (split; [reflexivity|]); (split; [constructor; assumption | assumption]).
Qed.

Lemma drop_digitpart_inv (ds c : str) (prev : ascii) (t : str) :
  forallb is_decimal ds = true -> is_decimal prev = false ->
  drop_underscores prev c = Some (ds ++ t) ->
  exists u c' p,
    c = u ++ c' /\ optional_digitpart u ds /\ drop_underscores p c' = Some t.
Proof.
  intros Hds Hp H. destruct ds as [|d ds].
  - exists [], c, prev. simpl. repeat split; [constructor | assumption].
  - simpl in Hds. apply andb_prop in Hds. destruct Hds as [Hd Hds]. simpl app in H.
    destruct (drop_cons_inv _ _ _ _ H) as [(c1 & -> & _ & H1) | (c1 & _ & Hp' & _)];
      [|congruence].
    destruct (drop_digits_inv ds c1 d t Hds Hd H1) as (u & c' & p & -> & Hu & Hc').
    exists (d :: u), c', p. split; [reflexivity|].
    split; [constructor; constructor; assumption | assumption].
Qed.

(** The other way: what [drop_underscores] makes of a text that begins with
    a given piece. *)
Lemma drop_char (x prev : ascii) (rest : str) :
  Ascii.eqb x "_" = false -> Ascii.eqb prev "_" = false ->
  drop_underscores prev (x :: rest) = option_map (cons x) (drop_underscores x rest).
Proof. intros Hx Hp. cbn [drop_underscores]. rewrite Hx, Hp. reflexivity. Qed.

Lemma drop_end (p : ascii) : Ascii.eqb p "_" = false -> drop_underscores p [] = Some [].
Proof. intros H. cbn [drop_underscores]. rewrite H. reflexivity. Qed.

Lemma drop_more_digits (u ds : str) :
  more_digits u ds ->
  forall prev, is_decimal prev = true ->
  exists p, is_decimal p = true /\
    forall rest,
      drop_underscores prev (u ++ rest) = option_map (app ds) (drop_underscores p rest).
Proof.
  induction 1 as [|d u ds Hd _ IH|d u ds Hd _ IH]; intros prev Hp.
  - exists prev. split; [exact Hp|]. intros rest. rewrite option_map_app_nil. reflexivity.
  - destruct (IH d Hd) as (p & Hp' & Hrest). exists p. split; [exact Hp'|]. intros rest.
    simpl app. rewrite drop_char by (apply digit_not_underscore; assumption).
    rewrite Hrest, option_map_cons_app. reflexivity.
  - destruct (IH d Hd) as (p & Hp' & Hrest). exists p. split; [exact Hp'|]. intros rest.
    simpl app. cbn [drop_underscores].
    change (Ascii.eqb "_" "_") with true. cbv iota. rewrite Hp.
    rewrite (digit_not_underscore d Hd), Hd. cbn [negb andb].
    rewrite Hrest, option_map_cons_app. reflexivity.
Qed.

Lemma drop_optional_digitpart (u ds : str) :
  optional_digitpart u ds ->
  forall prev, Ascii.eqb prev "_" = false ->
  exists p, Ascii.eqb p "_" = false /\
    forall rest,
      drop_underscores prev (u ++ rest) = option_map (app ds) (drop_underscores p rest).
Proof.
  intros [|u' ds' [d u0 ds0 Hd Hmore]] prev Hp.
  - exists prev. split; [exact Hp|]. intros rest. rewrite option_map_app_nil. reflexivity.
  - destruct (drop_more_digits _ _ Hmore d Hd) as (p & Hp' & Hrest).
    exists p. split; [apply digit_not_underscore; exact Hp'|]. intros rest.
    simpl app. rewrite drop_char by (assumption || (apply digit_not_underscore; assumption)).
    rewrite Hrest, option_map_cons_app. reflexivity.
Qed.

(** *** The value of a digit string *)

Lemma digits_value_from (ds : str) (acc : Z) :
  fold_left (fun a c => (10 * a + digit_value c)%Z) ds acc
  = (acc * 10 ^ Z.of_nat (List.length ds) + decimal_value ds)%Z.
Proof.
  revert acc. induction ds as [|d ds IH]; intros acc.
  - simpl. lia.
  - cbn [fold_left decimal_value List.length]. rewrite IH.
    rewrite Nat2Z.inj_succ, Z.pow_succ_r by lia. ring.
Qed.

Lemma digits_value_decimal (ds : str) : digits_value ds = decimal_value ds.
Proof. unfold digits_value. rewrite digits_value_from. lia. Qed.

(** *** Signs and runs of digits *)

Lemma span_spec (p : ascii -> bool) (s a b : str) :
  span p s = (a, b) ->
  s = a ++ b /\ forallb p a = true /\
  match b with [] => True | x :: _ => p x = false end.
Proof.
  revert a b. induction s as [|c s IH]; intros a b; cbn [span].
  - intros H. injection H as <- <-. repeat split.
  - destruct (p c) eqn:Hc.
    + destruct (span p s) as [a' b'] eqn:Hs. intros H. injection H as <- <-.
      destruct (IH a' b' eq_refl) as (-> & Ha & Hb).
      split; [reflexivity|]. split; [simpl; rewrite Hc; exact Ha | exact Hb].
    + intros H. injection H as <- <-. repeat split. exact Hc.
Qed.


Lemma parse_sign_spec (s s0 : str) (neg : bool) :
  parse_sign s = (neg, s0) -> exists sg, s = sg ++ s0 /\ sign sg neg.
Proof.
  destruct s as [|c s]; cbn [parse_sign].
  - intros H. injection H as <- <-. exists []. split; [reflexivity | constructor].
  - destruct (Ascii.eqb c "-") eqn:Hm.
    + apply Ascii.eqb_eq in Hm. subst c. intros H. injection H as <- <-.
      exists ["-"%char]. split; [reflexivity | constructor].
    + destruct (Ascii.eqb c "+") eqn:Hp.
      * apply Ascii.eqb_eq in Hp. subst c. intros H. injection H as <- <-.
        exists ["+"%char]. split; [reflexivity | constructor].
      * intros H. injection H as <- <-. exists []. split; [reflexivity | constructor].
Qed.


Lemma parse_sign_run (sg rest : str) (neg : bool) :
  sign sg neg -> no_sign_ahead rest -> parse_sign (sg ++ rest) = (neg, rest).
Proof.
  intros [| |] Hrest; [|reflexivity..].
  destruct rest as [|x rest]; [reflexivity|]. destruct Hrest as [Hm Hp].
  simpl. rewrite Hm, Hp. reflexivity.
Qed.

(** *** The decimal parser *)


Lemma parse_exponent_sound (s : str) (ex : Z) :
  parse_exponent s = (ex, []) -> plain_exponent s ex.
Proof.
  destruct s as [|c s]; cbn [parse_exponent].
  - intros H. injection H as <-. constructor.
  - destruct (Ascii.eqb c "e" || Ascii.eqb c "E") eqn:Hc; [|discriminate].
    destruct (parse_sign s) as [neg s1] eqn:Hs.
    destruct (span is_decimal s1) as [ds s2] eqn:Hd.
    destruct ds as [|d ds]; [discriminate|].
    intros H. injection H as <- ->.
    destruct (parse_sign_spec _ _ _ Hs) as (sg & -> & Hsg).
    destruct (span_spec _ _ _ _ Hd) as (-> & Hds & _).
    rewrite app_nil_r. constructor; try assumption; [|discriminate].
    apply orb_prop in Hc. destruct Hc as [Hc|Hc]; apply Ascii.eqb_eq in Hc; auto.
Qed.

Lemma digits_no_sign_ahead (ds rest : str) :
  ds <> [] -> forallb is_decimal ds = true -> no_sign_ahead (ds ++ rest).
Proof.
  destruct ds as [|d ds]; [congruence|]. intros _ H. simpl in H.
  apply andb_prop in H. destruct H as [Hd _]. simpl.
  split; apply (digit_facts d Hd).
Qed.

Lemma parse_exponent_complete (s : str) (ex : Z) :
  plain_exponent s ex -> parse_exponent s = (ex, []).
Proof.
  intros [|c sg neg ds Hc Hsg Hne Hds]; [reflexivity|].
  cbn [parse_exponent].
  assert (Hce : Ascii.eqb c "e" || Ascii.eqb c "E" = true)
    by (destruct Hc as [-> | ->]; reflexivity).
  rewrite Hce. rewrite <- (app_nil_r ds) at 1.
  rewrite (parse_sign_run sg _ neg Hsg (digits_no_sign_ahead ds [] Hne Hds)).
  rewrite (span_run is_decimal ds [] Hds I).
  destruct ds as [|d ds]; [congruence | reflexivity].
Qed.

Lemma parse_decimal_sound (t : str) (x : float) :
  parse_decimal t = Some x ->
  exists sg neg ip pt fp e ex,
    t = sg ++ ip ++ pt ++ fp ++ e /\ sign sg neg /\
    forallb is_decimal ip = true /\ forallb is_decimal fp = true /\
    (pt = [] /\ fp = [] \/ pt = ["."%char]) /\ ip ++ fp <> [] /\
    plain_exponent e ex /\
    x = decimal_to_float neg (digits_value (ip ++ fp)) (ex - Z.of_nat (List.length fp)).
Proof.
  unfold parse_decimal.
  destruct (parse_sign t) as [neg s0] eqn:Hs.
  destruct (span is_decimal s0) as [ip s1] eqn:Hip.
  destruct (parse_sign_spec _ _ _ Hs) as (sg & -> & Hsg).
  destruct (span_spec _ _ _ _ Hip) as (-> & Hipd & Hnext).
  assert (Hgen : forall pt fp s2,
            forallb is_decimal fp = true -> (pt = [] /\ fp = [] \/ pt = ["."%char]) ->
            s1 = pt ++ fp ++ s2 ->
            match ip ++ fp with
            | [] => None
            | a :: l =>
                let (ex, s3) := parse_exponent s2 in
                match s3 with
                | [] => Some (decimal_to_float neg (digits_value (a :: l))
                                (ex - Z.of_nat (List.length fp)))
                | _ :: _ => None
                end
            end = Some x ->
            exists sg' neg' ip' pt' fp' e ex,
              sg ++ ip ++ s1 = sg' ++ ip' ++ pt' ++ fp' ++ e /\ sign sg' neg' /\
              forallb is_decimal ip' = true /\ forallb is_decimal fp' = true /\
              (pt' = [] /\ fp' = [] \/ pt' = ["."%char]) /\ ip' ++ fp' <> [] /\
              plain_exponent e ex /\
              x = decimal_to_float neg' (digits_value (ip' ++ fp'))
                    (ex - Z.of_nat (List.length fp'))).
  { intros pt fp s2 Hfp Hpt Hs1.
    destruct (ip ++ fp) as [|a l] eqn:Hds; [discriminate|].
    destruct (parse_exponent s2) as [ex s3] eqn:He.
    destruct s3 as [|y s3]; [|discriminate].
    intros H. injection H as <-.
    exists sg, neg, ip, pt, fp, s2, ex. rewrite Hs1, Hds.
    repeat split; try assumption; [discriminate|].
    apply parse_exponent_sound. exact He. }
  destruct s1 as [|c s1'].
  - apply (Hgen [] [] []); auto.
  - destruct (Ascii.eqb c ".") eqn:Hc.
    + apply Ascii.eqb_eq in Hc. subst c.
      destruct (span is_decimal s1') as [fp s2] eqn:Hfp.
      destruct (span_spec _ _ _ _ Hfp) as (-> & Hfpd & _).
      apply (Hgen ["."%char] fp s2); auto.
    + apply (Hgen [] [] (c :: s1')); auto.
Qed.

Lemma plain_exponent_head (e : str) (ex : Z) :
  plain_exponent e ex ->
  match e with
  | [] => True
  | x :: _ => is_decimal x = false /\ Ascii.eqb x "." = false
  end.
Proof. intros [|c sg neg ds [-> | ->] _ _ _]; [exact I | split; reflexivity..]. Qed.

Lemma parse_decimal_complete (sg : str) (neg : bool) (ip pt fp e : str) (ex : Z) :
  sign sg neg -> forallb is_decimal ip = true -> forallb is_decimal fp = true ->
  (pt = [] /\ fp = [] \/ pt = ["."%char]) -> ip ++ fp <> [] -> plain_exponent e ex ->
  parse_decimal (sg ++ ip ++ pt ++ fp ++ e)
  = Some (decimal_to_float neg (digits_value (ip ++ fp)) (ex - Z.of_nat (List.length fp))).
Proof.
  intros Hsg Hip Hfp Hpt Hne He.
  pose proof (plain_exponent_head e ex He) as Hhead.
  unfold parse_decimal.
  assert (Hahead : no_sign_ahead (ip ++ pt ++ fp ++ e)).
  { destruct ip as [|d ip].
    - destruct Hpt as [[-> ->] | ->]; [simpl in Hne; congruence | simpl; auto].
    - apply digits_no_sign_ahead; [discriminate | exact Hip]. }
  rewrite (parse_sign_run sg _ neg Hsg Hahead).
  assert (Hnext : match pt ++ fp ++ e with
                  | [] => True
                  | x :: _ => is_decimal x = false
                  end).
  { destruct Hpt as [[-> ->] | ->]; [|reflexivity].
    simpl. destruct e; [exact I | apply Hhead]. }
  rewrite (span_run is_decimal ip _ Hip Hnext).
  destruct Hpt as [[-> ->] | ->].
  - simpl app. rewrite app_nil_r in *.
    assert (Hfrac : (match e with
                     | [] => ([], e)
                     | c :: s1' => if Ascii.eqb c "." then span is_decimal s1' else ([], e)
                     end) = (@nil ascii, e)).
    { destruct e as [|c e']; [reflexivity|]. destruct Hhead as [_ ->]. reflexivity. }
    rewrite Hfrac. rewrite app_nil_r.
    destruct ip as [|a l]; [congruence|].
    rewrite (parse_exponent_complete e ex He). reflexivity.
  - simpl app. cbn [Ascii.eqb Bool.eqb]. cbv iota.
    assert (Hnext2 : match e with [] => True | x :: _ => is_decimal x = false end).
    { destruct e; [exact I | apply Hhead]. }
    rewrite (span_run is_decimal fp e Hfp Hnext2).
    destruct (ip ++ fp) as [|a l] eqn:Hds; [congruence|].
    rewrite (parse_exponent_complete e ex He). reflexivity.
Qed.

(** *** From the text without underscores back to the text *)

Lemma sign_not_digit (sg : str) (neg : bool) :
  sign sg neg -> forallb (fun a => negb (is_decimal a)) sg = true.
Proof. intros [| |]; reflexivity. Qed.

Lemma sign_inv_drop (prev : ascii) (c sg : str) (neg : bool) (t : str) :
  sign sg neg -> is_decimal prev = false ->
  drop_underscores prev c = Some (sg ++ t) ->
  exists c' p, c = sg ++ c' /\ is_decimal p = false /\ drop_underscores p c' = Some t.
Proof.
  intros [| |] Hp H.
  - exists c, prev. auto.
  - destruct (drop_other_inv prev "+" c t eq_refl H) as (c' & -> & H1).
    exists c', "+"%char. auto.
  - destruct (drop_other_inv prev "-" c t eq_refl H) as (c' & -> & H1).
    exists c', "-"%char. auto.
Qed.

Lemma optional_digitpart_some (u ds : str) :
  optional_digitpart u ds -> ds <> [] -> digitpart u ds.
Proof. intros [|u' ds' H] Hne; [congruence | exact H]. Qed.

Lemma exponent_inv_drop (prev : ascii) (c e : str) (ex : Z) :
  plain_exponent e ex -> drop_underscores prev c = Some e -> exponent c ex.
Proof.
  intros [|c0 sg neg ds Hc Hsg Hne Hds] H.
  - rewrite (drop_nil_inv _ _ H). constructor.
  - assert (Hc0 : is_decimal c0 = false) by (destruct Hc as [-> | ->]; reflexivity).
    destruct (drop_other_inv _ _ _ _ Hc0 H) as (c1 & -> & H1).
    destruct (sign_inv_drop _ _ _ _ _ Hsg Hc0 H1) as (c2 & p & -> & Hp & H2).
    rewrite <- (app_nil_r ds) in H2.
    destruct (drop_digitpart_inv _ _ _ _ Hds Hp H2) as (u & c3 & p' & -> & Hu & H3).
    rewrite (drop_nil_inv _ _ H3), app_nil_r, digits_value_decimal.
    constructor; [exact Hc | exact Hsg | apply optional_digitpart_some; assumption].
Qed.

Lemma decimal_inv_drop (c sg : str) (neg : bool) (ip pt fp e : str) (ex : Z) :
  sign sg neg -> forallb is_decimal ip = true -> forallb is_decimal fp = true ->
  (pt = [] /\ fp = [] \/ pt = ["."%char]) -> ip ++ fp <> [] -> plain_exponent e ex ->
  drop_underscores zero c = Some (sg ++ ip ++ pt ++ fp ++ e) ->
  decimal c neg (digits_value (ip ++ fp)) (ex - Z.of_nat (List.length fp)).
Proof.
  intros Hsg Hip Hfp Hpt Hne He H.
  destruct (sign_inv_drop zero _ _ _ _ Hsg eq_refl H) as (c1 & p & -> & Hp & H1).
  destruct (drop_digitpart_inv _ _ _ _ Hip Hp H1) as (u & c2 & p2 & -> & Hu & H2).
  rewrite digits_value_decimal.
  destruct Hpt as [[-> ->] | ->].
  - simpl app in H2.
    apply (decimal_intro sg neg u ip [] [] c2 ex); try assumption; [constructor|].
    exact (exponent_inv_drop _ _ _ _ He H2).
  - simpl app in H2.
    destruct (drop_other_inv p2 "." c2 (fp ++ e) eq_refl H2) as (c3 & -> & H3).
    destruct (drop_digitpart_inv fp c3 "." e Hfp eq_refl H3) as (v & c4 & p4 & -> & Hv & H4).
    apply (decimal_intro sg neg u ip ("."%char :: v) fp c4 ex); try assumption;
      [constructor; exact Hv|].
    exact (exponent_inv_drop _ _ _ _ He H4).
Qed.

(** *** From the text to the text without underscores *)

Lemma more_digits_digits (u ds : str) : more_digits u ds -> forallb is_decimal ds = true.
Proof. induction 1; simpl; [reflexivity | rewrite H; assumption..]. Qed.

Lemma optional_digitpart_digits (u ds : str) :
  optional_digitpart u ds -> forallb is_decimal ds = true.
Proof.
  intros [|u' ds' [d u0 ds0 Hd Hm]]; [reflexivity|].
  simpl. rewrite Hd. exact (more_digits_digits _ _ Hm).
Qed.

Lemma sign_drop (sg : str) (neg : bool) :
  sign sg neg ->
  forall prev, Ascii.eqb prev "_" = false ->
  exists p, Ascii.eqb p "_" = false /\
    forall rest,
      drop_underscores prev (sg ++ rest) = option_map (app sg) (drop_underscores p rest).
Proof.
  intros [| |] prev Hp.
  - exists prev. split; [exact Hp|]. intros rest. rewrite option_map_app_nil. reflexivity.
  - exists "+"%char. split; [reflexivity|]. intros rest. simpl app.
    rewrite drop_char by (assumption || reflexivity). destruct (drop_underscores _ rest); reflexivity.
  - exists "-"%char. split; [reflexivity|]. intros rest. simpl app.
    rewrite drop_char by (assumption || reflexivity). destruct (drop_underscores _ rest); reflexivity.
Qed.

Lemma fraction_drop (f fp : str) :
  fraction f fp ->
  forall prev, Ascii.eqb prev "_" = false ->
  exists p pt,
    Ascii.eqb p "_" = false /\ (pt = [] /\ fp = [] \/ pt = ["."%char]) /\
    forallb is_decimal fp = true /\
    forall rest,
      drop_underscores prev (f ++ rest) = option_map (app (pt ++ fp)) (drop_underscores p rest).
Proof.
  intros [|v fp' Hv] prev Hp.
  - exists prev, []. split; [exact Hp|]. split; [left; auto|]. split; [reflexivity|].
    intros rest. simpl. rewrite option_map_app_nil. reflexivity.
  - destruct (drop_optional_digitpart _ _ Hv "."%char eq_refl) as (p & Hp' & Hrest).
    exists p, ["."%char]. split; [exact Hp'|]. split; [right; reflexivity|].
    split; [exact (optional_digitpart_digits _ _ Hv)|].
    intros rest. simpl app. rewrite drop_char by (assumption || reflexivity).
    rewrite Hrest, option_map_cons_app. reflexivity.
Qed.

Lemma exponent_drop (e : str) (ex : Z) :
  exponent e ex ->
  forall prev, Ascii.eqb prev "_" = false ->
  exists e', plain_exponent e' ex /\ drop_underscores prev e = Some e'.
Proof.
  intros [|c sg neg u ds Hc Hsg Hu] prev Hp.
  - exists []. split; [constructor | apply drop_end; exact Hp].
  - assert (Hc_ : Ascii.eqb c "_" = false) by (destruct Hc as [-> | ->]; reflexivity).
    destruct (sign_drop _ _ Hsg c Hc_) as (p1 & Hp1 & Hd1).
    destruct (drop_optional_digitpart _ _ (odp_some _ _ Hu) p1 Hp1) as (p2 & Hp2 & Hd2).
    exists (c :: sg ++ ds). split.
    + rewrite <- digits_value_decimal. constructor; try assumption.
      * destruct Hu. discriminate.
      * exact (optional_digitpart_digits _ _ (odp_some _ _ Hu)).
    + rewrite drop_char by assumption.
      rewrite <- (app_nil_r u), Hd1, Hd2, (drop_end p2 Hp2). simpl.
      rewrite app_nil_r. reflexivity.
Qed.

Lemma decimal_drop (body : str) (neg : bool) (m e10 : Z) :
  decimal body neg m e10 ->
  exists t,
    drop_underscores zero body = Some t /\
    parse_decimal t = Some (decimal_to_float neg m e10).
Proof.
  intros [sg neg' u ip f fp e ex Hsg Hu Hf Hne He].
  destruct (sign_drop _ _ Hsg zero eq_refl) as (p1 & Hp1 & Hd1).
  destruct (drop_optional_digitpart _ _ Hu p1 Hp1) as (p2 & Hp2 & Hd2).
  destruct (fraction_drop _ _ Hf p2 Hp2) as (p3 & pt & Hp3 & Hpt & Hfp & Hd3).
  destruct (exponent_drop _ _ He p3 Hp3) as (e' & He' & Hd4).
  exists (sg ++ ip ++ pt ++ fp ++ e'). split.
  - rewrite Hd1, Hd2, Hd3, Hd4. simpl.
    rewrite <- app_assoc. reflexivity.
  - rewrite <- digits_value_decimal.
    apply parse_decimal_complete; try assumption.
    exact (optional_digitpart_digits _ _ Hu).
Qed.

(** *** The words for the infinities and the NaN *)


Lemma forallb_lower (w : str) :
  forallb letterish w = forallb (between 97 122) (lower w).
Proof. induction w as [|a w IH]; [reflexivity|]. simpl. rewrite IH. reflexivity. Qed.


Lemma special_letters (w : str) : special w -> forallb letterish w = true.
Proof.
  intros H. rewrite forallb_lower. destruct H as [-> | [-> | ->]]; reflexivity.
Qed.

Lemma special_not_nil (w : str) : special w -> w <> [].
Proof. intros [H | [H | H]] ->; discriminate H. Qed.

Lemma drop_no_underscore (s : str) (prev : ascii) :
  forallb (fun a => negb (Ascii.eqb a "_")) s = true -> Ascii.eqb prev "_" = false ->
  drop_underscores prev s = Some s.
Proof.
  revert prev. induction s as [|x s IH]; intros prev Hs Hp.
  - apply drop_end. exact Hp.
  - simpl in Hs. apply andb_prop in Hs. destruct Hs as [Hx Hs].
    apply negb_true_iff in Hx. rewrite drop_char by assumption.
    rewrite (IH x Hs Hx). reflexivity.
Qed.

Lemma drop_no_digit_inv (t c : str) (prev : ascii) :
  forallb (fun a => negb (is_decimal a)) t = true ->
  drop_underscores prev c = Some t -> c = t.
Proof.
  revert c prev. induction t as [|x t IH]; intros c prev Ht H.
  - exact (drop_nil_inv _ _ H).
  - simpl in Ht. apply andb_prop in Ht. destruct Ht as [Hx Ht].
    apply negb_true_iff in Hx.
    destruct (drop_other_inv _ _ _ _ Hx H) as (c' & -> & H1).
    f_equal. exact (IH _ _ Ht H1).
Qed.

Lemma parse_inf_nan_sound (t : str) (x : float) :
  parse_inf_nan t = Some x ->
  exists sg neg w,
    t = sg ++ w /\ sign sg neg /\
    ((lower w = lit "inf" \/ lower w = lit "infinity") /\ x = S754_infinity neg \/
     lower w = lit "nan" /\ x = S754_nan).
Proof.
  unfold parse_inf_nan. destruct (parse_sign t) as [neg w] eqn:Hs.
  destruct (parse_sign_spec _ _ _ Hs) as (sg & -> & Hsg).
  destruct (str_eqb (lower w) (lit "inf") || str_eqb (lower w) (lit "infinity")) eqn:Hinf.
  - intros H. injection H as <-. exists sg, neg, w. split; [reflexivity|].
    split; [exact Hsg|]. left. split; [|reflexivity].
    apply orb_prop in Hinf. destruct Hinf as [H|H]; apply str_eqb_eq in H; auto.
  - destruct (str_eqb (lower w) (lit "nan")) eqn:Hnan; [|discriminate].
    intros H. injection H as <-. exists sg, neg, w. split; [reflexivity|].
    split; [exact Hsg|]. right. split; [|reflexivity]. apply str_eqb_eq. exact Hnan.
Qed.

Lemma letters_facts (w : str) :
  forallb letterish w = true ->
  forallb (fun a => negb (Ascii.eqb a "_")) w = true /\
  forallb (fun a => negb (is_decimal a)) w = true /\
  no_sign_ahead w /\
  match w with [] => True | a :: _ => is_decimal a = false /\ Ascii.eqb a "." = false end.
Proof.
  intros H. split; [|split; [|split]].
  - induction w as [|a w IH]; [reflexivity|]. simpl in *.
    apply andb_prop in H. destruct H as [Ha Hw].
    destruct (letter_facts a Ha) as (_ & -> & _). simpl. exact (IH Hw).
  - induction w as [|a w IH]; [reflexivity|]. simpl in *.
    apply andb_prop in H. destruct H as [Ha Hw].
    destruct (letter_facts a Ha) as (_ & _ & _ & _ & _ & _ & _ & -> & _). simpl. exact (IH Hw).
  - destruct w as [|a w]; [exact I|]. simpl in *. apply andb_prop in H. destruct H as [Ha _].
    split; apply (letter_facts a Ha).
  - destruct w as [|a w]; [exact I|]. simpl in *. apply andb_prop in H. destruct H as [Ha _].
    split; apply (letter_facts a Ha).
Qed.

Lemma parse_decimal_special (sg : str) (neg : bool) (w : str) :
  sign sg neg -> special w -> parse_decimal (sg ++ w) = None.
Proof.
  intros Hsg Hw. pose proof (special_not_nil w Hw) as Hne.
  destruct (letters_facts w (special_letters w Hw)) as (_ & _ & Hahead & Hhead).
  unfold parse_decimal. rewrite (parse_sign_run sg w neg Hsg Hahead).
  destruct w as [|a w]; [congruence|]. destruct Hhead as [Hd Hdot].
  cbn [span]. rewrite Hd, Hdot. reflexivity.
Qed.

Lemma parse_inf_nan_complete (sg : str) (neg : bool) (w : str) :
  sign sg neg ->
  ((lower w = lit "inf" \/ lower w = lit "infinity") ->
   parse_inf_nan (sg ++ w) = Some (S754_infinity neg)) /\
  (lower w = lit "nan" -> parse_inf_nan (sg ++ w) = Some S754_nan).
Proof.
  intros Hsg.
  assert (Hrun : forall w, special w -> parse_sign (sg ++ w) = (neg, w)).
  { intros w0 Hw0. apply parse_sign_run; [exact Hsg|].
    apply (letters_facts w0 (special_letters w0 Hw0)). }
  split.
  - intros H. unfold parse_inf_nan. rewrite Hrun by (destruct H; [left | right; left]; assumption).
    destruct H as [-> | ->]; reflexivity.
  - intros H. unfold parse_inf_nan. rewrite Hrun by (right; right; assumption).
    rewrite H. reflexivity.
Qed.

(** *** The characters of a numeral *)


Lemma plain_digit (d : ascii) : is_decimal d = true -> numeral_char d = true.
Proof.
  intros H. destruct (digit_facts d H) as (H1 & _ & _ & H2 & _ & _ & _ & _ & _ & H3).
  unfold numeral_char. rewrite H1, H2, H3. reflexivity.
Qed.

Lemma plain_letter (a : ascii) : letterish a = true -> numeral_char a = true.
Proof.
  intros H. destruct (letter_facts a H) as (H1 & _ & _ & H2 & _ & _ & _ & _ & H3).
  unfold numeral_char. rewrite H1, H2, H3. reflexivity.
Qed.

Lemma plain_c_space (a : ascii) : numeral_char a = true -> is_c_space a = false.
Proof.
  destruct a as [[] [] [] [] [] [] [] []]; intros H; try discriminate H; reflexivity.
Qed.

Lemma more_digits_plain (u ds : str) : more_digits u ds -> forallb numeral_char u = true.
Proof.
  induction 1 as [|d u ds Hd _ IH|d u ds Hd _ IH]; [reflexivity| |].
  - simpl. rewrite (plain_digit d Hd). exact IH.
  - cbn [forallb]. rewrite (plain_digit d Hd), IH. reflexivity.
Qed.

Lemma optional_digitpart_plain (u ds : str) : optional_digitpart u ds -> forallb numeral_char u = true.
Proof.
  intros [|u' ds' [d u0 ds0 Hd Hm]]; [reflexivity|].
  simpl. rewrite (plain_digit d Hd). exact (more_digits_plain _ _ Hm).
Qed.

Lemma sign_plain (sg : str) (neg : bool) : sign sg neg -> forallb numeral_char sg = true.
Proof. intros [| |]; reflexivity. Qed.

Lemma fraction_plain (f fp : str) : fraction f fp -> forallb numeral_char f = true.
Proof.
  intros [|v fp' Hv]; [reflexivity|]. cbn [forallb].
  rewrite (optional_digitpart_plain _ _ Hv). reflexivity.
Qed.

Lemma exponent_plain (e : str) (ex : Z) : exponent e ex -> forallb numeral_char e = true.
Proof.
  intros [|c sg neg u ds Hc Hsg Hu]; [reflexivity|]. cbn [forallb].
  rewrite forallb_app, (sign_plain _ _ Hsg), (optional_digitpart_plain _ _ (odp_some _ _ Hu)).
  destruct Hc as [-> | ->]; reflexivity.
Qed.

Lemma letters_plain (w : str) : forallb letterish w = true -> forallb numeral_char w = true.
Proof.
  induction w as [|a w IH]; [reflexivity|]. simpl. intros H.
  apply andb_prop in H. destruct H as [Ha Hw]. rewrite (plain_letter a Ha). exact (IH Hw).
Qed.

Lemma numeral_plain (body : str) (x : float) : numeral body x -> forallb numeral_char body = true.
Proof.
  intros [body' neg m e [sg neg' u ip f fp e' ex Hsg Hu Hf Hne He] | sg neg w Hsg Hw | sg neg w Hsg Hw].
  - rewrite !forallb_app, (sign_plain _ _ Hsg), (optional_digitpart_plain _ _ Hu),
      (fraction_plain _ _ Hf), (exponent_plain _ _ He). reflexivity.
  - rewrite forallb_app, (sign_plain _ _ Hsg). apply letters_plain, special_letters.
    destruct Hw; [left | right; left]; assumption.
  - rewrite forallb_app, (sign_plain _ _ Hsg). apply letters_plain, special_letters.
    right. right. assumption.
Qed.

(** *** Characters outside ASCII *)

Lemma to_ascii_id (c : str) : forallb numeral_char c = true -> to_ascii_numeral c = c.
Proof.
  induction c as [|x c IH]; [reflexivity|]. simpl. intros H.
  apply andb_prop in H. destruct H as [Hx Hc]. unfold numeral_char in Hx.
  apply andb_prop in Hx. destruct Hx as [Hx _]. apply andb_prop in Hx. destruct Hx as [Hx _].
  rewrite Hx, (IH Hc). reflexivity.
Qed.

Lemma to_ascii_clean (c : str) :
  forallb numeral_char (to_ascii_numeral c) = true -> to_ascii_numeral c = c.
Proof.
  induction c as [|x c IH]; [reflexivity|]. cbn [to_ascii_numeral].
  destruct (N.ltb (code x) 127).
  - simpl. intros H. apply andb_prop in H. destruct H as [_ Hc]. rewrite (IH Hc). reflexivity.
  - destruct (is_space x); intros H; discriminate H.
Qed.

Lemma drop_keeps (P : ascii -> bool) (s : str) : forall (prev : ascii) (t : str),
  P "_"%char = true -> drop_underscores prev s = Some t ->
  forallb P t = true -> forallb P s = true.
Proof.
  induction s as [|x s IH]; intros prev t Hus H Ht; [reflexivity|].
  cbn [drop_underscores] in H. destruct (Ascii.eqb x "_") eqn:Hx.
  - apply Ascii.eqb_eq in Hx. subst x. destruct (is_decimal prev); [|discriminate].
    simpl. rewrite Hus. exact (IH _ _ Hus H Ht).
  - destruct (Ascii.eqb prev "_" && negb (is_decimal x)); [discriminate|].
    destruct (drop_underscores x s) as [t'|] eqn:Hd; [|discriminate].
    injection H as <-. simpl in Ht. apply andb_prop in Ht. destruct Ht as [Hpx Ht'].
    simpl. rewrite Hpx. exact (IH _ _ Hus Hd Ht').
Qed.

Lemma drop_subset (P : ascii -> bool) (s : str) : forall (prev : ascii) (t : str),
  drop_underscores prev s = Some t -> forallb P s = true -> forallb P t = true.
Proof.
  induction s as [|x s IH]; intros prev t H Hs; cbn [drop_underscores] in H.
  - destruct (Ascii.eqb prev "_"); [discriminate|]. injection H as <-. reflexivity.
  - simpl in Hs. apply andb_prop in Hs. destruct Hs as [Hx Hs].
    destruct (Ascii.eqb x "_").
    + destruct (is_decimal prev); [|discriminate]. exact (IH _ _ H Hs).
    + destruct (Ascii.eqb prev "_" && negb (is_decimal x)); [discriminate|].
      destruct (drop_underscores x s) as [t'|] eqn:Hd; [|discriminate].
      injection H as <-. simpl. rewrite Hx. exact (IH _ _ Hd Hs).
Qed.

(** *** Whitespace *)

Lemma lstrip_head (s : str) :
  exists ws, s = ws ++ lstrip s /\ forallb is_space ws = true.
Proof.
  induction s as [|x s (ws & Hs & Hws)]; [exists []; split; reflexivity|].
  simpl. destruct (is_space x) eqn:Hx.
  - exists (x :: ws). split; [simpl; congruence | simpl; rewrite Hx; exact Hws].
  - exists []. split; reflexivity.
Qed.

Lemma strip_decompose (cell : str) :
  exists before after,
    cell = before ++ strip cell ++ after /\
    forallb is_space before = true /\ forallb is_space after = true.
Proof.
  destruct (lstrip_head cell) as (ws1 & H1 & Hws1).
  destruct (rstrip_tail (lstrip cell)) as (ws2 & H2 & Hws2).
  exists ws1, ws2. unfold strip. split; [|auto]. rewrite <- H2. exact H1.
Qed.

Lemma strip_wrapped (before body after : str) :
  forallb is_space before = true -> forallb is_space after = true ->
  strip (before ++ body ++ after) = strip body.
Proof.
  intros Hb Ha. induction before as [|x ws IH].
  - simpl. clear Hb. induction after as [|y ws IH] using rev_ind.
    + rewrite app_nil_r. reflexivity.
    + rewrite forallb_app in Ha. apply andb_prop in Ha. destruct Ha as [Hws Hy].
      simpl in Hy. rewrite andb_true_r in Hy.
      rewrite app_assoc, strip_snoc_space by exact Hy. exact (IH Hws).
  - simpl in Hb. apply andb_prop in Hb. destruct Hb as [Hx Hws].
    simpl app. rewrite strip_cons_space by exact Hx. exact (IH Hws).
Qed.

Lemma plain_not_space (a : ascii) : numeral_char a = true -> is_space a = false.
Proof.
  unfold numeral_char. intros H. apply andb_prop in H. destruct H as [H _].
  apply andb_prop in H. destruct H as [_ H]. apply negb_true_iff in H. exact H.
Qed.

Lemma rstrip_plain (s : str) : forallb numeral_char s = true -> rstrip s = s.
Proof.
  induction s as [|x s IH]; [reflexivity|]. simpl. intros H.
  apply andb_prop in H. destruct H as [Hx Hs]. rewrite (IH Hs).
  destruct s; [|reflexivity]. rewrite (plain_not_space x Hx). reflexivity.
Qed.

Lemma strip_plain (s : str) : forallb numeral_char s = true -> strip s = s.
Proof.
  intros H. unfold strip.
  assert (Hl : lstrip s = s).
  { destruct s as [|x s]; [reflexivity|]. simpl in *. apply andb_prop in H.
    destruct H as [Hx _]. rewrite (plain_not_space x Hx). reflexivity. }
  rewrite Hl. apply rstrip_plain. exact H.
Qed.

Lemma c_lstrip_id (t : str) :
  match t with [] => True | x :: _ => is_c_space x = false end -> c_lstrip t = t.
Proof. destruct t as [|x t]; [reflexivity|]. simpl. intros ->. reflexivity. Qed.

Lemma c_strip_ends (h l : ascii) (m m' : str) :
  h :: m = m' ++ [l] -> is_c_space h = false -> is_c_space l = false ->
  c_strip (h :: m) = h :: m.
Proof.
  intros Heq Hh Hl. unfold c_strip.
  rewrite (c_lstrip_id (h :: m)) by exact Hh.
  rewrite Heq, rev_app_distr. simpl rev at 2. simpl app.
  rewrite (c_lstrip_id (l :: rev m')) by exact Hl.
  change (l :: rev m') with (rev [l] ++ rev m').
  rewrite <- rev_app_distr, rev_involutive. reflexivity.
Qed.

Lemma c_strip_plain (t : str) : forallb numeral_char t = true -> c_strip t = t.
Proof.
  intros H. destruct t as [|h m]; [reflexivity|].
  destruct (exists_last (l := h :: m)) as (m' & l & Heq); [discriminate|].
  apply (c_strip_ends h l m m' Heq).
  - simpl in H. apply andb_prop in H. destruct H as [Hh _]. exact (plain_c_space h Hh).
  - rewrite Heq, forallb_app in H. apply andb_prop in H. destruct H as [_ Hl].
    simpl in Hl. rewrite andb_true_r in Hl. exact (plain_c_space l Hl).
Qed.

(** *** The ends of a stripped cell *)

Lemma c_space_space (a : ascii) : is_space a = false -> is_c_space a = false.
Proof.
  destruct a as [[] [] [] [] [] [] [] []]; intros H; try discriminate H; reflexivity.
Qed.

Lemma lstrip_nonspace (s : str) (x : ascii) (r : str) :
  lstrip s = x :: r -> is_space x = false.
Proof.
  induction s as [|c s IH]; [discriminate|]. simpl.
  destruct (is_space c) eqn:Hc; [exact IH|]. intros H. injection H as <- _. exact Hc.
Qed.

Lemma strip_first (s : str) (x : ascii) (m : str) :
  strip s = x :: m -> is_space x = false.
Proof.
  unfold strip. destruct (lstrip s) as [|z r] eqn:Hl; [discriminate|].
  pose proof (lstrip_nonspace s z r Hl) as Hz. simpl.
  destruct (rstrip r).
  - rewrite Hz. intros H. injection H as <- _. exact Hz.
  - intros H. injection H as <- _. exact Hz.
Qed.

Lemma rstrip_last (s : str) : forall (m : str) (y : ascii),
  rstrip s = m ++ [y] -> is_space y = false.
Proof.
  induction s as [|x s IH]; intros m y; simpl.
  - intros H. destruct m; discriminate H.
  - destruct (rstrip s) as [|r0 r] eqn:Hr.
    + destruct (is_space x) eqn:Hx.
      * intros H. destruct m; discriminate H.
      * intros H. destruct m as [|m0 m]; [injection H as <-; exact Hx|].
        destruct m; discriminate H.
    + intros H. destruct m as [|m0 m]; [discriminate H|].
      injection H as _ H. exact (IH m y H).
Qed.

Lemma strip_last (s m : str) (y : ascii) : strip s = m ++ [y] -> is_space y = false.
Proof. unfold strip. apply rstrip_last. Qed.

Lemma to_ascii_first (x : ascii) (m : str) :
  is_space x = false ->
  exists h m', to_ascii_numeral (x :: m) = h :: m' /\ is_c_space h = false.
Proof.
  intros Hx. cbn [to_ascii_numeral]. rewrite Hx.
  destruct (N.ltb (code x) 127).
  - exists x, (to_ascii_numeral m). split; [reflexivity | exact (c_space_space x Hx)].
  - exists "?"%char, []. split; reflexivity.
Qed.

Lemma to_ascii_last (m : str) (y : ascii) :
  is_space y = false ->
  exists m' l, to_ascii_numeral (m ++ [y]) = m' ++ [l] /\ is_c_space l = false.
Proof.
  intros Hy. induction m as [|x m (m' & l & IH & Hl)].
  - simpl app. cbn [to_ascii_numeral]. rewrite Hy.
    destruct (N.ltb (code y) 127).
    + exists [], y. split; [reflexivity | exact (c_space_space y Hy)].
    + exists [], "?"%char. split; reflexivity.
  - simpl app. cbn [to_ascii_numeral].
    destruct (N.ltb (code x) 127).
    + exists (x :: m'), l. rewrite IH. auto.
    + destruct (is_space x).
      * exists (" "%char :: m'), l. rewrite IH. auto.
      * exists [], "?"%char. auto.
Qed.

Lemma drop_first (prev h : ascii) (m t : str) :
  is_decimal prev = false -> drop_underscores prev (h :: m) = Some t ->
  exists t', t = h :: t'.
Proof.
  intros Hp. cbn [drop_underscores]. rewrite Hp.
  destruct (Ascii.eqb h "_"); [discriminate|].
  destruct (Ascii.eqb prev "_" && negb (is_decimal h)); [discriminate|].
  destruct (drop_underscores h m) as [t'|]; [|discriminate].
  intros H. injection H as <-. exists t'. reflexivity.
Qed.

Lemma drop_last (m : str) (l : ascii) : forall (prev : ascii) (t : str),
  drop_underscores prev (m ++ [l]) = Some t -> exists t', t = t' ++ [l].
Proof.
  induction m as [|x m IH]; intros prev t; simpl app; cbn [drop_underscores].
  - destruct (Ascii.eqb l "_") eqn:Hl.
    + destruct (is_decimal prev); discriminate.
    + destruct (Ascii.eqb prev "_" && negb (is_decimal l)); [discriminate|].
      intros H. injection H as <-. exists []. reflexivity.
  - destruct (Ascii.eqb x "_").
    + destruct (is_decimal prev); [|discriminate]. apply IH.
    + destruct (Ascii.eqb prev "_" && negb (is_decimal x)); [discriminate|].
      destruct (drop_underscores x (m ++ [l])) as [t'|] eqn:Hd; [|discriminate].
      intros H. injection H as <-. destruct (IH _ _ Hd) as (t'' & ->).
      exists (x :: t''). reflexivity.
Qed.

(** *** [float] and the numerals *)

Lemma float_of_str_sound (cell : str) (x : float) :
  float_of_str (strip cell) = Ok x -> numeral (strip cell) x.
Proof.
  intros H.
  destruct (strip cell) as [|x0 m] eqn:Hc; [discriminate H|].
  destruct (exists_last (l := x0 :: m)) as (m1 & y & Hlast); [discriminate|].
  pose proof (strip_first cell x0 m Hc) as Hx0.
  assert (Hy : is_space y = false).
  { apply (strip_last cell m1 y). rewrite Hc. exact Hlast. }
  destruct (to_ascii_first x0 m Hx0) as (h & t1 & Hh & Hhs).
  destruct (to_ascii_last m1 y Hy) as (t1' & l & Hl & Hls).
  rewrite <- Hlast in Hl.
  unfold float_of_str in H.
  destruct (drop_underscores zero (to_ascii_numeral (x0 :: m))) as [t2|] eqn:Hdrop;
    [|discriminate H].
  assert (Hstrip : c_strip t2 = t2).
  { pose proof Hdrop as Hd1. rewrite Hh in Hd1.
    destruct (drop_first zero h t1 t2 eq_refl Hd1) as (t2a & Ht2a).
    pose proof Hdrop as Hd2. rewrite Hl in Hd2.
    destruct (drop_last _ _ _ _ Hd2) as (t2b & Ht2b).
    rewrite Ht2a. apply (c_strip_ends h l t2a t2b); [congruence | assumption..]. }
  cbv zeta in H. rewrite Hstrip in H.
  assert (Hnum : numeral (to_ascii_numeral (x0 :: m)) x).
  { destruct (parse_decimal t2) as [x'|] eqn:Hdec.
    - injection H as <-.
      destruct (parse_decimal_sound _ _ Hdec)
        as (sg & neg & ip & pt & fp & e & ex & -> & Hsg & Hip & Hfp & Hpt & Hne & He & ->).
      constructor. apply (decimal_inv_drop _ sg neg ip pt fp e ex); assumption.
    - destruct (parse_inf_nan t2) as [x'|] eqn:Hspec; [|discriminate H].
      injection H as <-.
      destruct (parse_inf_nan_sound _ _ Hspec) as (sg & neg & w & -> & Hsg & Hw).
      assert (Hsp : special w) by (destruct Hw as [[[Hw|Hw] _] | [Hw _]]; unfold special; auto).
      assert (Hnd : forallb (fun a => negb (is_decimal a)) (sg ++ w) = true).
      { rewrite forallb_app, (sign_not_digit _ _ Hsg).
        apply (letters_facts w (special_letters w Hsp)). }
      rewrite (drop_no_digit_inv _ _ _ Hnd Hdrop).
      destruct Hw as [[Hw ->] | [Hw ->]];
        [apply num_infinity | apply (num_nan sg neg)]; assumption. }
  rewrite (to_ascii_clean _ (numeral_plain _ _ Hnum)) in Hnum. exact Hnum.
Qed.

Lemma float_of_str_complete (body : str) (x : float) :
  numeral body x -> float_of_str body = Ok x.
Proof.
  intros Hnum. pose proof (numeral_plain _ _ Hnum) as Hplain.
  unfold float_of_str. rewrite (to_ascii_id _ Hplain).
  destruct Hnum as [body neg m e Hdec | sg neg w Hsg Hw | sg neg w Hsg Hw].
  - destruct (decimal_drop _ _ _ _ Hdec) as (t & Hdrop & Hparse).
    rewrite Hdrop. cbv zeta.
    rewrite (c_strip_plain t (drop_subset numeral_char _ _ _ Hdrop Hplain)), Hparse. reflexivity.
  - assert (Hsp : special w) by (destruct Hw; unfold special; auto).
    assert (Hus : forallb (fun a => negb (Ascii.eqb a "_")) (sg ++ w) = true).
    { rewrite forallb_app. apply andb_true_intro. split.
      - destruct Hsg; reflexivity.
      - apply (letters_facts w (special_letters w Hsp)). }
    rewrite (drop_no_underscore _ zero Hus eq_refl). cbv zeta.
    rewrite (c_strip_plain _ Hplain), (parse_decimal_special sg neg w Hsg Hsp).
    rewrite (proj1 (parse_inf_nan_complete sg neg w Hsg) Hw). reflexivity.
  - assert (Hsp : special w) by (unfold special; auto).
    assert (Hus : forallb (fun a => negb (Ascii.eqb a "_")) (sg ++ w) = true).
    { rewrite forallb_app. apply andb_true_intro. split.
      - destruct Hsg; reflexivity.
      - apply (letters_facts w (special_letters w Hsp)). }
    rewrite (drop_no_underscore _ zero Hus eq_refl). cbv zeta.
    rewrite (c_strip_plain _ Hplain), (parse_decimal_special sg neg w Hsg Hsp).
    rewrite (proj2 (parse_inf_nan_complete sg neg w Hsg) Hw). reflexivity.
Qed.

(** The float that the program reads in a cell is the number that the cell
    spells, and a cell that spells none is passed over. *)
Theorem cell_float_reads (cell : str) (x : float) :
  cell_float cell = Some x <-> reads cell x.
Proof.
  unfold cell_float. split.
  - destruct (float_of_str (strip cell)) as [x'|e] eqn:H; [|discriminate].
    intros Hx. injection Hx as <-.
    destruct (strip_decompose cell) as (before & after & Hcell & Hb & Ha).
    exists before, (strip cell), after. repeat split; try assumption.
    apply float_of_str_sound. exact H.
  - intros (before & body & after & -> & Hb & Ha & Hnum).
    rewrite (strip_wrapped before body after Hb Ha).
    rewrite (strip_plain body (numeral_plain _ _ Hnum)).
    rewrite (float_of_str_complete body x Hnum). reflexivity.
Qed.

(** *** The reference aggregator *)



Lemma above_gt (t : Z) (x : float) : above t x = float_gt_int x t.
Proof.
  destruct x as [s|[]| |s m e]; try reflexivity.
  - unfold above, exact_value, float_gt_int, QArith_base.Qle_bool. simpl.
    rewrite Z.mul_1_r. symmetry. apply Z.ltb_antisym.
  - unfold above, exact_value, float_gt_int, pow2.
    set (v := if s then Z.neg m else Z.pos m).
    destruct (Z.leb 0 e) eqn:He.
    + unfold QArith_base.Qle_bool, QArith_base.Qmult, QArith_base.inject_Z. simpl.
      rewrite !Z.mul_1_r. symmetry. apply Z.ltb_antisym.
    + unfold QArith_base.Qle_bool, QArith_base.Qmult, QArith_base.inject_Z.
      cbn [QArith_base.Qnum QArith_base.Qden].
      rewrite !Z.mul_1_r, Pos.mul_1_l, Z2Pos.id by (apply Z.pow_pos_nonneg; lia).
      symmetry. apply Z.ltb_antisym.
Qed.

Lemma firstn_succ_nth {A : Type} (d : A) (l : list A) : forall k,
  k < List.length l -> firstn (S k) l = firstn k l ++ [nth k l d].
Proof.
  induction l as [|x l IH]; intros k Hk; [simpl in Hk; lia|].
  destruct k as [|k]; [reflexivity|].
  simpl in Hk. change (firstn (S (S k)) (x :: l)) with (x :: firstn (S k) l).
  rewrite (IH k) by lia. reflexivity.
Qed.

Lemma partial_sum_fold (xs : list float) (k : nat) :
  k <= List.length xs ->
  partial_sum xs k = fold_left fadd (firstn k xs) (S754_zero false).
Proof.
  induction k as [|k IH]; intros Hk; [reflexivity|].
  rewrite (firstn_succ_nth (A := float) (S754_zero false)) by lia.
  rewrite fold_left_app. cbn [partial_sum fold_left]. rewrite IH by lia. reflexivity.
Qed.

Lemma sum_of_py_sum (xs : list float) : sum_of xs = py_sum xs.
Proof.
  destruct xs as [|x xs]; [reflexivity|]. unfold sum_of, py_sum.
  rewrite partial_sum_fold, firstn_all by lia. reflexivity.
Qed.

Lemma numbers_of_cells (cs : list str) (xs : list float) :
  numbers_of cs xs <-> xs = cell_values cs.
Proof.
  split.
  - induction 1 as [|cell x cells xs Hr _ IH|cell cells xs Hr _ IH]; [reflexivity| |].
    + apply cell_float_reads in Hr. unfold cell_values in *. simpl. rewrite Hr, IH. reflexivity.
    + unfold cell_values in *. simpl. destruct (cell_float cell) as [x|] eqn:Hx.
      * exfalso. apply (Hr x). apply cell_float_reads. exact Hx.
      * exact IH.
  - intros ->. induction cs as [|cell cs IH]; [constructor|].
    unfold cell_values in *. simpl. destruct (cell_float cell) as [x|] eqn:Hx.
    + simpl. constructor; [apply cell_float_reads; exact Hx | exact IH].
    + simpl. apply numbers_other; [|exact IH].
      intros x Hr. apply cell_float_reads in Hr. congruence.
Qed.

Lemma csv_sum_reference_iff (data : str) (threshold : option Z) (result : pynum) :
  csv_sum_reference data threshold result <->
  csv_sum data threshold = Ok (Some result).
Proof.
  rewrite csv_sum_total. unfold csv_sum_reference, kept_values. fold (cells data). split.
  - intros (xs & Hxs & ->). apply numbers_of_cells in Hxs. subst xs.
    rewrite sum_of_py_sum. destruct threshold as [t|]; [|reflexivity].
    rewrite (filter_ext _ _ (above_gt t)). reflexivity.
  - intros H. injection H as <-. exists (cell_values (cells data)).
    split; [apply numbers_of_cells; reflexivity|].
    rewrite sum_of_py_sum. destruct threshold as [t|]; [|reflexivity].
    rewrite (filter_ext _ _ (above_gt t)). reflexivity.
Qed.

(** C2, amended: for every text and optional threshold, [csv_sum] returns
    what the reference definition gives, and nothing else: rows on newline,
    cells on comma; a cell is a number when, whitespace around it apart, it
    is a decimal numeral (sign, digits with single underscores allowed
    between them, fraction, exponent), which stands for the binary64 nearest
    to it, or one of the words "inf", "infinity", "nan"; the other cells are
    left out; the numbers strictly above the threshold are kept when there
    is one; the result is their sum in binary64, added from the left, the
    sum of no number being the int 0.  In particular the sum of "1,2,3\n4,5"
    is 15.0, that of "1,10,20" above 5 is 30.0 (a value equal to the
    threshold is left out), that of "a,b,c" is 0; signs, fractions,
    exponents and underscores are read (-15 + 20 + 0.5 is 5.5), "0.1" is the
    float nearest to one tenth, a tie goes to the even neighbour (2^53 + 1
    is read as 2^53), "4.9e-324" is the least positive float, and a numeral
    too large for binary64 is the infinity. *)
Theorem csv_sum_matches_reference :
  (forall data threshold,
     exists result,
       csv_sum data threshold = Ok (Some result) /\
       csv_sum_reference data threshold result) /\
  (forall data threshold result,
     csv_sum_reference data threshold result ->
     csv_sum data threshold = Ok (Some result)) /\
  sum_of [] = PyInt 0 /\
  csv_sum (lit "1,2,3" ++ newline :: lit "4,5") None
  = Ok (Some (PyFloat (S754_finite false 8444249301319680 (-49)))) /\
  csv_sum (lit "1,10,20") (Some 5%Z)
  = Ok (Some (PyFloat (S754_finite false 8444249301319680 (-48)))) /\
  csv_sum (lit "5,10") (Some 5%Z)
  = Ok (Some (PyFloat (S754_finite false 5629499534213120 (-49)))) /\
  csv_sum (lit "a,b,c") None = Ok (Some (PyInt 0)) /\
  pynum_eq_int (PyFloat (S754_finite false 8444249301319680 (-49))) 15 = true /\
  pynum_eq_int (PyFloat (S754_finite false 8444249301319680 (-48))) 30 = true /\
  pynum_eq_int (PyFloat (S754_finite false 5629499534213120 (-49))) 10 = true /\
  csv_sum (lit " -1.5e1 , 2_0,.5") None
  = Ok (Some (PyFloat (S754_finite false 6192449487634432 (-50)))) /\
  real_value (PyFloat (S754_finite false 6192449487634432 (-50)))
  = Some (QArith_base.Qmult (QArith_base.inject_Z 6192449487634432)
                            (QArith_base.Qmake 1 1125899906842624)) /\
  csv_sum (lit "2.5,x,-1e-1") (Some 0%Z)
  = Ok (Some (PyFloat (S754_finite false 5629499534213120 (-51)))) /\
  csv_sum (lit "0.1") None
  = Ok (Some (PyFloat (S754_finite false 7205759403792794 (-56)))) /\
  csv_sum (lit "9007199254740993") None
  = Ok (Some (PyFloat (S754_finite false 4503599627370496 1))) /\
  csv_sum (lit "4.9e-324") None = Ok (Some (PyFloat (S754_finite false 1 (-1074)))) /\
  csv_sum (lit "1e400,5") (Some 3%Z) = Ok (Some (PyFloat (S754_infinity false))).
Proof.
  split.
  { intros data threshold. eexists. split; [apply csv_sum_total|].
    apply csv_sum_reference_iff. apply csv_sum_total. }
  split; [intros data threshold result; apply csv_sum_reference_iff|].
  repeat split; vm_compute; reflexivity.
Qed.

Lemma csv_sum_matches_reference_witness :
  csv_sum (lit "1,x") None = Ok (Some (PyFloat (S754_finite false 4503599627370496 (-52)))).
Proof.
  apply (proj1 (proj2 csv_sum_matches_reference)).
  exists [S754_finite false 4503599627370496 (-52)]. split; [|reflexivity].
  change (numbers_of [lit "1"; lit "x"] [S754_finite false 4503599627370496 (-52)]).
  apply numbers_number.
  - exists [], (lit "1"), []. split; [reflexivity|]. split; [reflexivity|].
    split; [reflexivity|].
    apply (num_decimal (lit "1") false 1 0).
    apply (decimal_intro [] false (lit "1") (lit "1") [] [] [] 0).
    + apply sign_none.
    + apply odp_some, dp_intro; [reflexivity | apply md_end].
    + apply frac_none.
    + discriminate.
    + apply exp_none.
  - apply numbers_other; [|apply numbers_nil].
    intros x Hr. apply cell_float_reads in Hr. vm_compute in Hr. discriminate Hr.
Defined.

(** C2 as stated fails: the result of [csv_sum] is not always the sum of
    real numbers.  A cell "nan" is taken for a number and the result is the
    NaN, which is no real number; and the sum of "0.1" and "0.2" is the
    float 0.3000000000000000444, not the real number 0.3. *)
Lemma csv_sum_not_a_real_sum :
  csv_sum (lit "1,nan,2") None = Ok (Some (PyFloat S754_nan)) /\
  ~ (forall data threshold,
       exists result q,
         csv_sum data threshold = Ok (Some result) /\ real_value result = Some q) /\
  csv_sum (lit "0.1,0.2") None
  = Ok (Some (PyFloat (S754_finite false 5404319552844596 (-54)))) /\
  real_value (PyFloat (S754_finite false 5404319552844596 (-54)))
  = Some (QArith_base.Qmult (QArith_base.inject_Z 5404319552844596)
                            (QArith_base.Qmake 1 18014398509481984)) /\
  ~ QArith_base.Qeq
      (QArith_base.Qmult (QArith_base.inject_Z 5404319552844596)
                         (QArith_base.Qmake 1 18014398509481984))
      (QArith_base.Qmake 3 10).
Proof.
  assert (Hnan : csv_sum (lit "1,nan,2") None = Ok (Some (PyFloat S754_nan)))
    by (vm_compute; reflexivity).
  split; [exact Hnan|]. split.
  { intros H. destruct (H (lit "1,nan,2") None) as (result & q & Hsum & Hq).
    rewrite Hnan in Hsum. injection Hsum as <-. discriminate Hq. }
  split; [vm_compute; reflexivity|]. split; [reflexivity|].
  unfold QArith_base.Qeq. vm_compute. discriminate.
Qed.

(** * Further properties *)

(** ** The page renderer *)

Lemma quits_counted (n : nat) :
  n - n = 0 /\ S n - n = 1 /\ S (S n) - n = 2 /\ n - n <= 1 /\ S n - n <= 1.
Proof. repeat split; lia. Qed.

(** X1: once the browser has been started, [render_dynamic_page] calls
    [driver.quit()] on every path on which it returns: once, or twice when
    the text comes back empty (the call of the ordinary path raised and the
    handler tries again).  When the renderer raises (an exception that is no
    [Exception] went through it), [driver.quit()] was called once at most;
    when the browser cannot be started it is never called.  Counting the
    calls changes neither the outcome nor the world. *)
Theorem browser_quit_on_every_path (E : Env) (url : str) (w : @World E) (n : nat)
    (log : list event) :
  let run := render_dynamic_page (E := counting_quits E) url
               (@Build_State (counting_quits E) (w, n) log) in
  let plain := render_dynamic_page (E := E) url (@Build_State E w log) in
  let quits := snd (world (snd run)) - n in
  match @build_driver E w with
  | (Raise _, _) => quits = 0
  | (Ok _, _) =>
      match fst run with
      | Ok text => quits = 1 \/ (quits = 2 /\ text = [])
      | Raise e => is_exception e = false /\ quits <= 1
      end
  end /\
  fst run = fst plain /\
  fst (world (snd run)) = world (snd plain) /\
  trace (snd run) = trace (snd plain).
Proof.
  destruct (quits_counted n) as (H0 & H1 & H2 & L0 & L1).
  cbv zeta. unfold render_dynamic_page. run_m.
  destruct (@build_driver E w) as [[d|e] w1]; simpl.
  2:{ split; [exact H0|]. repeat split. }
  destruct (@driver_get E d url w1) as [[[]|e] w2]; simpl.
  - destruct (@driver_body_text E d w2) as [[text|e] w3]; simpl.
    + destruct (@driver_quit E d w3) as [[[]|e] w4]; simpl.
      * split; [left; exact H1|]. repeat split.
      * destruct (is_exception e) eqn:He; simpl.
        -- destruct (@driver_quit E d w4) as [[[]|e'] w5]; simpl;
             (split; [right; split; [exact H2 | reflexivity]|]); repeat split.
        -- split; [split; [exact He | exact L1]|]. repeat split.
    + destruct (is_exception e) eqn:He; simpl.
      * destruct (@driver_quit E d w3) as [[[]|e'] w4]; simpl;
          (split; [left; exact H1|]); repeat split.
      * split; [split; [exact He | exact L0]|]. repeat split.
  - destruct (is_exception e) eqn:He; simpl.
    + destruct (@driver_quit E d w2) as [[[]|e'] w3]; simpl;
        (split; [left; exact H1|]); repeat split.
    + split; [split; [exact He | exact L0]|]. repeat split.
Qed.

(** An interrupt while the page loads: the renderer raises, and the browser
    is not closed. *)
Example render_interrupted_never_quits :
  render_dynamic_page (E := counting_quits Sample.site_interrupted) Demo.base_url
    (@Build_State (counting_quits Sample.site_interrupted) (tt, 0) [])
  = (Raise (PyExc "KeyboardInterrupt"),
     @Build_State (counting_quits Sample.site_interrupted) (tt, 0) [EvRender Demo.base_url]).
Proof. reflexivity. Qed.

(** X2: when the browser starts, the page loads and the body is read, the
    renderer returns the text of the body if closing the browser succeeds;
    if closing it raises an [Exception], the text already read is dropped
    and the renderer returns the empty text; if closing it raises something
    else, that leaves the renderer. *)
Theorem render_text_kept_only_if_closed (E : Env) (url : str) (st : State)
    (d : Driver) (w1 w2 w3 : World) (text : str) :
  build_driver (world st) = (Ok d, w1) ->
  driver_get d url w1 = (Ok tt, w2) ->
  driver_body_text d w2 = (Ok text, w3) ->
  (forall w4,
     driver_quit d w3 = (Ok tt, w4) ->
     render_dynamic_page url st
     = (Ok text, {| world := w4; trace := trace st ++ [EvRender url] |})) /\
  (forall e w4,
     driver_quit d w3 = (Raise e, w4) -> is_exception e = true ->
     fst (render_dynamic_page url st) = Ok []) /\
  (forall e w4,
     driver_quit d w3 = (Raise e, w4) -> is_exception e = false ->
     render_dynamic_page url st
     = (Raise e, {| world := w4; trace := trace st ++ [EvRender url] |})).
Proof.
  intros Hb Hg Ht. split; [|split].
  - intros w4 Hq. unfold render_dynamic_page. run_m.
    rewrite Hb. simpl. rewrite Hg. simpl. rewrite Ht. simpl. rewrite Hq. reflexivity.
  - intros e w4 Hq He. unfold render_dynamic_page. run_m.
    rewrite Hb. simpl. rewrite Hg. simpl. rewrite Ht. simpl. rewrite Hq. simpl.
    rewrite He. simpl.
    destruct (driver_quit d w4) as [[[]|e'] w5]; reflexivity.
  - intros e w4 Hq He. unfold render_dynamic_page. run_m.
    rewrite Hb. simpl. rewrite Hg. simpl. rewrite Ht. simpl. rewrite Hq. simpl.
    rewrite He. reflexivity.
Qed.

Lemma render_text_kept_only_if_closed_witness :
  render_dynamic_page (E := Demo.site) Demo.base_url (@Build_State Demo.site tt [])
  = (Ok (lit "7,8"), @Build_State Demo.site tt ([] ++ [EvRender Demo.base_url])) /\
  fst (render_dynamic_page (E := Sample.site_close_fails) Demo.base_url
         (@Build_State Sample.site_close_fails tt [])) = Ok [].
Proof.
  split.
  - apply (proj1 (render_text_kept_only_if_closed Demo.site Demo.base_url
                    (@Build_State Demo.site tt []) tt tt tt tt (lit "7,8")
                    eq_refl eq_refl eq_refl) tt).
    reflexivity.
  - apply (proj1 (proj2 (render_text_kept_only_if_closed Sample.site_close_fails Demo.base_url
                    (@Build_State Sample.site_close_fails tt []) tt tt tt tt (lit "7,8")
                    eq_refl eq_refl eq_refl)) (PyExc "WebDriverException") tt);
      reflexivity.
Defined.

(** ** Resource discovery *)

Section DiscoveryMore.

Context {E : Env}.

(** What one turn of the loop adds to the log: nothing, or the fetch of the
    resolved URL of a link that is not passed over, and then at most the
    render of that URL. *)
Lemma visit_link_log (base : str) (acc : dict * list str) (link : str) (st : State) :
  trace (snd (visit_link base acc link st)) = trace st \/
  (skipped link = false /\
   exists final evs,
     resolve base link = Ok final /\
     trace (snd (visit_link base acc link st)) = trace st ++ EvFetch final :: evs /\
     (evs = [] \/ evs = [EvRender final])).
Proof.
  destruct acc as [d u]. unfold visit_link.
  destruct (skipped link) eqn:Hsk; [left; reflexivity|].
  destruct (mem link u); [left; reflexivity|]. run_m.
  destruct (resolve base link) as [final|e] eqn:Hr; [|left; reflexivity].
  destruct (is_submit final); [left; reflexivity|].
  destruct (fetch_resource_cases final d st) as (r & st' & evs & Hf & Ht & Hevs & _).
  rewrite Hf. right. split; [reflexivity|]. exists final, evs.
  split; [reflexivity|]. split; [|exact Hevs]. destruct r; exact Ht.
Qed.

(** A turn of the loop raises only what the resolution of its link raises,
    or what is no [Exception]. *)
Lemma visit_link_raise (base : str) (acc : dict * list str) (link : str)
    (st st' : State) (e : exn) :
  visit_link base acc link st = (Raise e, st') ->
  skipped link = false /\ (resolve base link = Raise e \/ is_exception e = false).
Proof.
  destruct acc as [d u].
  destruct (visit_link_cases base d u link st)
    as [[_ Hc] | (Hsk & _ & [(e0 & Hr & Hc) | [(final & Hr & Hs & Hc)
       | (final & r & st1 & Hr & Hs & Hf & Hc)]])]; rewrite Hc; try discriminate.
  - intros H. injection H as <- _. auto.
  - destruct (fetch_resource_cases final d st) as (r2 & st2 & evs & Hf2 & _ & _ & Hd).
    rewrite Hf in Hf2. injection Hf2 as <- <-.
    destruct r as [d'|e0]; [discriminate|].
    intros H. injection H as <- _. auto.
Qed.

Lemma for_each_raise {A B : Type} (f : A -> B -> M A) (xs : list B) (a : A)
    (st st' : State) (e : exn) :
  for_each f xs a st = (Raise e, st') ->
  exists x a0 st0 st1, In x xs /\ f a0 x st0 = (Raise e, st1).
Proof.
  revert a st. induction xs as [|x xs IH]; intros a st; simpl; [discriminate|].
  unfold bind. destruct (f a x st) as [[a'|e0] st1] eqn:Hf.
  - intros H. destruct (IH a' st1 H) as (y & a0 & st0 & st2 & Hy & Hfy).
    exists y, a0, st0, st2. split; [right; exact Hy | exact Hfy].
  - intros H. injection H as <- <-. exists x, a, st, st1. split; [left; reflexivity | exact Hf].
Qed.

Lemma log_blocks_renders (evs : list event) :
  log_blocks evs ->
  List.length (rendered_urls evs) <= List.length (fetched_urls evs) /\
  incl (rendered_urls evs) (fetched_urls evs).
Proof.
  induction 1 as [|u evs _ [IHl IHi]|u evs _ [IHl IHi]]; simpl.
  - split; [constructor | intros x []].
  - split; [apply le_S; exact IHl | intros x Hx; right; apply IHi, Hx].
  - split; [apply le_n_S; exact IHl|].
    intros x [Hx|Hx]; [left; exact Hx | right; apply IHi, Hx].
Qed.

Lemma dict_get_set_other (k k0 v : str) (d : dict) :
  k <> k0 -> dict_get k (dict_set k0 v d) = dict_get k d.
Proof.
  intros Hk. induction d as [|[k' v'] d IH]; simpl.
  - destruct (str_eqb k0 k) eqn:H; [|reflexivity].
    apply str_eqb_eq in H. congruence.
  - destruct (str_eqb k' k0) eqn:H0; simpl.
    + destruct (str_eqb k' k) eqn:H1; [|reflexivity].
      apply str_eqb_eq in H0. apply str_eqb_eq in H1. congruence.
    + rewrite IH. reflexivity.
Qed.

End DiscoveryMore.

(** X3: a fetch or a render that fails with an [Exception] never ends
    discovery: an [Exception] leaves [sniff_related_urls] only when the
    resolution of a candidate link that is not passed over raised it
    ([urlparse] or [urljoin]); when every such candidate resolves, discovery
    returns a mapping or is ended by an exception that is no [Exception],
    whatever the network and the browser do. *)
Theorem discovery_raises_only_from_resolution
    (E : Env) (base html_text visible_text : str) (w : World) :
  match outcome (sniff_related_urls base html_text visible_text) w with
  | Raise e =>
      is_exception e = false \/
      exists link,
        In link (raw_urls_of (html_text ++ visible_text)) /\
        skipped link = false /\ resolve base link = Raise e
  | Ok _ => True
  end /\
  ((forall link,
      In link (raw_urls_of (html_text ++ visible_text)) -> skipped link = false ->
      exists final, resolve base link = Ok final) ->
   (exists discovered,
      outcome (sniff_related_urls base html_text visible_text) w = Ok discovered) \/
   (exists e,
      outcome (sniff_related_urls base html_text visible_text) w = Raise e /\
      is_exception e = false)).
Proof.
  assert (Hraise :
    match outcome (sniff_related_urls base html_text visible_text) w with
    | Raise e =>
        is_exception e = false \/
        exists link,
          In link (raw_urls_of (html_text ++ visible_text)) /\
          skipped link = false /\ resolve base link = Raise e
    | Ok _ => True
    end).
  { destruct (sniff_related_urls_run base html_text visible_text w) as [_ ->].
    unfold sniff_links.
    destruct (for_each _ _ _ _) as [[acc|e] st] eqn:Hrun; simpl; [exact I|].
    destruct (for_each_raise _ _ _ _ _ _ Hrun) as (link & a0 & st0 & st1 & Hin & Hv).
    destruct (visit_link_raise base a0 link st0 _ _ Hv) as [Hsk [Hr|He]].
    - right. exists link. auto.
    - left. exact He. }
  split; [exact Hraise|].
  intros Hres.
  destruct (outcome (sniff_related_urls base html_text visible_text) w) as [d|e].
  - left. exists d. reflexivity.
  - right. exists e. split; [reflexivity|].
    destruct Hraise as [He | (link & Hin & Hsk & Hr)]; [exact He|].
    destruct (Hres link Hin Hsk) as (final & Hok). congruence.
Qed.

Lemma discovery_raises_only_from_resolution_witness :
  (exists discovered,
     outcome (sniff_related_urls (E := Sample.site_offline) Demo.base_url Demo.page_html []) tt
     = Ok discovered) \/
  (exists e,
     outcome (sniff_related_urls (E := Sample.site_offline) Demo.base_url Demo.page_html []) tt
     = Raise e /\ is_exception e = false).
Proof.
  apply (proj2 (discovery_raises_only_from_resolution Sample.site_offline
                  Demo.base_url Demo.page_html [] tt)).
  intros link _ _. unfold resolve.
  destruct (startswith (lit "/") link).
  - eexists. vm_compute. reflexivity.
  - destruct (startswith (lit "http") link); eexists; reflexivity.
Defined.

(** On a site that cannot be reached, discovery returns the empty mapping. *)
Example discovery_offline :
  outcome (sniff_related_urls (E := Sample.site_offline) Demo.base_url Demo.page_html []) tt
  = Ok [].
Proof. vm_compute. reflexivity. Qed.

(** On a site whose relative links cannot be resolved, discovery raises. *)
Example discovery_raises_on_bad_link :
  outcome (sniff_related_urls (E := Sample.site_bad_links) Demo.base_url
             SamplePages.page_relative []) tt
  = Raise ValueError.
Proof. vm_compute. reflexivity. Qed.

(** X4: every key of the mapping that discovery returns is a URL that was
    passed to [requests.get] during that discovery. *)
Theorem stored_keys_were_fetched
    (E : Env) (base html_text visible_text : str) (w : World) :
  match outcome (sniff_related_urls base html_text visible_text) w with
  | Ok discovered =>
      incl (keys discovered)
           (fetched_urls (calls (sniff_related_urls base html_text visible_text) w))
  | Raise _ => True
  end.
Proof.
  destruct (sniff_related_urls_run base html_text visible_text w) as [-> ->].
  assert (Hstep : forall (a : dict * list str) (x : str) (st : State),
            In x (raw_urls_of (html_text ++ visible_text)) ->
            incl (keys (fst a)) (fetched_urls (trace st)) ->
            match visit_link base a x st with
            | (Ok a', st') => incl (keys (fst a')) (fetched_urls (trace st'))
            | (Raise _, _) => True
            end).
  { intros [d u] link st _ Hacc. simpl in Hacc.
    destruct (visit_link_cases base d u link st)
      as [[_ Hc] | (_ & _ & [(e & _ & Hc) | [(final & _ & _ & Hc)
         | (final & r & st' & _ & _ & Hfr & Hc)]])]; rewrite Hc; simpl; auto.
    destruct (fetch_resource_cases final d st) as (r2 & st2 & evs & Hfr2 & Ht & _ & Hd).
    rewrite Hfr in Hfr2. injection Hfr2 as <- <-.
    destruct r as [d'|e]; [|exact I]. simpl.
    rewrite Ht, fetched_urls_app. simpl.
    assert (Hold : incl (keys d) (fetched_urls (trace st) ++ final :: fetched_urls evs)).
    { intros k Hk. apply in_or_app. left. apply Hacc, Hk. }
    destruct Hd as [-> | (body & ->)]; [exact Hold|].
    rewrite keys_dict_set. destruct (mem final (keys d)); [exact Hold|].
    intros k Hk. apply in_app_or in Hk. destruct Hk as [Hk|[<-|[]]].
    + apply Hold, Hk.
    + apply in_or_app. right. left. reflexivity. }
  pose proof (for_each_invariant (visit_link base)
                (raw_urls_of (html_text ++ visible_text))
                (fun acc st => incl (keys (fst acc)) (fetched_urls (trace st)))
                (fun _ => True) Hstep ([], []) {| world := w; trace := [] |}) as Hinv.
  unfold sniff_links.
  destruct (for_each _ _ _ _) as [[acc|e] st']; simpl; [|exact I].
  apply Hinv. intros x [].
Qed.

(** X5: the work of a discovery is bounded by its candidates: it makes at
    most one fetch for a candidate link, at most one render for a fetch, and
    it renders only URLs that it has fetched. *)
Theorem discovery_work_bounded
    (E : Env) (base html_text visible_text : str) (w : World) :
  let log := calls (sniff_related_urls base html_text visible_text) w in
  List.length (fetched_urls log) <= List.length (raw_urls_of (html_text ++ visible_text)) /\
  List.length (rendered_urls log) <= List.length (fetched_urls log) /\
  incl (rendered_urls log) (fetched_urls log).
Proof.
  cbv zeta.
  destruct (sniff_related_urls_run base html_text visible_text w) as [-> _].
  pose proof (sniff_links_invariant base (raw_urls_of (html_text ++ visible_text)) w) as H.
  assert (Hlog : fetches_from base (raw_urls_of (html_text ++ visible_text))
                   (trace (snd (sniff_links base (raw_urls_of (html_text ++ visible_text))
                                  {| world := w; trace := [] |}))) /\
                 log_blocks
                   (trace (snd (sniff_links base (raw_urls_of (html_text ++ visible_text))
                                  {| world := w; trace := [] |})))).
  { destruct (sniff_links _ _ _) as [[acc|e] st]; simpl.
    - destruct H as (_ & _ & _ & _ & Hu & Hf & Hb).
      split; [exact (fetches_from_weaken base _ _ _ Hu Hf) | exact Hb].
    - destruct H as (_ & Hf & Hb). split; assumption. }
  destruct Hlog as [(rs & Hnd & Hin & Hf2) Hb].
  split.
  - rewrite <- (Forall2_length Hf2). apply NoDup_incl_length; assumption.
  - apply log_blocks_renders. exact Hb.
Qed.

(** X6: a candidate that begins with "#" or "javascript" is never resolved
    or fetched: every fetched URL is the resolution of a candidate that
    begins with neither, and a page whose candidates all begin that way
    causes no call at all and gives the empty mapping. *)
Theorem skipped_links_never_fetched
    (E : Env) (base html_text visible_text : str) (w : World) :
  Forall (fun u =>
            exists link,
              In link (raw_urls_of (html_text ++ visible_text)) /\
              startswith (lit "#") link = false /\
              startswith (lit "javascript") link = false /\
              resolve base link = Ok u)
         (fetched_urls (calls (sniff_related_urls base html_text visible_text) w)) /\
  ((forall link,
      In link (raw_urls_of (html_text ++ visible_text)) ->
      startswith (lit "#") link = true \/ startswith (lit "javascript") link = true) ->
   calls (sniff_related_urls base html_text visible_text) w = [] /\
   outcome (sniff_related_urls base html_text visible_text) w = Ok []).
Proof.
  set (raw := raw_urls_of (html_text ++ visible_text)).
  set (P := fun u : str =>
              exists link,
                In link raw /\ startswith (lit "#") link = false /\
                startswith (lit "javascript") link = false /\ resolve base link = Ok u).
  destruct (sniff_related_urls_run base html_text visible_text w) as [Hc Ho].
  fold raw in Hc, Ho.
  split.
  - rewrite Hc.
    assert (Hstep : forall (a : dict * list str) (x : str) (st : State),
              In x raw -> Forall P (fetched_urls (trace st)) ->
              match visit_link base a x st with
              | (Ok _, st') => Forall P (fetched_urls (trace st'))
              | (Raise _, st') => Forall P (fetched_urls (trace st'))
              end).
    { intros a link st Hin Hst.
      assert (H : Forall P (fetched_urls (trace (snd (visit_link base a link st))))).
      { destruct (visit_link_log base a link st)
          as [-> | (Hsk & final & evs & Hr & -> & Hevs)]; [exact Hst|].
        rewrite fetched_urls_app. apply Forall_app. split; [exact Hst|].
        unfold skipped in Hsk. apply orb_false_elim in Hsk. destruct Hsk as [H1 H2].
        assert (HP : P final) by (exists link; auto).
        destruct Hevs as [-> | ->]; simpl; repeat constructor; exact HP. }
      destruct (visit_link base a link st) as [[a'|e] st']; exact H. }
    pose proof (for_each_invariant (visit_link base) raw
                  (fun _ st => Forall P (fetched_urls (trace st)))
                  (fun st => Forall P (fetched_urls (trace st)))
                  Hstep ([], []) {| world := w; trace := [] |}) as Hinv.
    unfold sniff_links.
    destruct (for_each _ _ _ _) as [[acc|e] st']; simpl; apply Hinv; constructor.
  - intros Hall.
    assert (Hrun : forall xs st,
              (forall link, In link xs -> skipped link = true) ->
              sniff_links base xs st = (Ok ([], []), st)).
    { unfold sniff_links. induction xs as [|x xs IH]; intros st Hxs; [reflexivity|].
      simpl. unfold bind, visit_link. rewrite (Hxs x (or_introl eq_refl)).
      unfold ret. apply IH. intros y Hy. apply Hxs. right. exact Hy. }
    rewrite Hc, Ho, Hrun; [split; reflexivity|].
    intros link Hin. unfold skipped. destruct (Hall link Hin) as [-> | ->];
      [reflexivity | apply orb_true_r].
Qed.

Lemma skipped_links_never_fetched_witness :
  calls (sniff_related_urls (E := Demo.site) Demo.base_url SamplePages.page_inert []) tt = [] /\
  outcome (sniff_related_urls (E := Demo.site) Demo.base_url SamplePages.page_inert []) tt
  = Ok [].
Proof.
  apply (proj2 (skipped_links_never_fetched Demo.site Demo.base_url
                  SamplePages.page_inert [] tt)).
  intros link Hin.
  assert (Hraw : raw_urls_of (SamplePages.page_inert ++ [])
                 = [lit "#top"; lit "javascript:void(0)"]) by (vm_compute; reflexivity).
  rewrite Hraw in Hin. destruct Hin as [<- | [<- | []]]; [left | right]; reflexivity.
Defined.

(** X7: a resource whose fetch fails is left out and nothing else is
    touched.  When the request for a URL raises an [Exception], the guarded
    fetch returns the mapping as it was, having logged the fetch alone.
    Whenever the guarded fetch returns, the body of every other URL is as
    before and the keys keep their order: they are the same, or the fetched
    URL, new, is added at the end.  It raises only what is no [Exception]. *)
Theorem fetch_keeps_other_entries (E : Env) (final : str) (discovered : dict) (st : State) :
  (forall e w1,
     requests_get final (world st) = (Raise e, w1) -> is_exception e = true ->
     fetch_resource final discovered st
     = (Ok discovered, {| world := w1; trace := trace st ++ [EvFetch final] |})) /\
  match fst (fetch_resource final discovered st) with
  | Ok discovered' =>
      (forall k, k <> final -> dict_get k discovered' = dict_get k discovered) /\
      (keys discovered' = keys discovered \/
       (~ In final (keys discovered) /\ keys discovered' = keys discovered ++ [final]))
  | Raise e => is_exception e = false
  end.
Proof.
  split.
  { intros e w1 Hget He. unfold fetch_resource. run_m. rewrite Hget. simpl.
    rewrite He. reflexivity. }
  destruct (fetch_resource_cases final discovered st) as (r & st' & evs & Hf & _ & _ & Hd).
  rewrite Hf. simpl. destruct r as [d'|e]; [|exact Hd].
  destruct Hd as [-> | (body & ->)].
  - split; [reflexivity | left; reflexivity].
  - split.
    + intros k Hk. apply dict_get_set_other. exact Hk.
    + rewrite keys_dict_set. destruct (mem final (keys discovered)) eqn:Hm.
      * left. reflexivity.
      * right. split; [|reflexivity]. intros Hin. apply mem_In in Hin. congruence.
Qed.

Lemma fetch_keeps_other_entries_witness :
  fetch_resource (E := Sample.site_offline) Demo.stub_url
    [(lit "http://quiz.test/data.csv", lit "1,2,3")] (@Build_State Sample.site_offline tt [])
  = (Ok [(lit "http://quiz.test/data.csv", lit "1,2,3")],
     @Build_State Sample.site_offline tt ([] ++ [EvFetch Demo.stub_url])).
Proof.
  apply (proj1 (fetch_keeps_other_entries Sample.site_offline Demo.stub_url
                  [(lit "http://quiz.test/data.csv", lit "1,2,3")]
                  (@Build_State Sample.site_offline tt []))
           (PyExc "ConnectionError") tt);
    reflexivity.
Defined.

(** ** The aggregator *)

Lemma cell_values_prepend_spaces (ws s : str) :
  forallb is_space ws = true -> cell_values (cells (ws ++ s)) = cell_values (cells s).
Proof.
  induction ws as [|c ws IH]; intros H; [reflexivity|].
  simpl in H. apply andb_prop in H. destruct H as [Hc Hws].
  simpl app. rewrite cell_values_cons_space by exact Hc. apply IH. exact Hws.
Qed.

Lemma csv_sum_by_cells (data : str) (threshold : option Z) :
  csv_sum data threshold =
  Ok (Some (py_sum match threshold with
                   | Some t => filter (fun n => float_gt_int n t) (cell_values (cells data))
                   | None => cell_values (cells data)
                   end)).
Proof. rewrite csv_sum_total. reflexivity. Qed.

(** X8: whitespace around a text (blanks, tabs, empty lines before or after
    it) does not change the result of [csv_sum]; a text of whitespace alone
    sums to the int 0. *)
Theorem csv_sum_ignores_outer_whitespace :
  (forall before data after threshold,
     forallb is_space before = true -> forallb is_space after = true ->
     csv_sum (before ++ data ++ after) threshold = csv_sum data threshold) /\
  (forall blank threshold,
     forallb is_space blank = true -> csv_sum blank threshold = Ok (Some (PyInt 0))).
Proof.
  assert (H : forall before data after threshold,
            forallb is_space before = true -> forallb is_space after = true ->
            csv_sum (before ++ data ++ after) threshold = csv_sum data threshold).
  { intros before data after threshold Hb Ha. rewrite !csv_sum_by_cells.
    rewrite (cell_values_prepend_spaces before _ Hb).
    rewrite (cell_values_app_spaces data after Ha). reflexivity. }
  split; [exact H|].
  intros blank threshold Hb.
  rewrite <- (app_nil_r blank). change (blank ++ []) with (blank ++ [] ++ []).
  rewrite (H blank [] [] threshold Hb eq_refl). destruct threshold; reflexivity.
Qed.

Lemma csv_sum_ignores_outer_whitespace_witness :
  csv_sum (lit "  " ++ lit "1,2" ++ [newline; newline]) None = csv_sum (lit "1,2") None /\
  csv_sum [newline; " "%char] (Some 3%Z) = Ok (Some (PyInt 0)).
Proof.
  split.
  - apply (proj1 csv_sum_ignores_outer_whitespace); reflexivity.
  - apply (proj2 csv_sum_ignores_outer_whitespace). reflexivity.
Defined.

Lemma cells_app_sep (a b : str) (sep : ascii) :
  sep = newline \/ sep = comma -> cells (a ++ sep :: b) = cells a ++ cells b.
Proof.
  intros Hsep. induction a as [|x a IH]; simpl app.
  - destruct Hsep as [-> | ->]; [apply cells_cons_newline | apply cells_cons_comma].
  - destruct (Ascii.eqb x newline) eqn:Hn.
    { apply Ascii.eqb_eq in Hn. subst x. rewrite !cells_cons_newline, IH. reflexivity. }
    destruct (Ascii.eqb x comma) eqn:Hc.
    { apply Ascii.eqb_eq in Hc. subst x. rewrite !cells_cons_comma, IH. reflexivity. }
    rewrite (cells_cons_other x (a ++ sep :: b) Hn Hc), (cells_cons_other x a Hn Hc), IH.
    destruct (cells a) as [|t ts] eqn:Ha; [exfalso; exact (cells_not_nil _ Ha)|].
    reflexivity.
Qed.

(** X9: the numbers [csv_sum] collects from two texts joined by a newline or
    by a comma are the numbers of the first followed by those of the second,
    so a comma and a newline separate cells alike, and the total of the
    joined text is the total of the first carried on through the numbers of
    the second. *)
Theorem csv_nums_of_joined_texts :
  (forall a b sep,
     sep = newline \/ sep = comma ->
     csv_nums (a ++ sep :: b) = csv_nums a ++ csv_nums b) /\
  (forall a b, csv_nums (a ++ comma :: b) = csv_nums (a ++ newline :: b)) /\
  (forall a b sep total,
     sep = newline \/ sep = comma ->
     csv_sum a None = Ok (Some (PyFloat total)) ->
     csv_sum (a ++ sep :: b) None
     = Ok (Some (PyFloat (fold_left fadd (csv_nums b) total)))).
Proof.
  assert (H : forall a b sep,
            sep = newline \/ sep = comma ->
            csv_nums (a ++ sep :: b) = csv_nums a ++ csv_nums b).
  { intros a b sep Hsep. rewrite !csv_nums_cells, (cells_app_sep a b sep Hsep).
    apply cell_values_app. }
  split; [exact H|]. split.
  - intros a b. rewrite !H by auto. reflexivity.
  - intros a b sep total Hsep Ha.
    unfold csv_sum, csv_sum_dyn, csv_sum_body, except_none in *. rewrite (H a b sep Hsep).
    destruct (csv_nums a) as [|y ys] eqn:Hnums; [discriminate Ha|].
    cbn [py_sum] in Ha. injection Ha as <-.
    cbn [app py_sum]. rewrite <- fold_left_app. reflexivity.
Qed.

Lemma csv_nums_of_joined_texts_witness :
  csv_nums (lit "1,x" ++ newline :: lit "2") = csv_nums (lit "1,x") ++ csv_nums (lit "2") /\
  csv_sum (lit "1,2" ++ comma :: lit "3") None
  = Ok (Some (PyFloat (fold_left fadd (csv_nums (lit "3")) (float_of_Z 3)))).
Proof.
  pose proof csv_nums_of_joined_texts as (Hnums & _ & Hsum).
  split.
  - apply Hnums. left. reflexivity.
  - apply Hsum; [right; reflexivity | vm_compute; reflexivity].
Defined.

Lemma decimal_not_space (c : ascii) : is_decimal c = true -> is_space c = false.
Proof.
  destruct c as [[] [] [] [] [] [] [] []]; intros H;
    solve [discriminate H | reflexivity].
Qed.

Lemma lstrip_spaces_app (ws s : str) :
  forallb is_space ws = true -> lstrip (ws ++ s) = lstrip s.
Proof.
  induction ws as [|c ws IH]; intros H; [reflexivity|].
  simpl in H. apply andb_prop in H. destruct H as [Hc Hws].
  simpl. rewrite Hc. apply IH. exact Hws.
Qed.

Lemma rstrip_app_spaces (s ws : str) :
  forallb is_space ws = true -> rstrip (s ++ ws) = rstrip s.
Proof.
  induction ws as [|c ws IH] using rev_ind; intros H.
  - rewrite app_nil_r. reflexivity.
  - rewrite forallb_app in H. apply andb_prop in H. destruct H as [Hws Hc].
    simpl in Hc. rewrite andb_true_r in Hc.
    rewrite app_assoc, rstrip_snoc_space by exact Hc. apply IH. exact Hws.
Qed.

Lemma rstrip_digits (ds : str) : forallb is_decimal ds = true -> rstrip ds = ds.
Proof.
  induction ds as [|c ds IH]; [reflexivity|]. simpl. intros H.
  apply andb_prop in H. destruct H as [Hc Hds]. rewrite (IH Hds).
  destruct ds; [rewrite (decimal_not_space c Hc)|]; reflexivity.
Qed.

(** [strip] takes the whitespace off a numeral of digits. *)
Lemma strip_digits (before ds after : str) :
  forallb is_space before = true -> forallb is_space after = true ->
  ds <> [] -> forallb is_decimal ds = true ->
  strip (before ++ ds ++ after) = ds.
Proof.
  intros Hb Ha Hne Hds. unfold strip. rewrite (lstrip_spaces_app before _ Hb).
  destruct ds as [|c ds]; [contradiction|].
  assert (Hc : is_space c = false).
  { apply decimal_not_space. simpl in Hds. apply andb_prop in Hds. tauto. }
  change ((c :: ds) ++ after) with (c :: ds ++ after).
  cbn [lstrip]. rewrite Hc.
  change (c :: ds ++ after) with ((c :: ds) ++ after).
  rewrite (rstrip_app_spaces _ after Ha). apply rstrip_digits. exact Hds.
Qed.

Lemma digits_value_nonneg (ds : str) :
  forallb is_decimal ds = true -> (0 <= digits_value ds)%Z.
Proof.
  unfold digits_value.
  assert (H : forall acc, (0 <= acc)%Z -> forallb is_decimal ds = true ->
              (0 <= fold_left (fun a c => 10 * a + digit_value c) ds acc)%Z).
  { induction ds as [|c ds IH]; intros acc Hacc Hds; [exact Hacc|].
    simpl in Hds. apply andb_prop in Hds. destruct Hds as [Hc Hds].
    cbn [fold_left]. apply IH; [|exact Hds].
    assert (0 <= digit_value c)%Z.
    { unfold digit_value. unfold is_decimal, between in Hc.
      apply andb_prop in Hc. destruct Hc as [Hlo _]. apply N.leb_le in Hlo. lia. }
    lia. }
  apply H. lia.
Qed.

Lemma decimal_to_float_integer (v : Z) :
  (0 <= v)%Z -> decimal_to_float false v 0 = float_of_Z v.
Proof.
  intros Hv. unfold decimal_to_float, float_of_Z. destruct v as [|p|p]; [reflexivity| |lia].
  cbn [Z.leb Z.compare]. change (10 ^ 0)%Z with 1%Z. rewrite Z.mul_1_r. reflexivity.
Qed.

(** [float] on a numeral of digits alone is the float nearest to the
    integer the digits spell. *)
Lemma float_of_str_digits (ds : str) :
  ds <> [] -> forallb is_decimal ds = true ->
  float_of_str ds = Ok (float_of_Z (digits_value ds)).
Proof.
  intros Hne Hds. unfold float_of_str.
  rewrite (to_ascii_numeral_digits ds Hds).
  rewrite (drop_underscores_digits zero ds eq_refl Hds).
  unfold c_strip. rewrite (c_lstrip_digits ds Hds).
  rewrite (c_lstrip_digits (rev ds) (forallb_rev _ _ Hds)), rev_involutive.
  assert (Hparse : parse_decimal ds = Some (decimal_to_float false (digits_value ds) 0)).
  { unfold parse_decimal.
    assert (Hsign : parse_sign ds = (false, ds)).
    { destruct ds as [|c ds]; [contradiction|].
      assert (Hc : is_decimal c = true) by (simpl in Hds; apply andb_prop in Hds; tauto).
      destruct (decimal_char c Hc) as (_ & _ & _ & Hm & Hp & _).
      unfold parse_sign. rewrite Hm, Hp. reflexivity. }
    rewrite Hsign.
    pose proof (span_run is_decimal ds [] Hds I) as Hspan.
    rewrite app_nil_r in Hspan. rewrite Hspan. rewrite app_nil_r.
    destruct ds as [|c ds]; [contradiction|]. reflexivity. }
  rewrite Hparse, (decimal_to_float_integer _ (digits_value_nonneg ds Hds)). reflexivity.
Qed.

(** X10: a cell made of decimal digits, with or without whitespace around
    them, is never discarded: [csv_sum] collects for it the float nearest to
    the integer the digits spell.  An empty cell or a cell of whitespace
    alone adds nothing. *)
Theorem digit_cell_collected :
  (forall nums before ds after,
     forallb is_space before = true -> forallb is_space after = true ->
     ds <> [] -> forallb is_decimal ds = true ->
     try_cell nums (before ++ ds ++ after) = nums ++ [float_of_Z (digits_value ds)]) /\
  (forall nums blank, forallb is_space blank = true -> try_cell nums blank = nums).
Proof.
  split.
  - intros nums before ds after Hb Ha Hne Hds. unfold try_cell.
    rewrite (strip_digits before ds after Hb Ha Hne Hds).
    rewrite (float_of_str_digits ds Hne Hds). reflexivity.
  - intros nums blank Hb. unfold try_cell.
    assert (Hs : strip blank = []).
    { unfold strip. rewrite <- (app_nil_r blank), (lstrip_spaces_app blank [] Hb).
      reflexivity. }
    rewrite Hs. reflexivity.
Qed.

Lemma digit_cell_collected_witness :
  try_cell [] (lit " " ++ lit "042" ++ lit "  ") = [] ++ [float_of_Z (digits_value (lit "042"))] /\
  try_cell [float_of_Z 1] (lit "  ") = [float_of_Z 1].
Proof.
  split.
  - apply (proj1 digit_cell_collected); try reflexivity. discriminate.
  - apply (proj2 digit_cell_collected). reflexivity.
Defined.

(** ** The orchestrator *)

Lemma search_cutoff_sound (text : str) :
  forall prev g,
    search_from cutoff_pattern prev text = Some g ->
    exists pre, cutoff_phrase text pre g.
Proof.
  induction text as [|x text IH]; intros prev g.
  - cbn [search_from]. rewrite match_here_cutoff. discriminate.
  - cbn [search_from]. rewrite match_here_cutoff.
    destruct (cutoff_here (x :: text)) as [[ds n]|] eqn:Hh.
    + intros H. injection H as <-. exists []. exact (cutoff_here_phrase _ _ _ Hh).
    + intros H. destruct (IH _ _ H) as (pre & Hp).
      exists (x :: pre). apply cutoff_phrase_cons. exact Hp.
Qed.

(** [int] on a numeral made of digits alone. *)
Lemma int_of_str_digits_limit (ds : str) :
  ds <> [] -> forallb is_decimal ds = true ->
  int_of_str ds =
  if Nat.ltb int_max_str_digits (List.length ds) then Raise ValueError
  else Ok (digits_value ds).
Proof.
  intros Hne Hds. unfold int_of_str.
  rewrite (to_ascii_numeral_digits ds Hds).
  rewrite (drop_underscores_digits zero ds eq_refl Hds).
  unfold c_strip. rewrite (c_lstrip_digits ds Hds).
  rewrite (c_lstrip_digits (rev ds) (forallb_rev _ _ Hds)), rev_involutive.
  destruct ds as [|c ds]; [contradiction|].
  assert (Hc : is_decimal c = true) by (simpl in Hds; apply andb_prop in Hds; tauto).
  destruct (decimal_char c Hc) as (_ & _ & _ & Hm & Hp & _).
  unfold parse_sign. rewrite Hm, Hp, Hds. reflexivity.
Qed.

(** X11: a cutoff that [handle_quiz] extracts is never negative, and it is
    the integer spelled by the digits of a phrase "Cutoff"/"cutoff", colons
    or blanks, digits, that stands in the page text. *)
Theorem cutoff_is_a_phrase_of_the_text (text : str) (n : Z) :
  handle_quiz_cutoff text = Ok (Some n) ->
  (0 <= n)%Z /\
  exists pre ds, cutoff_phrase text pre ds /\ n = digits_value ds.
Proof.
  unfold handle_quiz_cutoff, search.
  destruct (search_from cutoff_pattern None text) as [g|] eqn:Hs; [|discriminate].
  destruct (search_cutoff_sound text None g Hs) as (pre & Hp).
  pose proof Hp as (c & seps & rest & _ & _ & _ & _ & Hne & Hds & _).
  rewrite (int_of_str_digits_limit g Hne Hds).
  destruct (Nat.ltb int_max_str_digits (List.length g)); [discriminate|].
  intros H. injection H as <-. split; [apply digits_value_nonneg; exact Hds|].
  exists pre, g. split; [exact Hp | reflexivity].
Qed.

Lemma cutoff_is_a_phrase_of_the_text_witness :
  (0 <= 42)%Z /\
  exists pre ds, cutoff_phrase (lit "The Cutoff: 42.") pre ds /\ 42%Z = digits_value ds.
Proof.
  apply (cutoff_is_a_phrase_of_the_text (lit "The Cutoff: 42.") 42).
  vm_compute. reflexivity.
Defined.

(** X12: the cutoff step raises only [ValueError], and only when the page
    text has a cutoff phrase of more than 4300 digits, which [int] refuses;
    on a text of at most 4300 characters it never raises. *)
Theorem cutoff_raises_only_on_long_numerals (text : str) :
  (forall e,
     handle_quiz_cutoff text = Raise e ->
     e = ValueError /\
     exists pre ds, cutoff_phrase text pre ds /\ int_max_str_digits < List.length ds) /\
  (List.length text <= int_max_str_digits ->
   exists cutoff_val, handle_quiz_cutoff text = Ok cutoff_val).
Proof.
  assert (Hraise : forall e,
     handle_quiz_cutoff text = Raise e ->
     e = ValueError /\
     exists pre ds, cutoff_phrase text pre ds /\ int_max_str_digits < List.length ds).
  { intros e. unfold handle_quiz_cutoff, search.
    destruct (search_from cutoff_pattern None text) as [g|] eqn:Hs; [|discriminate].
    destruct (search_cutoff_sound text None g Hs) as (pre & Hp).
    pose proof Hp as (c & seps & rest & _ & _ & _ & _ & Hne & Hds & _).
    rewrite (int_of_str_digits_limit g Hne Hds).
    destruct (Nat.ltb int_max_str_digits (List.length g)) eqn:Hlen; [|discriminate].
    intros H. injection H as <-. split; [reflexivity|].
    exists pre, g. split; [exact Hp | apply Nat.ltb_lt; exact Hlen]. }
  split; [exact Hraise|].
  intros Hlen. destruct (handle_quiz_cutoff text) as [v|e] eqn:Hc.
  - exists v. reflexivity.
  - exfalso. destruct (Hraise e eq_refl) as (_ & pre & ds & (c & seps & rest & Ht & _) & Hds).
    apply (f_equal (@List.length ascii)) in Ht.
    rewrite length_app in Ht. cbn [List.length] in Ht.
    rewrite !length_app in Ht. lia.
Qed.

Lemma cutoff_raises_only_on_long_numerals_witness :
  (ValueError = ValueError /\
   exists pre ds,
     cutoff_phrase SamplePages.text_long_cutoff pre ds /\
     int_max_str_digits < List.length ds) /\
  exists cutoff_val, handle_quiz_cutoff (lit "Cutoff: 42") = Ok cutoff_val.
Proof.
  split.
  - apply (proj1 (cutoff_raises_only_on_long_numerals SamplePages.text_long_cutoff)).
    vm_compute. reflexivity.
  - apply (proj2 (cutoff_raises_only_on_long_numerals (lit "Cutoff: 42"))).
    vm_compute. lia.
Defined.

Lemma existsb_firstn_false {A : Type} (p : A -> bool) (n : nat) (l : list A) :
  existsb p l = false -> existsb p (firstn n l) = false.
Proof.
  revert n. induction l as [|x l IH]; intros [|n] H; try reflexivity.
  simpl in *. apply orb_false_elim in H. destruct H as [-> H]. apply IH. exact H.
Qed.

(** X13: the test of line 171 looks at the first 80 characters of a body
    only: a digit among them makes the resource qualify, and on a URL
    without ".csv" digits that come after them do not. *)
Theorem only_first_80_characters_examined (link : str) :
  (forall before c after,
     isdigit c = true -> List.length before < 80 ->
     qualifies link (before ++ c :: after) = true) /\
  (forall head rest,
     contains (lit ".csv") link = false ->
     80 <= List.length head -> existsb isdigit head = false ->
     qualifies link (head ++ rest) = false).
Proof.
  split.
  - intros before c after Hc Hlen. unfold qualifies, prefix.
    rewrite firstn_app, existsb_app.
    destruct (80 - List.length before) as [|k] eqn:Hk; [lia|].
    rewrite firstn_cons.
    change (existsb isdigit (c :: firstn k after))
      with (isdigit c || existsb isdigit (firstn k after)).
    rewrite Hc. cbn [orb]. rewrite orb_true_r. apply orb_true_r.
  - intros head rest Hcsv Hlen Hno. unfold qualifies, prefix.
    rewrite Hcsv, firstn_app.
    replace (80 - List.length head) with 0 by lia.
    change (firstn 0 rest) with (@nil ascii). rewrite app_nil_r. cbn [orb].
    apply existsb_firstn_false. exact Hno.
Qed.

Lemma only_first_80_characters_examined_witness :
  qualifies (lit "http://quiz.test/page") (lit "total: " ++ "4"%char :: lit "2 points") = true /\
  qualifies (lit "http://quiz.test/page") (repeat "x"%char 80 ++ lit "42") = false.
Proof.
  split.
  - apply (proj1 (only_first_80_characters_examined (lit "http://quiz.test/page")));
      [reflexivity | vm_compute; lia].
  - apply (proj2 (only_first_80_characters_examined (lit "http://quiz.test/page")));
      [reflexivity | vm_compute; lia | reflexivity].
Defined.

(** X14: how the numeric result changes when one more resource comes last
    in the mapping: a resource that qualifies replaces the result by its own
    sum, whatever was computed before, and a resource that does not
    qualify leaves the result as it was. *)
Theorem numeric_result_of_one_more_resource
    (assets : dict) (link body : str) (cutoff_val : option Z) :
  handle_quiz_precomputed (assets ++ [(link, body)]) cutoff_val =
  if qualifies link body then csv_sum body cutoff_val
  else handle_quiz_precomputed assets cutoff_val.
Proof.
  unfold handle_quiz_precomputed. rewrite !numeric_walk_last.
  unfold last_qualifying. rewrite filter_app. cbn [filter fst snd].
  destruct (qualifies link body).
  - rewrite last_opt_app_single. reflexivity.
  - rewrite app_nil_r. reflexivity.
Qed.

Lemma contains_app (p a b : str) : contains p (a ++ p ++ b) = true.
Proof.
  induction a as [|x a IH].
  - simpl app. destruct (p ++ b) eqn:H; cbn [contains]; rewrite <- H, startswith_app;
      reflexivity.
  - simpl app. cbn [contains]. rewrite IH. apply orb_true_r.
Qed.

(** X15: the submit filter is blind to letter case and to position: a
    resolved URL that has "submit" in any mix of cases anywhere in it is
    passed over by discovery, which logs nothing for it and leaves the
    mapping as it was. *)
Theorem submit_in_any_case_is_passed_over (E : Env) (base link : str)
    (discovered : dict) (unique : list str) (st : State) (a s b : str) :
  lower s = lit "submit" ->
  resolve base link = Ok (a ++ s ++ b) ->
  is_submit (a ++ s ++ b) = true /\
  exists unique',
    visit_link base (discovered, unique) link st = (Ok (discovered, unique'), st).
Proof.
  intros Hs Hr.
  assert (Hsub : is_submit (a ++ s ++ b) = true).
  { unfold is_submit, lower. rewrite !map_app. fold (lower s). rewrite Hs.
    apply contains_app. }
  split; [exact Hsub|]. unfold visit_link.
  destruct (skipped link); [exists unique; reflexivity|].
  destruct (mem link unique); [exists unique; reflexivity|].
  unfold bind, pure_call, ret. rewrite Hr, Hsub. exists (link :: unique). reflexivity.
Qed.

Lemma submit_in_any_case_is_passed_over_witness :
  is_submit (lit "http://quiz.test/" ++ lit "SubMit" ++ lit "?id=1") = true /\
  exists unique',
    visit_link (E := Demo.site) Demo.base_url ([], [])
      (lit "http://quiz.test/SubMit?id=1") (@Build_State Demo.site tt [])
    = (Ok ([], unique'), @Build_State Demo.site tt []).
Proof.
  apply (submit_in_any_case_is_passed_over Demo.site Demo.base_url
           (lit "http://quiz.test/SubMit?id=1") [] [] (@Build_State Demo.site tt [])
           (lit "http://quiz.test/") (lit "SubMit") (lit "?id=1"));
    reflexivity.
Defined.




(** ** The candidates of discovery *)

Lemma advance_some (r : option (option str * nat)) (g : option str) (n : nat) :
  advance r = Some (g, n) -> exists n', r = Some (g, n') /\ n = S n'.
Proof.
  destruct r as [[g' n']|]; simpl; [|discriminate].
  intros H. injection H as <- <-. exists n'. split; reflexivity.
Qed.

(** A repetition that matches hands over to what follows it somewhere
    further in the text. *)
Lemma plus_loop_some (p : ascii -> bool) (k : ascii -> str -> option (option str * nat))
    (s : str) (g : option str) (n : nat) :
  plus_loop p k s = Some (g, n) ->
  exists a c s' n', s = a ++ s' /\ k c s' = Some (g, n').
Proof.
  revert n. induction s as [|c s IH]; intros n; simpl; [discriminate|].
  destruct (p c); [|discriminate]. intros H.
  apply advance_some in H. destruct H as (n1 & H & _).
  destruct (plus_loop p k s) as [r|] eqn:Hl.
  - injection H as ->. destruct (IH n1 eq_refl) as (a & c' & s' & n' & -> & Hk).
    exists (c :: a), c', s', n'. split; [reflexivity | exact Hk].
  - exists [c], c, s, n1. split; [reflexivity | exact H].
Qed.

(** The group of a match of a pattern that ends with its only group: a
    piece of the text, not empty, made of characters of the class of the
    group. *)
Lemma match_here_group (p : ascii -> bool) (pre : pattern) :
  no_group pre = true ->
  forall prev s g0 g n,
    match_here (pre ++ [Grp p]) prev s g0 = Some (g, n) ->
    exists run, g = Some run /\ run <> [] /\ forallb p run = true /\ substring run s.
Proof.
  induction pre as [|nd pre IH]; intros Hng prev s g0 g n.
  - cbn [app match_here]. rewrite group_loop_final.
    pose proof (span_app p s) as Hs. pose proof (span_forallb p s) as Hf.
    destruct (span p s) as [run rest]. cbn [fst snd] in *.
    destruct run as [|x run]; [discriminate|].
    intros H. injection H as <- _. exists (x :: run).
    repeat split; [discriminate | exact Hf |]. exists [], rest. exact Hs.
  - cbn [no_group forallb] in Hng. apply andb_prop in Hng. destruct Hng as [Hnd Hng].
    fold (no_group pre) in Hng. specialize (IH Hng).
    destruct nd as [q|q| |q]; [| | |discriminate Hnd]; cbn [app match_here].
    + destruct s as [|c s]; [discriminate|]. destruct (q c); [|discriminate].
      intros H. apply advance_some in H. destruct H as (n' & H & _).
      destruct (IH _ _ _ _ _ H) as (run & Hg & Hne & Hf & a & b & ->).
      exists run. repeat split; try assumption. exists (c :: a), b. reflexivity.
    + intros H. apply plus_loop_some in H. destruct H as (a0 & c & s' & n' & -> & H).
      destruct (IH _ _ _ _ _ H) as (run & Hg & Hne & Hf & a & b & ->).
      exists run. repeat split; try assumption. exists (a0 ++ a), b.
      rewrite <- app_assoc. reflexivity.
    + destruct (xorb _ _); [|discriminate]. apply IH.
Qed.

Lemma substring_cons (r s : str) (c : ascii) : substring r s -> substring r (c :: s).
Proof. intros (a & b & ->). exists (c :: a), b. reflexivity. Qed.

(** The same of everything [findall] returns. *)
Lemma findall_from_group (p : ascii -> bool) (pre : pattern) :
  no_group pre = true ->
  forall s skip prev r,
    In r (findall_from (pre ++ [Grp p]) skip prev s) ->
    r <> [] /\ forallb p r = true /\ substring r s.
Proof.
  intros Hng.
  assert (Hhere : forall prev s g n r,
            match_here (pre ++ [Grp p]) prev s None = Some (g, n) ->
            r = match g with Some t => t | None => [] end ->
            r <> [] /\ forallb p r = true /\ substring r s).
  { intros prev s g n r H ->.
    destruct (match_here_group p pre Hng _ _ _ _ _ H) as (run & -> & Hne & Hf & Hsub).
    auto. }
  induction s as [|c s IH]; intros skip prev r.
  - destruct skip as [|k]; cbn [findall_from]; [|intros []].
    destruct (match_here (pre ++ [Grp p]) prev [] None) as [[g n]|] eqn:Hm; [|intros []].
    intros [Hr|[]]. exact (Hhere _ _ _ _ _ Hm (eq_sym Hr)).
  - assert (Hrest : forall k prev',
              In r (findall_from (pre ++ [Grp p]) k prev' s) ->
              r <> [] /\ forallb p r = true /\ substring r (c :: s)).
    { intros k prev' Hin. destruct (IH _ _ _ Hin) as (Hne & Hf & Hsub).
      repeat split; try assumption. apply substring_cons. exact Hsub. }
    destruct skip as [|k]; cbn [findall_from]; [|apply Hrest].
    destruct (match_here (pre ++ [Grp p]) prev (c :: s) None) as [[g n]|] eqn:Hm;
      [|apply Hrest].
    intros [Hr|Hin]; [exact (Hhere _ _ _ _ _ Hm (eq_sym Hr)) | exact (Hrest _ _ Hin)].
Qed.

Lemma token_not_quote (r : str) : forallb is_token r = true -> forallb not_quote r = true.
Proof.
  induction r as [|c r IH]; [reflexivity|]. simpl. intros H.
  apply andb_prop in H. destruct H as [Hc Hr]. rewrite (IH Hr), andb_true_r.
  unfold is_token in Hc. unfold not_quote.
  destruct (is_quote c); [|reflexivity].
  rewrite orb_true_r in Hc. discriminate Hc.
Qed.

(** X17: every candidate link that discovery extracts from a text is a
    piece of that text as it stands, is not empty, and has no quote
    character in it. *)
Theorem candidates_are_pieces_of_the_text (text r : str) :
  In r (raw_urls_of text) ->
  r <> [] /\ forallb not_quote r = true /\ substring r text.
Proof.
  unfold raw_urls_of. rewrite in_flat_map. intros (ns & Hns & Hin).
  unfold findall in Hin.
  destruct Hns as [<- | [<- | [<- | [<- | []]]]].
  - exact (findall_from_group not_quote (word_i "href=" ++ [Chr is_quote])
             eq_refl text 0 None r Hin).
  - exact (findall_from_group not_quote
             (Bnd :: word_i "CSV" ++ Plus not_quote :: word_i "href=" ++ [Chr is_quote])
             eq_refl text 0 None r Hin).
  - destruct (findall_from_group is_token
                (Bnd :: word_i "download" ++ [Plus not_blank; Plus is_space])
                eq_refl text 0 None r Hin) as (Hne & Hf & Hsub).
    repeat split; try assumption. apply token_not_quote. exact Hf.
  - destruct (findall_from_group is_token
                (Bnd :: word_i "Scrape" ++ [Plus not_blank; Plus is_space])
                eq_refl text 0 None r Hin) as (Hne & Hf & Hsub).
    repeat split; try assumption. apply token_not_quote. exact Hf.
Qed.

Lemma candidates_are_pieces_of_the_text_witness :
  lit "/data.csv" <> [] /\ forallb not_quote (lit "/data.csv") = true /\
  substring (lit "/data.csv") Demo.page_html.
Proof.
  apply (candidates_are_pieces_of_the_text Demo.page_html (lit "/data.csv")).
  vm_compute. left. reflexivity.
Defined.
